(** * Verification of the document-field extraction core of backend-api

    Shallow embedding of the OCR text extractor of [server.js]
    ([normalizeText], [matchOne], [pickFirst], [extractFromVisionText]),
    of [extractSimple] and of the two upload routes, together with the
    Normalizer of the specification (no source under [src/]). *)

From Stdlib Require Import Ascii String List Bool Arith Lia ZArith.
From Stdlib Require Import Numbers.DecimalString.
Import ListNotations.

#[local] Set Warnings "-register-all".

(** ** JavaScript strings

    A JS string is a sequence of UTF-16 code units; the model keeps the
    code units 0..255 (Latin-1), one [ascii] each. *)

Definition jstr := list ascii.

Definition str (s : string) : jstr := list_ascii_of_string s.

Definition code (c : ascii) : nat := nat_of_ascii c.

Fixpoint jstr_eqb (a b : jstr) : bool :=
  match a, b with
  | [], [] => true
  | x :: a', y :: b' => Ascii.eqb x y && jstr_eqb a' b'
  | _, _ => false
  end.

(** JS white space and line terminators ([\s], and what [String.prototype.trim]
    removes) inside 0..255: TAB, LF, VT, FF, CR, SPACE and NBSP. *)
Definition is_ws (c : ascii) : bool :=
  let n := code c in
  (9 <=? n) && (n <=? 13) || (n =? 32) || (n =? 160).

(** [\w]: the word characters used by [\b]. *)
Definition is_word (c : ascii) : bool :=
  let n := code c in
  (48 <=? n) && (n <=? 57) || (65 <=? n) && (n <=? 90)
  || (97 <=? n) && (n <=? 122) || (n =? 95).

Definition is_digit (c : ascii) : bool :=
  let n := code c in (48 <=? n) && (n <=? 57).

Definition is_nl (c : ascii) : bool := Ascii.eqb c "010"%char.
Definition is_cr (c : ascii) : bool := Ascii.eqb c "013"%char.
Definition is_sp (c : ascii) : bool := Ascii.eqb c " "%char.
Definition is_tab (c : ascii) : bool := Ascii.eqb c "009"%char.

Definition nl : ascii := "010"%char.

(** ** [String.prototype.trim] *)

Fixpoint ltrim (l : jstr) : jstr :=
  match l with
  | [] => []
  | c :: r => if is_ws c then ltrim r else l
  end.

Fixpoint rtrim (l : jstr) : jstr :=
  match l with
  | [] => []
  | c :: r =>
      match rtrim r with
      | [] => if is_ws c then [] else [c]
      | r' => c :: r'
      end
  end.

Definition trim (l : jstr) : jstr := rtrim (ltrim l).

(** ** [normalizeText] (server.js, lines 68-74) *)

(** [.replace(/\r/g, "\n")] *)
Definition replace_cr (l : jstr) : jstr :=
  map (fun c => if is_cr c then nl else c) l.

(** [.replace(/[ \t]+/g, " ")]: [pend] records a pending run of blanks. *)
Fixpoint collapse_blanks (pend : bool) (l : jstr) : jstr :=
  match l with
  | [] => if pend then [" "%char] else []
  | c :: r =>
      if is_sp c || is_tab c then collapse_blanks true r
      else (if pend then [" "%char] else []) ++ c :: collapse_blanks false r
  end.

(** [.replace(/\n{3,}/g, "\n\n")]: [k] counts a pending run of newlines;
    a run of one or two newlines is kept, a longer one becomes two. *)
Fixpoint collapse_newlines (k : nat) (l : jstr) : jstr :=
  match l with
  | [] => repeat nl (Nat.min k 2)
  | c :: r =>
      if is_nl c then collapse_newlines (S k) r
      else repeat nl (Nat.min k 2) ++ c :: collapse_newlines 0 r
  end.

(** [(t || "")] is the identity on the strings the routes pass. *)
Definition normalizeText (t : jstr) : jstr :=
  trim (collapse_newlines 0 (collapse_blanks false (replace_cr t))).

(** ** A backtracking matcher for the regular expressions of server.js

    The constructs used by the extractor: literal characters, character
    classes, greedy counted repetition of a class ([*], [+], [{m,n}]),
    [\b], sequence, alternation, greedy [?] on a group, and capturing
    groups. Matching follows ECMAScript: continuation-passing, greedy
    quantifiers try the longest count first, alternatives left to right,
    [String.prototype.match] without [g] tries start indices 0, 1, ... *)

Inductive re :=
| RChar (a : ascii)
| RClass (p : ascii -> bool)
| RRep (p : ascii -> bool) (mn : nat) (mx : option nat)
| RBound
| RSeq (r1 r2 : re)
| RAlt (r1 r2 : re)
| ROpt (r : re)
| RGroup (n : nat) (r : re).

(** A regular expression literal with its [i] flag. *)
Record regex := { body : re; icase : bool }.

(** Case folding of the [i] flag: ECMAScript canonicalises with
    [toUpperCase], never mapping a non-ASCII unit to an ASCII one; the
    classes and literals below contain no Latin-1 letter, so swapping the
    case of ASCII letters decides membership exactly. *)
Definition swap_case (c : ascii) : ascii :=
  let n := code c in
  if (65 <=? n) && (n <=? 90) then ascii_of_nat (n + 32)
  else if (97 <=? n) && (n <=? 122) then ascii_of_nat (n - 32)
  else c.

Definition cls_match (ic : bool) (p : ascii -> bool) (c : ascii) : bool :=
  p c || ic && p (swap_case c).

Definition char_match (ic : bool) (a c : ascii) : bool :=
  cls_match ic (Ascii.eqb a) c.

Record mstate := { pos : nat; caps : list (nat * (nat * nat)) }.

Definition set_pos (s : mstate) (i : nat) : mstate :=
  {| pos := i; caps := caps s |}.

Definition set_cap (n : nat) (v : nat * nat) (s : mstate) : mstate :=
  {| pos := pos s; caps := (n, v) :: caps s |}.

Fixpoint cap_lookup (n : nat) (l : list (nat * (nat * nat))) : option (nat * nat) :=
  match l with
  | [] => None
  | (m, v) :: l' => if Nat.eqb m n then Some v else cap_lookup n l'
  end.

Definition cap (n : nat) (s : mstate) : option (nat * nat) := cap_lookup n (caps s).

(** Length of the run of class characters at the front of [l], at most [mx]. *)
Fixpoint run_len (ic : bool) (p : ascii -> bool) (l : jstr) (mx : option nat) : nat :=
  match mx with
  | Some 0 => 0
  | _ =>
      match l with
      | [] => 0
      | c :: r => if cls_match ic p c then S (run_len ic p r (option_map pred mx)) else 0
      end
  end.

(** Greedy backtracking over the counts [i, i-1, ..., mn]. *)
Fixpoint try_counts (mn : nat) (start : nat) (i : nat) (s : mstate)
  (k : mstate -> option mstate) : option mstate :=
  if i <? mn then None
  else
    match k (set_pos s (start + i)) with
    | Some r => Some r
    | None => match i with 0 => None | S i' => try_counts mn start i' s k end
    end.

Definition at_boundary (t : jstr) (i : nat) : bool :=
  let before := match i with 0 => false
                | S j => match nth_error t j with Some c => is_word c | None => false end end in
  let after := match nth_error t i with Some c => is_word c | None => false end in
  xorb before after.

Fixpoint mt (ic : bool) (t : jstr) (r : re) (s : mstate)
  (k : mstate -> option mstate) {struct r} : option mstate :=
  match r with
  | RChar a =>
      match nth_error t (pos s) with
      | Some c => if char_match ic a c then k (set_pos s (S (pos s))) else None
      | None => None
      end
  | RClass p =>
      match nth_error t (pos s) with
      | Some c => if cls_match ic p c then k (set_pos s (S (pos s))) else None
      | None => None
      end
  | RRep p mn mx => try_counts mn (pos s) (run_len ic p (skipn (pos s) t) mx) s k
  | RBound => if at_boundary t (pos s) then k s else None
  | RSeq r1 r2 => mt ic t r1 s (fun s1 => mt ic t r2 s1 k)
  | RAlt r1 r2 =>
      match mt ic t r1 s k with
      | Some x => Some x
      | None => mt ic t r2 s k
      end
  | ROpt r1 =>
      match mt ic t r1 s k with
      | Some x => Some x
      | None => k s
      end
  | RGroup n r1 => mt ic t r1 s (fun s1 => k (set_cap n (pos s, pos s1) s1))
  end.

(** [RegExp.prototype.exec] without the [g] flag: the first start index at
    which the whole expression matches; the result keeps the start index. *)
Fixpoint exec_from (ic : bool) (r : re) (t : jstr) (i fuel : nat) : option (nat * mstate) :=
  match fuel with
  | 0 => None
  | S f =>
      match mt ic t r {| pos := i; caps := [] |} Some with
      | Some s => Some (i, s)
      | None => exec_from ic r t (S i) f
      end
  end.

Definition exec (rx : regex) (t : jstr) : option (nat * mstate) :=
  exec_from (icase rx) (body rx) t 0 (S (length t)).

Definition slice (t : jstr) (a b : nat) : jstr := firstn (b - a) (skipn a t).

(** [m[0]] and [m[n]] of a match; an unmatched group is [undefined]. *)
Definition group0 (t : jstr) (m : option (nat * mstate)) : option jstr :=
  match m with
  | Some (i, s) => Some (slice t i (pos s))
  | None => None
  end.

Definition group (n : nat) (t : jstr) (m : option (nat * mstate)) : option jstr :=
  match m with
  | Some (_, s) => match cap n s with Some (a, b) => Some (slice t a b) | None => None end
  | None => None
  end.

(** *** Building blocks for the literals of server.js *)

Definition REmpty : re := RRep (fun _ => false) 0 (Some 0).

Fixpoint rseq (l : list re) : re :=
  match l with
  | [] => REmpty
  | [r] => r
  | r :: l' => RSeq r (rseq l')
  end.

Definition lit (s : string) : re := rseq (map RChar (list_ascii_of_string s)).

Definition in_range (lo hi : nat) (c : ascii) : bool := (lo <=? code c) && (code c <=? hi).

(** [[A-HJ-NPR-Z0-9]] *)
Definition vin_cls (c : ascii) : bool :=
  in_range 65 72 c || in_range 74 78 c || in_range 80 80 c || in_range 82 90 c
  || in_range 48 57 c.

(** [[:\s]] *)
Definition colon_ws (c : ascii) : bool := Ascii.eqb c ":"%char || is_ws c.

(** [[^\n]] *)
Definition not_nl (c : ascii) : bool := negb (is_nl c).

(** [[.,]], [[./-]], [[A-Z]], [[A-Z0-9\-\/]], [[0-9.,]] *)
Definition dot_comma (c : ascii) : bool := Ascii.eqb c "."%char || Ascii.eqb c ","%char.
Definition date_sep (c : ascii) : bool :=
  Ascii.eqb c "."%char || Ascii.eqb c "/"%char || Ascii.eqb c "-"%char.
Definition upper_az (c : ascii) : bool := in_range 65 90 c.
Definition inv_cls (c : ascii) : bool :=
  in_range 65 90 c || in_range 48 57 c || Ascii.eqb c "-"%char || Ascii.eqb c "/"%char.
Definition num_cls (c : ascii) : bool := is_digit c || dot_comma c.

Definition star (p : ascii -> bool) : re := RRep p 0 None.
Definition plus (p : ascii -> bool) : re := RRep p 1 None.

(** [[0-9]+(?:[.,][0-9]+)?] *)
Definition number : re := rseq [plus is_digit; ROpt (rseq [RClass dot_comma; plus is_digit])].

(** [[0-9]{1,2}[./-][0-9]{1,2}[./-][0-9]{2,4}] *)
Definition date : re :=
  rseq [RRep is_digit 1 (Some 2); RClass date_sep; RRep is_digit 1 (Some 2);
       RClass date_sep; RRep is_digit 2 (Some 4)].

(** [([^\n]{m,n})] *)
Definition line (m n : nat) : re := RGroup 1 (RRep not_nl m (Some n)).

Definition ci (r : re) : regex := {| body := r; icase := true |}.

(** *** The patterns of [extractFromVisionText] (server.js, lines 81-154) *)

(** [/\bVIN[:\s]*([A-HJ-NPR-Z0-9]{17})\b/i] *)
Definition re_vin_label : regex :=
  ci (rseq [RBound; lit "VIN"; star colon_ws; RGroup 1 (RRep vin_cls 17 (Some 17)); RBound]).
(** [/\b([A-HJ-NPR-Z0-9]{17})\b/] *)
Definition re_vin_bare : regex :=
  {| body := rseq [RBound; RGroup 1 (RRep vin_cls 17 (Some 17)); RBound]; icase := false |}.

(** [/\bGross\s*weight[:\s]*([0-9]+(?:[.,][0-9]+)?)\s*(kg)?\b/i] *)
Definition re_gross1 : regex :=
  ci (rseq [RBound; lit "Gross"; star is_ws; lit "weight"; star colon_ws; RGroup 1 number;
           star is_ws; ROpt (RGroup 2 (lit "kg")); RBound]).
(** [/\bBrut(?:to)?[:\s]*([0-9]+(?:[.,][0-9]+)?)\b/i] *)
Definition re_gross2 : regex :=
  ci (rseq [RBound; lit "Brut"; ROpt (lit "to"); star colon_ws; RGroup 1 number; RBound]).

(** [/\bInvoice\s*(No|#|Number)[:\s]*([A-Z0-9\-\/]+)\b/i] *)
Definition re_invoice_no : regex :=
  ci (rseq [RBound; lit "Invoice"; star is_ws;
           RGroup 1 (RAlt (lit "No") (RAlt (lit "#") (lit "Number")));
           star colon_ws; RGroup 2 (plus inv_cls); RBound]).
(** [/\bInvoice\s*(?:No|#|Number)[:\s]*([A-Z0-9\-\/]+)\b/i] *)
Definition re_invoice_no_fixed : regex :=
  ci (rseq [RBound; lit "Invoice"; star is_ws;
           RAlt (lit "No") (RAlt (lit "#") (lit "Number"));
           star colon_ws; RGroup 1 (plus inv_cls); RBound]).

(** [/\bInvoice\s*Date[:\s]*(date)\b/i] and [/\bDate[:\s]*(date)\b/i] *)
Definition re_invoice_date : regex :=
  ci (rseq [RBound; lit "Invoice"; star is_ws; lit "Date"; star colon_ws; RGroup 1 date; RBound]).
Definition re_date : regex :=
  ci (rseq [RBound; lit "Date"; star colon_ws; RGroup 1 date; RBound]).

(** [/\bTotal(?:\s*Amount)?[:\s]*(number)\s*([A-Z]{3})?\b/i] *)
Definition re_total1 : regex :=
  ci (rseq [RBound; lit "Total"; ROpt (rseq [star is_ws; lit "Amount"]); star colon_ws;
           RGroup 1 number; star is_ws; ROpt (RGroup 2 (RRep upper_az 3 (Some 3))); RBound]).
(** [/\bGrand\s*Total[:\s]*(number)\s*([A-Z]{3})?\b/i] *)
Definition re_total2 : regex :=
  ci (rseq [RBound; lit "Grand"; star is_ws; lit "Total"; star colon_ws;
           RGroup 1 number; star is_ws; ROpt (RGroup 2 (RRep upper_az 3 (Some 3))); RBound]).

(** [/\bLABEL[:\s]*([^\n]{m,n})/i] *)
Definition labelled (label : string) (m n : nat) : regex :=
  ci (rseq [RBound; lit label; star colon_ws; line m n]).

Definition re_exporter := labelled "Exporter" 3 80.
Definition re_sender := labelled "Sender" 3 80.
Definition re_consignor := labelled "Consignor" 3 80.
Definition re_importer := labelled "Importer" 3 80.
Definition re_receiver := labelled "Receiver" 3 80.
Definition re_consignee := labelled "Consignee" 3 80.

(** [/\bGoods(?:\s*description)?[:\s]*([^\n]{3,120})/i] *)
Definition re_goods : regex :=
  ci (rseq [RBound; lit "Goods"; ROpt (rseq [star is_ws; lit "description"]); star colon_ws;
           line 3 120]).
Definition re_description := labelled "Description" 3 120.

(** [/\bCMR\s*Date[:\s]*(date)\b/i] *)
Definition re_cmr_date : regex :=
  ci (rseq [RBound; lit "CMR"; star is_ws; lit "Date"; star colon_ws; RGroup 1 date; RBound]).

(** [/\bPlace\s*of\s*taking\s*over[:\s]*([^\n]{2,80})/i] *)
Definition re_taking_over : regex :=
  ci (rseq [RBound; lit "Place"; star is_ws; lit "of"; star is_ws; lit "taking"; star is_ws;
           lit "over"; star colon_ws; line 2 80]).
(** [/\bLoading\s*place[:\s]*([^\n]{2,80})/i] *)
Definition re_loading_place : regex :=
  ci (rseq [RBound; lit "Loading"; star is_ws; lit "place"; star colon_ws; line 2 80]).
(** [/\bPlace\s*designated\s*for\s*delivery[:\s]*([^\n]{2,80})/i] *)
Definition re_designated : regex :=
  ci (rseq [RBound; lit "Place"; star is_ws; lit "designated"; star is_ws; lit "for";
           star is_ws; lit "delivery"; star colon_ws; line 2 80]).
(** [/\bDelivery\s*place[:\s]*([^\n]{2,80})/i] *)
Definition re_delivery_place : regex :=
  ci (rseq [RBound; lit "Delivery"; star is_ws; lit "place"; star colon_ws; line 2 80]).

Definition vin_patterns := [re_vin_label; re_vin_bare].
Definition gross_patterns := [re_gross1; re_gross2].
Definition invoice_no_patterns := [re_invoice_no].
Definition invoice_date_patterns := [re_invoice_date; re_date].
Definition total_patterns := [re_total1; re_total2].
Definition exporter_patterns := [re_exporter; re_sender; re_consignor].
Definition importer_patterns := [re_importer; re_receiver; re_consignee].
Definition goods_patterns := [re_goods; re_description].
Definition cmr_date_patterns := [re_cmr_date; re_date].
Definition loading_patterns := [re_taking_over; re_loading_place].
Definition delivery_patterns := [re_designated; re_delivery_place].

(** ** The helpers of server.js *)

(** [x || null] for a string-or-null [x]: the empty string is falsy. *)
Definition or_null (o : option jstr) : option jstr :=
  match o with
  | Some [] => None
  | _ => o
  end.

(** [matchOne] (lines 59-66): [if (m && m[1]) return m[1].trim();] *)
Fixpoint match_patterns (t : jstr) (ps : list regex) : option jstr :=
  match ps with
  | [] => None
  | re :: ps' =>
      match group 1 t (exec re t) with
      | Some ((_ :: _) as g) => Some (trim g)
      | _ => match_patterns t ps'
      end
  end.

Definition matchOne (t : jstr) (ps : list regex) : option jstr :=
  match t with
  | [] => None
  | _ => match_patterns t ps
  end.

(** [pickFirst(a, b)] (lines 52-57) on two string-or-null values. *)
Definition keep (v : option jstr) : bool :=
  match v with
  | Some s => negb (jstr_eqb (trim s) [])
  | None => false
  end.

Definition pickFirst (a b : option jstr) : option jstr :=
  if keep a then a else if keep b then b else None.

(** ** JSON-like values *)

(** The values the routes exchange: [undefined], [null], booleans, numbers
    (integral in this model), strings, arrays and objects (property lists
    with distinct keys, in insertion order). *)
Inductive jval :=
| JUndefined
| JNull
| JBool (b : bool)
| JNum (z : Z)
| JStr (s : jstr)
| JArr (l : list jval)
| JObj (l : list (jstr * jval)).

(** Property access [o[k]]; anything but an object yields [undefined]. *)
Definition get (o : jval) (k : jstr) : jval :=
  match o with
  | JObj l =>
      match find (fun kv => jstr_eqb (fst kv) k) l with
      | Some (_, v) => v
      | None => JUndefined
      end
  | _ => JUndefined
  end.

Definition get_path (o : jval) (ks : list string) : jval :=
  fold_left (fun v k => get v (str k)) ks o.

Definition opt_j (o : option jstr) : jval :=
  match o with
  | Some s => JStr s
  | None => JNull
  end.

Definition prop (k : string) (v : jval) : jstr * jval := (str k, v).

(** ** [extractFromVisionText] (server.js, lines 77-177) *)

(** The constants computed from the normalised text. *)
Record fields := {
  f_vin : option jstr;
  f_gross : option jstr;
  f_invoiceNo : option jstr;
  f_invoiceNoFixed : option jstr;
  f_invoiceDate : option jstr;
  f_total : option jstr;
  f_exporterName : option jstr;
  f_importerName : option jstr;
  f_goodsName : option jstr;
  f_cmrDate : option jstr;
  f_loadingPlace : option jstr;
  f_deliveryPlace : option jstr
}.

Definition extract_fields (text : jstr) : fields := {|
  f_vin := or_null (matchOne text vin_patterns);
  f_gross := or_null (matchOne text gross_patterns);
  f_invoiceNo := or_null (matchOne text invoice_no_patterns);
  (* m?.[1]?.trim() || null *)
  f_invoiceNoFixed := or_null (option_map trim (group 1 text (exec re_invoice_no_fixed text)));
  f_invoiceDate := or_null (matchOne text invoice_date_patterns);
  f_total := or_null (matchOne text total_patterns);
  f_exporterName := or_null (matchOne text exporter_patterns);
  f_importerName := or_null (matchOne text importer_patterns);
  f_goodsName := or_null (matchOne text goods_patterns);
  f_cmrDate := or_null (matchOne text cmr_date_patterns);
  f_loadingPlace := or_null (matchOne text loading_patterns);
  f_deliveryPlace := or_null (matchOne text delivery_patterns)
|}.

(** The returned object literal (lines 156-176). *)
Definition candidate (f : fields) : jval :=
  JObj [
    prop "cmr" (JObj [
      prop "exporter" (JObj [prop "name" (opt_j (or_null (f_exporterName f)));
                             prop "address" JNull]);
      prop "importer" (JObj [prop "name" (opt_j (or_null (f_importerName f)));
                             prop "id" JNull]);
      prop "goods_name" (opt_j (or_null (f_goodsName f)));
      prop "vin" (opt_j (f_vin f));
      prop "gross_weight_kg" (opt_j (f_gross f));
      prop "loading_place" (opt_j (f_loadingPlace f));
      prop "delivery_place" (opt_j (f_deliveryPlace f));
      prop "date" (opt_j (f_cmrDate f))]);
    prop "invoice" (JObj [
      prop "exporter" (JObj [prop "name" (opt_j (or_null (f_exporterName f)))]);
      prop "importer" (JObj [prop "name" (opt_j (or_null (f_importerName f)));
                             prop "id" JNull]);
      prop "goods_name" (opt_j (or_null (f_goodsName f)));
      prop "vin" (opt_j (f_vin f));
      prop "invoice_no" (opt_j (pickFirst (f_invoiceNoFixed f) (f_invoiceNo f)));
      prop "invoice_date" (opt_j (f_invoiceDate f));
      prop "total_amount" (opt_j (f_total f))])].

Definition extractFromVisionText (rawText : jstr) : jval :=
  candidate (extract_fields (normalizeText rawText)).

(** ** [extractSimple] (unnamed/part_001, lines 493-518) *)

(** [/\b[A-HJ-NPR-Z0-9]{17}\b/] *)
Definition re_vin_simple : regex :=
  {| body := rseq [RBound; RRep vin_cls 17 (Some 17); RBound]; icase := false |}.
(** [/\bTotal[:\s]*([0-9.,]+)/i] *)
Definition re_total_simple : regex :=
  ci (rseq [RBound; lit "Total"; star colon_ws; RGroup 1 (plus num_cls)]).

Definition extractSimple (text : jstr) : jval :=
  let vinMatch := exec re_vin_simple text in
  let totalMatch := exec re_total_simple text in
  let vin := or_null (group0 text vinMatch) in
  JObj [
    prop "cmr" (JObj [
      prop "exporter" (JObj [prop "name" JNull; prop "address" JNull]);
      prop "importer" (JObj [prop "name" JNull; prop "id" JNull]);
      prop "goods_name" JNull;
      prop "vin" (opt_j vin);
      prop "gross_weight_kg" JNull;
      prop "loading_place" JNull;
      prop "delivery_place" JNull;
      prop "date" JNull]);
    prop "invoice" (JObj [
      prop "exporter" (JObj [prop "name" JNull]);
      prop "importer" (JObj [prop "name" JNull; prop "id" JNull]);
      prop "goods_name" JNull;
      prop "vin" (opt_j (or_null (group0 text vinMatch)));
      prop "invoice_no" JNull;
      prop "invoice_date" JNull;
      prop "total_amount" (opt_j (or_null (group 1 text totalMatch)))])].

(** ** The upload routes, on a cache miss

    [visionText] is [result?.fullTextAnnotation?.text], [undefined] as
    [None]; [parsed] is the provider's parsed JSON. *)

Definition vision_text (visionText : option jstr) : jstr :=
  match visionText with
  | Some ((_ :: _) as s) => s
  | _ => []
  end.

(** server.js, lines 278-305: [POST /upload/google-vision]. *)
Definition upload_google_vision (visionText : option jstr) : jval :=
  let analysis := extractFromVisionText (vision_text visionText) in
  JObj [prop "analysis" analysis; prop "provider" (JStr (str "google-vision"));
        prop "cached" (JBool false)].

(** server.js, lines 254-275: [POST /upload]. *)
Definition upload_openai (parsed : jval) : jval :=
  JObj [prop "analysis" parsed; prop "provider" (JStr (str "openai"));
        prop "cached" (JBool false)].

(** unnamed/part_001, lines 550-575: [POST /upload/google-vision]. *)
Definition upload_google_vision_simple (visionText : option jstr) : jval :=
  let analysis := extractSimple (vision_text visionText) in
  JObj [prop "analysis" analysis; prop "cached" (JBool false)].

(** ** The Normalizer

    No source under [src/] defines the Normalizer; the definitions of this
    section follow section 4.1 of the specification. *)

(** Modelled from the spec: the coercion of a leaf of the candidate to a
    string ("wrong type ... coerced"): a string is kept, a number or a
    boolean is printed, anything else (null, undefined, objects, arrays)
    becomes the empty string. *)
Definition to_text (v : jval) : jstr :=
  match v with
  | JStr s => s
  | JNum z => str (NilEmpty.string_of_int (Z.to_int z))
  | JBool true => str "true"
  | JBool false => str "false"
  | _ => []
  end.

(** Modelled from the spec: "if absent or not an object, replace with {}". *)
Definition as_obj (v : jval) : jval :=
  match v with
  | JObj _ => v
  | _ => JObj []
  end.

(** Modelled from the spec: "convert to uppercase", as [toUpperCase] on
    0..255: ASCII and Latin-1 small letters, and the sharp s to "SS".
    The images of U+00B5 and U+00FF lie outside 0..255; they are kept,
    which changes nothing below: neither is a VIN character nor a digit,
    before or after upper-casing. *)
Definition upper_char (c : ascii) : jstr :=
  let n := code c in
  if (97 <=? n) && (n <=? 122) then [ascii_of_nat (n - 32)]
  else if (224 <=? n) && (n <=? 254) && negb (n =? 247) then [ascii_of_nat (n - 32)]
  else if n =? 223 then ["S"%char; "S"%char]
  else [c].

Definition upper (l : jstr) : jstr := flat_map upper_char l.

(** Modelled from the spec: the VIN pattern, "exactly 17 characters from
    the alphabet A-H, J-N, P, R-Z, and digits 0-9". *)
Definition vin_ok (s : jstr) : bool := (length s =? 17) && forallb vin_cls s.

(** Modelled from the spec: "replace comma decimal separator with a period". *)
Definition comma_to_dot (l : jstr) : jstr :=
  map (fun c => if Ascii.eqb c ","%char then "."%char else c) l.

(** The longest prefix of digits, and the rest. *)
Fixpoint span_digits (l : jstr) : jstr * jstr :=
  match l with
  | c :: r => if is_digit c then let (d, rest) := span_digits r in (c :: d, rest) else ([], l)
  | [] => ([], [])
  end.

(** A numeric run starting at a digit: digits, then optionally a period
    followed by digits. *)
Definition take_number (l : jstr) : jstr :=
  let (ds, rest) := span_digits l in
  ds ++ match rest with
        | d :: ((e :: _) as r') =>
            if Ascii.eqb d "."%char && is_digit e then d :: fst (span_digits r') else []
        | _ => []
        end.

(** Modelled from the spec: "extract the first contiguous numeric substring
    (optionally with a decimal point) found anywhere in the string; if none
    found, result is empty string". *)
Fixpoint first_number (l : jstr) : jstr :=
  match l with
  | [] => []
  | c :: r => if is_digit c then take_number l else first_number r
  end.

(** Modelled from the spec: text fields are trimmed. *)
Definition norm_text (v : jval) : jstr := trim (to_text v).

(** Modelled from the spec: VIN fields. *)
Definition norm_vin (v : jval) : jstr :=
  let s := trim (upper (to_text v)) in
  if vin_ok s then s else [].

(** Modelled from the spec: the weight field. *)
Definition norm_weight (v : jval) : jstr :=
  first_number (comma_to_dot (trim (upper (to_text v)))).

(** The DocumentRecord of section 3. *)
Record party := { pname : jstr; paddress : jstr }.
Record importer_party := { iname : jstr; iaddress : jstr; iid : jstr }.

Record cmr_record := {
  c_exporter : party; c_importer : importer_party; c_goods_name : jstr; c_vin : jstr;
  c_gross_weight_kg : jstr; c_loading_place : jstr; c_delivery_place : jstr; c_date : jstr
}.

Record invoice_record := {
  v_exporter : party; v_importer : importer_party; v_goods_name : jstr; v_vin : jstr;
  v_invoice_no : jstr; v_invoice_date : jstr; v_total_amount : jstr
}.

Record document := { d_cmr : cmr_record; d_invoice : invoice_record }.

Definition field (o : jval) (k : string) : jval := get o (str k).

Definition norm_party (v : jval) : party :=
  let o := as_obj v in
  {| pname := norm_text (field o "name"); paddress := norm_text (field o "address") |}.

Definition norm_importer (v : jval) : importer_party :=
  let o := as_obj v in
  {| iname := norm_text (field o "name"); iaddress := norm_text (field o "address");
     iid := norm_text (field o "id") |}.

(** Modelled from the spec: [normalize(candidate)] of section 4.1. *)
Definition normalize (candidate : jval) : document :=
  let x := as_obj candidate in
  let c := as_obj (field x "cmr") in
  let i := as_obj (field x "invoice") in
  {| d_cmr := {|
       c_exporter := norm_party (field c "exporter");
       c_importer := norm_importer (field c "importer");
       c_goods_name := norm_text (field c "goods_name");
       c_vin := norm_vin (field c "vin");
       c_gross_weight_kg := norm_weight (field c "gross_weight_kg");
       c_loading_place := norm_text (field c "loading_place");
       c_delivery_place := norm_text (field c "delivery_place");
       c_date := norm_text (field c "date") |};
     d_invoice := {|
       v_exporter := norm_party (field i "exporter");
       v_importer := norm_importer (field i "importer");
       v_goods_name := norm_text (field i "goods_name");
       v_vin := norm_vin (field i "vin");
       v_invoice_no := norm_text (field i "invoice_no");
       v_invoice_date := norm_text (field i "invoice_date");
       v_total_amount := norm_text (field i "total_amount") |} |}.

(** The DocumentRecord as the JSON value handed to the client. *)
Definition party_json (p : party) : jval :=
  JObj [prop "name" (JStr (pname p)); prop "address" (JStr (paddress p))].

Definition importer_json (p : importer_party) : jval :=
  JObj [prop "name" (JStr (iname p)); prop "address" (JStr (iaddress p));
        prop "id" (JStr (iid p))].

Definition document_json (d : document) : jval :=
  let c := d_cmr d in
  let i := d_invoice d in
  JObj [
    prop "cmr" (JObj [
      prop "exporter" (party_json (c_exporter c));
      prop "importer" (importer_json (c_importer c));
      prop "goods_name" (JStr (c_goods_name c));
      prop "vin" (JStr (c_vin c));
      prop "gross_weight_kg" (JStr (c_gross_weight_kg c));
      prop "loading_place" (JStr (c_loading_place c));
      prop "delivery_place" (JStr (c_delivery_place c));
      prop "date" (JStr (c_date c))]);
    prop "invoice" (JObj [
      prop "exporter" (party_json (v_exporter i));
      prop "importer" (importer_json (v_importer i));
      prop "goods_name" (JStr (v_goods_name i));
      prop "vin" (JStr (v_vin i));
      prop "invoice_no" (JStr (v_invoice_no i));
      prop "invoice_date" (JStr (v_invoice_date i));
      prop "total_amount" (JStr (v_total_amount i))])].

(** The schema of section 3: the nested objects and the declared leaves. *)
Definition is_obj (v : jval) : bool := match v with JObj _ => true | _ => false end.
Definition is_str (v : jval) : bool := match v with JStr _ => true | _ => false end.

Local Open Scope string_scope.

Definition object_paths : list (list string) :=
  [["cmr"]; ["cmr"; "exporter"]; ["cmr"; "importer"];
   ["invoice"]; ["invoice"; "exporter"]; ["invoice"; "importer"]].

Definition leaf_paths : list (list string) :=
  [["cmr"; "exporter"; "name"]; ["cmr"; "exporter"; "address"];
   ["cmr"; "importer"; "name"]; ["cmr"; "importer"; "address"]; ["cmr"; "importer"; "id"];
   ["cmr"; "goods_name"]; ["cmr"; "vin"]; ["cmr"; "gross_weight_kg"];
   ["cmr"; "loading_place"]; ["cmr"; "delivery_place"]; ["cmr"; "date"];
   ["invoice"; "exporter"; "name"]; ["invoice"; "exporter"; "address"];
   ["invoice"; "importer"; "name"]; ["invoice"; "importer"; "address"];
   ["invoice"; "importer"; "id"]; ["invoice"; "goods_name"]; ["invoice"; "vin"];
   ["invoice"; "invoice_no"]; ["invoice"; "invoice_date"]; ["invoice"; "total_amount"]].

Definition conforms (v : jval) : bool :=
  forallb (fun p => is_obj (get_path v p)) object_paths
  && forallb (fun p => is_str (get_path v p)) leaf_paths.

Local Close Scope string_scope.

(** ** Properties of the matcher *)

Fixpoint minlen (r : re) : nat :=
  match r with
  | RChar _ | RClass _ => 1
  | RRep _ mn _ => mn
  | RBound => 0
  | RSeq r1 r2 => minlen r1 + minlen r2
  | RAlt r1 r2 => Nat.min (minlen r1) (minlen r2)
  | ROpt _ => 0
  | RGroup _ r1 => minlen r1
  end.

(** Groups that every successful match sets. *)
Fixpoint sets (n : nat) (r : re) : bool :=
  match r with
  | RGroup m r1 => Nat.eqb m n || sets n r1
  | RSeq r1 r2 => sets n r1 || sets n r2
  | RAlt r1 r2 => sets n r1 && sets n r2
  | _ => false
  end.

(** The expression without its capturing groups. *)
Fixpoint strip (r : re) : re :=
  match r with
  | RGroup _ r1 => strip r1
  | RSeq r1 r2 => RSeq (strip r1) (strip r2)
  | RAlt r1 r2 => RAlt (strip r1) (strip r2)
  | ROpt r1 => ROpt (strip r1)
  | _ => r
  end.

Section Matcher.

Variable ic : bool.
Variable t : jstr.

Definition range_ok (Q : ascii -> Prop) (a b : nat) : Prop :=
  forall i, a <= i < b -> exists c, nth_error t i = Some c /\ Q c.

(** Every character a piece of the expression can consume satisfies [Q]. *)
Fixpoint consumes (Q : ascii -> Prop) (r : re) : Prop :=
  match r with
  | RChar a => forall c, char_match ic a c = true -> Q c
  | RClass p | RRep p _ _ => forall c, cls_match ic p c = true -> Q c
  | RBound => True
  | RSeq r1 r2 | RAlt r1 r2 => consumes Q r1 /\ consumes Q r2
  | ROpt r1 | RGroup _ r1 => consumes Q r1
  end.

(** What a capture of group [n] can be: a span over which the group's body
    matched. *)
Fixpoint gfact (r : re) (n a b : nat) : Prop :=
  match r with
  | RGroup m r1 =>
      (m = n /\ a + minlen r1 <= b /\ forall Q, consumes Q r1 -> range_ok Q a b)
      \/ gfact r1 n a b
  | RSeq r1 r2 | RAlt r1 r2 => gfact r1 n a b \/ gfact r2 n a b
  | ROpt r1 => gfact r1 n a b
  | _ => False
  end.

Lemma cap_set_pos n s i : cap n (set_pos s i) = cap n s.
Proof. reflexivity. Qed.

Lemma cap_set_cap n m v s :
  cap n (set_cap m v s) = if Nat.eqb m n then Some v else cap n s.
Proof. reflexivity. Qed.

Lemma try_counts_inv mn st i s k res :
  try_counts mn st i s k = Some res ->
  exists j, mn <= j <= i /\ k (set_pos s (st + j)) = Some res.
Proof.
  induction i as [|i IH]; simpl; intros H.
  - destruct (0 <? mn) eqn:E; [discriminate|].
    apply Nat.ltb_ge in E.
    destruct (k (set_pos s (st + 0))) eqn:K; [|discriminate].
    exists 0; split; [lia|congruence].
  - destruct (S i <? mn) eqn:E; [discriminate|].
    apply Nat.ltb_ge in E.
    destruct (k (set_pos s (st + S i))) eqn:K.
    + exists (S i); split; [lia|congruence].
    + destruct (IH H) as (j & Hj & Hk). exists j; split; [lia|exact Hk].
Qed.

Lemma run_len_spec p l mx j :
  j < run_len ic p l mx ->
  exists c, nth_error l j = Some c /\ cls_match ic p c = true.
Proof.
  revert j mx; induction l as [|c l IH]; intros j mx H.
  - destruct mx as [[|m]|]; simpl in H; lia.
  - assert (Hs : run_len ic p (c :: l) mx = 0 \/
                 (cls_match ic p c = true /\
                  run_len ic p (c :: l) mx = S (run_len ic p l (option_map pred mx)))).
    { destruct mx as [[|m]|]; simpl; auto;
        destruct (cls_match ic p c); auto. }
    destruct Hs as [Hs|[Hc Hs]]; [lia|].
    rewrite Hs in H.
    destruct j as [|j]; simpl.
    + exists c; auto.
    + apply (IH j (option_map pred mx)); lia.
Qed.

Lemma range_ok_app Q a b c :
  range_ok Q a b -> range_ok Q b c -> range_ok Q a c.
Proof.
  intros H1 H2 i Hi.
  destruct (Nat.lt_ge_cases i b); [apply H1|apply H2]; lia.
Qed.

Lemma range_ok_empty Q a b : b <= a -> range_ok Q a b.
Proof. intros H i Hi; lia. Qed.

Lemma range_ok_weaken Q a b c d :
  range_ok Q a b -> a <= c -> d <= b -> range_ok Q c d.
Proof. intros H H1 H2 i Hi; apply H; lia. Qed.

(** The invariant of a successful run of the matcher: the continuation was
    reached at a later position, past characters the expression accepts,
    and the captures only grew, by spans of the expression's groups. *)
Lemma mt_inv r : forall s k res,
  mt ic t r s k = Some res ->
  exists s', k s' = Some res
    /\ pos s + minlen r <= pos s'
    /\ (forall Q, consumes Q r -> range_ok Q (pos s) (pos s'))
    /\ (forall n a b, cap n s' = Some (a, b) -> cap n s = Some (a, b) \/ gfact r n a b)
    /\ (forall n, cap n s <> None -> cap n s' <> None)
    /\ (forall n, sets n r = true -> cap n s' <> None).
Proof.
  induction r as [a|p|p mn mx| |r1 IH1 r2 IH2|r1 IH1 r2 IH2|r1 IH1|m r1 IH1];
    intros s k res H; simpl in H.
  - (* RChar *)
    destruct (nth_error t (pos s)) as [c|] eqn:Ht; [|discriminate].
    destruct (char_match ic a c) eqn:Hc; [|discriminate].
    exists (set_pos s (S (pos s))).
    split; [exact H|]. split; [simpl; lia|]. split.
    { intros Q HQ i Hi. simpl in Hi. assert (i = pos s) by lia; subst.
      exists c; split; auto. }
    split; [intros n a' b Hc'; left; exact Hc'|].
    split; [intros n Hn; exact Hn|].
    intros n Hs; discriminate.
  - (* RClass *)
    destruct (nth_error t (pos s)) as [c|] eqn:Ht; [|discriminate].
    destruct (cls_match ic p c) eqn:Hc; [|discriminate].
    exists (set_pos s (S (pos s))).
    split; [exact H|]. split; [simpl; lia|]. split.
    { intros Q HQ i Hi. simpl in Hi. assert (i = pos s) by lia; subst.
      exists c; split; auto. }
    split; [intros n a b Hc'; left; exact Hc'|].
    split; [intros n Hn; exact Hn|].
    intros n Hs; discriminate.
  - (* RRep *)
    apply try_counts_inv in H as (j & Hj & Hk).
    exists (set_pos s (pos s + j)).
    split; [exact Hk|]. split; [simpl; lia|]. split.
    { intros Q HQ i Hi. simpl in Hi.
      destruct (run_len_spec p (skipn (pos s) t) mx (i - pos s)) as (c & Hc1 & Hc2); [lia|].
      rewrite nth_error_skipn in Hc1.
      replace (pos s + (i - pos s)) with i in Hc1 by lia.
      exists c; split; auto. }
    split; [intros n a b Hc'; left; exact Hc'|].
    split; [intros n Hn; exact Hn|].
    intros n Hs; discriminate.
  - (* RBound *)
    destruct (at_boundary t (pos s)); [|discriminate].
    exists s.
    split; [exact H|]. split; [simpl; lia|]. split.
    { intros Q _; apply range_ok_empty; lia. }
    split; [intros n a b Hc'; left; exact Hc'|].
    split; [intros n Hn; exact Hn|].
    intros n Hs; discriminate.
  - (* RSeq *)
    destruct (IH1 _ _ _ H) as (s1 & H1 & P1 & R1 & C1 & M1 & S1).
    destruct (IH2 _ _ _ H1) as (s2 & H2 & P2 & R2 & C2 & M2 & S2).
    exists s2.
    split; [exact H2|]. split; [simpl; lia|]. split.
    { intros Q [HQ1 HQ2]. apply range_ok_app with (pos s1); auto. }
    split.
    { intros n a b Hc. destruct (C2 _ _ _ Hc) as [Hc'|Hg]; [|simpl; auto].
      destruct (C1 _ _ _ Hc'); simpl; auto. }
    split; [intros n Hn; auto|].
    intros n Hs. simpl in Hs. destruct (sets n r1) eqn:E1; simpl in Hs.
    + apply M2, S1, E1.
    + apply S2, Hs.
  - (* RAlt *)
    destruct (mt ic t r1 s k) as [x|] eqn:E1.
    + injection H as <-.
      destruct (IH1 _ _ _ E1) as (s1 & H1 & P1 & R1 & C1 & M1 & S1).
      exists s1.
      split; [exact H1|]. split; [simpl; lia|]. split.
      { intros Q [HQ1 _]; auto. }
      split; [intros n a b Hc; destruct (C1 _ _ _ Hc); simpl; auto|].
      split; [intros n Hn; auto|].
      intros n Hs; simpl in Hs; apply andb_true_iff in Hs as [Hs _]; auto.
    + destruct (IH2 _ _ _ H) as (s1 & H1 & P1 & R1 & C1 & M1 & S1).
      exists s1.
      split; [exact H1|]. split; [simpl; lia|]. split.
      { intros Q [_ HQ2]; auto. }
      split; [intros n a b Hc; destruct (C1 _ _ _ Hc); simpl; auto|].
      split; [intros n Hn; auto|].
      intros n Hs; simpl in Hs; apply andb_true_iff in Hs as [_ Hs]; auto.
  - (* ROpt *)
    destruct (mt ic t r1 s k) as [x|] eqn:E1.
    + injection H as <-.
      destruct (IH1 _ _ _ E1) as (s1 & H1 & P1 & R1 & C1 & M1 & S1).
      exists s1.
      split; [exact H1|]. split; [simpl; lia|]. split.
      { intros Q HQ; auto. }
      split; [intros n a b Hc; destruct (C1 _ _ _ Hc); simpl; auto|].
      split; [intros n Hn; auto|].
      intros n Hs; discriminate.
    + exists s.
      split; [exact H|]. split; [simpl; lia|]. split.
      { intros Q _; apply range_ok_empty; lia. }
      split; [intros n a b Hc'; left; exact Hc'|].
      split; [intros n Hn; exact Hn|].
      intros n Hs; discriminate.
  - (* RGroup *)
    destruct (IH1 _ _ _ H) as (s1 & H1 & P1 & R1 & C1 & M1 & S1).
    exists (set_cap m (pos s, pos s1) s1).
    split; [exact H1|]. split; [simpl; lia|]. split.
    { intros Q HQ; auto. }
    split.
    { intros n a b Hc. rewrite cap_set_cap in Hc.
      destruct (Nat.eqb_spec m n) as [<-|Hmn].
      - injection Hc as <- <-. right; left; auto.
      - destruct (C1 _ _ _ Hc); simpl; auto. }
    split.
    { intros n Hn. rewrite cap_set_cap.
      destruct (Nat.eqb m n); [discriminate|auto]. }
    intros n Hs. rewrite cap_set_cap.
    destruct (Nat.eqb_spec m n); [discriminate|].
    simpl in Hs. apply Nat.eqb_neq in n0. rewrite n0 in Hs. apply S1, Hs.
Qed.

End Matcher.

Lemma exec_from_inv ic r t f : forall i j s,
  exec_from ic r t i f = Some (j, s) ->
  mt ic t r {| pos := j; caps := [] |} Some = Some s.
Proof.
  induction f as [|f IH]; intros i j s H; simpl in H; [discriminate|].
  destruct (mt ic t r {| pos := i; caps := [] |} Some) eqn:E.
  - injection H as <- <-; exact E.
  - eapply IH; exact H.
Qed.

Lemma exec_inv rx t j s :
  exec rx t = Some (j, s) ->
  (forall n a b, cap n s = Some (a, b) -> gfact (icase rx) t (body rx) n a b)
  /\ (forall n, sets n (body rx) = true -> cap n s <> None).
Proof.
  intros H. apply exec_from_inv in H.
  destruct (mt_inv _ _ _ _ _ _ H) as (s' & H1 & _ & _ & C & _ & S).
  injection H1 as ->. split.
  - intros n a b Hc. destruct (C _ _ _ Hc) as [Hn|Hg]; [discriminate|exact Hg].
  - exact S.
Qed.

Lemma group_inv rx t n g :
  group n t (exec rx t) = Some g ->
  exists a b, g = slice t a b /\ gfact (icase rx) t (body rx) n a b.
Proof.
  unfold group. destruct (exec rx t) as [[j s]|] eqn:E; [|discriminate].
  destruct (cap n s) as [[a b]|] eqn:C; [|discriminate].
  intros H; injection H as <-. exists a, b; split; [reflexivity|].
  apply (proj1 (exec_inv _ _ _ _ E)); exact C.
Qed.

Lemma group_defined rx t n j s :
  exec rx t = Some (j, s) -> sets n (body rx) = true ->
  exists g, group n t (exec rx t) = Some g.
Proof.
  intros E Hs. unfold group. rewrite E.
  destruct (cap n s) as [[a b]|] eqn:C.
  - eauto.
  - exfalso. exact (proj2 (exec_inv _ _ _ _ E) n Hs C).
Qed.

Lemma slice_nth t a b i :
  i < b - a -> nth_error (slice t a b) i = nth_error t (a + i).
Proof.
  intros Hi. unfold slice. rewrite nth_error_firstn.
  destruct (Nat.ltb_spec i (b - a)); [|lia].
  apply nth_error_skipn.
Qed.

Lemma slice_range Q t a b :
  range_ok t Q a b -> length (slice t a b) = b - a /\ Forall Q (slice t a b).
Proof.
  intros R.
  assert (Hlen : length (slice t a b) = b - a).
  { unfold slice. rewrite length_firstn, length_skipn.
    destruct (Nat.lt_ge_cases a b) as [Hab|Hab]; [|lia].
    destruct (R (b - 1)) as (c & Hc & _); [lia|].
    assert (Hlt : b - 1 < length t) by (apply nth_error_Some; rewrite Hc; discriminate).
    lia. }
  split; [exact Hlen|].
  apply Forall_forall. intros x Hx.
  apply In_nth_error in Hx as (i & Hi).
  assert (Hib : i < b - a).
  { rewrite <- Hlen. apply nth_error_Some. rewrite Hi; discriminate. }
  rewrite slice_nth in Hi by exact Hib.
  destruct (R (a + i)) as (c & Hc & HQ); [lia|].
  congruence.
Qed.

(** Every character satisfies a boolean test, checked on the 256 codes. *)
Definition all_ascii (f : ascii -> bool) : bool :=
  forallb (fun n => f (ascii_of_nat n)) (List.seq 0 256).

Lemma all_ascii_spec f : all_ascii f = true -> forall c, f c = true.
Proof.
  intros H c. unfold all_ascii in H. rewrite forallb_forall in H.
  rewrite <- (ascii_nat_embedding c). apply H.
  apply in_seq. pose proof (nat_ascii_bounded c). lia.
Qed.

Fixpoint consumes_b (ic : bool) (q : ascii -> bool) (r : re) : bool :=
  match r with
  | RChar a => all_ascii (fun c => negb (char_match ic a c) || q c)
  | RClass p | RRep p _ _ => all_ascii (fun c => negb (cls_match ic p c) || q c)
  | RBound => true
  | RSeq r1 r2 | RAlt r1 r2 => consumes_b ic q r1 && consumes_b ic q r2
  | ROpt r1 | RGroup _ r1 => consumes_b ic q r1
  end.

(** The bodies of the groups numbered [n]: each consumes at least one
    character, and only characters accepted by [q]. *)
Fixpoint group_bodies (ic : bool) (q : ascii -> bool) (n : nat) (r : re) : bool :=
  match r with
  | RGroup m r1 =>
      (negb (Nat.eqb m n) || (1 <=? minlen r1) && consumes_b ic q r1)
      && group_bodies ic q n r1
  | RSeq r1 r2 | RAlt r1 r2 => group_bodies ic q n r1 && group_bodies ic q n r2
  | ROpt r1 => group_bodies ic q n r1
  | _ => true
  end.

Lemma consumes_b_sound ic q r :
  consumes_b ic q r = true -> consumes ic (fun c => q c = true) r.
Proof.
  induction r; simpl; intros H;
    try (apply andb_true_iff in H as [H1 H2]; split; auto);
    auto;
    intros c Hc; pose proof (all_ascii_spec _ H c) as Hq;
    cbv beta in Hq; rewrite Hc in Hq; exact Hq.
Qed.

Lemma gfact_bodies ic q t n r a b :
  group_bodies ic q n r = true -> gfact ic t r n a b ->
  a < b /\ range_ok t (fun c => q c = true) a b.
Proof.
  induction r as [| | | |r1 IH1 r2 IH2|r1 IH1 r2 IH2|r1 IH1|m r1 IH1];
    simpl; intros Hb Hg; try contradiction.
  - apply andb_true_iff in Hb as [Hb1 Hb2]. destruct Hg; auto.
  - apply andb_true_iff in Hb as [Hb1 Hb2]. destruct Hg; auto.
  - auto.
  - apply andb_true_iff in Hb as [Hb1 Hb2].
    destruct Hg as [(<- & Hm & HR)|Hg]; [|auto].
    rewrite Nat.eqb_refl in Hb1. simpl in Hb1.
    apply andb_true_iff in Hb1 as [Hm1 Hc].
    assert (1 <= minlen r1) by (destruct (minlen r1); [discriminate|lia]).
    split; [lia|].
    apply HR, consumes_b_sound, Hc.
Qed.

(** A group whose bodies pass [group_bodies] captures a non-empty string of
    characters accepted by [q]. *)
Lemma group_content rx q t n g :
  group_bodies (icase rx) q n (body rx) = true ->
  group n t (exec rx t) = Some g ->
  g <> [] /\ Forall (fun c => q c = true) g.
Proof.
  intros Hb Hg. apply group_inv in Hg as (a & b & -> & Hf).
  destruct (gfact_bodies _ _ _ _ _ _ _ Hb Hf) as [Hab HR].
  destruct (slice_range _ _ _ _ HR) as [Hl HF].
  split; [|exact HF].
  intros E. rewrite E in Hl. simpl in Hl. lia.
Qed.

(** Capturing groups do not change whether, and where, a match succeeds. *)
Definition same_outcome (k1 k2 : mstate -> option mstate) : Prop :=
  forall u1 u2, pos u1 = pos u2 -> (k1 u1 = None <-> k2 u2 = None).

Lemma try_counts_strip mn st i s1 s2 k1 k2 :
  same_outcome k1 k2 ->
  (try_counts mn st i s1 k1 = None <-> try_counts mn st i s2 k2 = None).
Proof.
  intros Hk. induction i as [|i IH]; simpl.
  - destruct (0 <? mn); [tauto|].
    specialize (Hk (set_pos s1 (st + 0)) (set_pos s2 (st + 0)) eq_refl).
    destruct (k1 _), (k2 _); intuition discriminate.
  - destruct (S i <? mn); [tauto|].
    specialize (Hk (set_pos s1 (st + S i)) (set_pos s2 (st + S i)) eq_refl).
    destruct (k1 _), (k2 _); intuition discriminate.
Qed.

Lemma mt_strip ic t r : forall s1 s2 k1 k2,
  pos s1 = pos s2 -> same_outcome k1 k2 ->
  (mt ic t r s1 k1 = None <-> mt ic t (strip r) s2 k2 = None).
Proof.
  induction r as [a|p|p mn mx| |r1 IH1 r2 IH2|r1 IH1 r2 IH2|r1 IH1|m r1 IH1];
    intros s1 s2 k1 k2 Hp Hk; simpl; rewrite ?Hp.
  - destruct (nth_error t (pos s2)); [|tauto].
    destruct (char_match ic a a0); [|tauto].
    apply Hk. simpl. congruence.
  - destruct (nth_error t (pos s2)); [|tauto].
    destruct (cls_match ic p a); [|tauto].
    apply Hk. simpl. congruence.
  - apply try_counts_strip, Hk.
  - destruct (at_boundary t (pos s2)); [|tauto]. apply Hk, Hp.
  - apply IH1; [exact Hp|]. intros u1 u2 Hu. apply IH2; assumption.
  - specialize (IH1 s1 s2 k1 k2 Hp Hk). specialize (IH2 s1 s2 k1 k2 Hp Hk).
    destruct (mt ic t r1 s1 k1), (mt ic t (strip r1) s2 k2);
      intuition discriminate.
  - specialize (IH1 s1 s2 k1 k2 Hp Hk). specialize (Hk s1 s2 Hp).
    destruct (mt ic t r1 s1 k1), (mt ic t (strip r1) s2 k2);
      intuition discriminate.
  - apply IH1; [exact Hp|]. intros u1 u2 Hu. apply Hk. exact Hu.
Qed.

Lemma exec_strip rx1 rx2 t :
  icase rx1 = icase rx2 -> strip (body rx1) = strip (body rx2) ->
  (exec rx1 t = None <-> exec rx2 t = None).
Proof.
  intros Hi Hs. unfold exec. rewrite <- Hi.
  generalize 0 as i. generalize (S (length t)) as f.
  induction f as [|f IH]; intros i; simpl; [tauto|].
  assert (Ho : same_outcome Some Some) by (intros u1 u2 _; split; discriminate).
  set (s0 := {| pos := i; caps := [] |}).
  pose proof (mt_strip (icase rx1) t (body rx1) s0 s0 _ _ eq_refl Ho) as H1.
  pose proof (mt_strip (icase rx1) t (body rx2) s0 s0 _ _ eq_refl Ho) as H2.
  rewrite Hs in H1.
  destruct (mt _ t (body rx1) s0 Some), (mt _ t (body rx2) s0 Some);
    try (split; discriminate); try (apply IH);
    exfalso; intuition discriminate.
Qed.

(** ** Properties of [trim] *)

Lemma ltrim_nonws c r : is_ws c = false -> ltrim (c :: r) = c :: r.
Proof. simpl; intros ->; reflexivity. Qed.

Lemma rtrim_nonws c r : is_ws c = false -> rtrim (c :: r) = c :: rtrim r.
Proof. simpl; intros H. destruct (rtrim r); [rewrite H|]; reflexivity. Qed.

Lemma ltrim_head l : ltrim l = [] \/ exists c r, ltrim l = c :: r /\ is_ws c = false.
Proof.
  induction l as [|c l IH]; simpl; [auto|].
  destruct (is_ws c) eqn:E; [exact IH|right; eauto].
Qed.

Lemma rtrim_cons_ne c l d r : rtrim l = d :: r -> rtrim (c :: l) = c :: d :: r.
Proof. simpl; intros ->; reflexivity. Qed.

Lemma rtrim_idem l : rtrim (rtrim l) = rtrim l.
Proof.
  induction l as [|c l IH]; simpl; [reflexivity|].
  destruct (rtrim l) as [|d r] eqn:E.
  - destruct (is_ws c) eqn:W; simpl; [reflexivity|rewrite W; reflexivity].
  - apply rtrim_cons_ne, IH.
Qed.

Lemma trim_idem l : trim (trim l) = trim l.
Proof.
  unfold trim.
  destruct (ltrim_head l) as [->|(c & r & -> & W)]; [reflexivity|].
  rewrite rtrim_nonws by exact W.
  rewrite ltrim_nonws by exact W.
  rewrite rtrim_nonws by exact W.
  rewrite rtrim_idem. reflexivity.
Qed.

Lemma trim_nows l : Forall (fun c => is_ws c = false) l -> trim l = l.
Proof.
  intros H. unfold trim.
  assert (Hl : ltrim l = l) by (destruct H; [reflexivity|apply ltrim_nonws; assumption]).
  rewrite Hl. clear Hl.
  induction H as [|c l Hc Hl IH]; [reflexivity|].
  rewrite rtrim_nonws by exact Hc. rewrite IH. reflexivity.
Qed.

Lemma ltrim_suffix l : exists pre, l = pre ++ ltrim l.
Proof.
  induction l as [|c l IH]; simpl; [exists []; reflexivity|].
  destruct (is_ws c).
  - destruct IH as [pre Hp]. exists (c :: pre). simpl. congruence.
  - exists []. reflexivity.
Qed.

Lemma rtrim_prefix l : exists suf, l = rtrim l ++ suf.
Proof.
  induction l as [|c l IH]; simpl; [exists []; reflexivity|].
  destruct IH as [suf Hs].
  destruct (rtrim l) as [|d r] eqn:E.
  - destruct (is_ws c).
    + exists (c :: l). reflexivity.
    + exists suf. simpl in *. congruence.
  - exists suf. simpl in *. congruence.
Qed.

Lemma trim_infix l : exists pre suf, l = pre ++ trim l ++ suf.
Proof.
  destruct (ltrim_suffix l) as [pre Hp].
  destruct (rtrim_prefix (ltrim l)) as [suf Hs].
  exists pre, suf. unfold trim. rewrite <- Hs. exact Hp.
Qed.

Lemma rtrim_last l c : hd_error (rev (rtrim l)) = Some c -> is_ws c = false.
Proof.
  induction l as [|d l IH]; simpl; [discriminate|].
  destruct (rtrim l) as [|e r] eqn:E.
  - destruct (is_ws d) eqn:W; simpl; [discriminate|]. intros H; injection H as <-; exact W.
  - simpl. intros H. apply IH. rewrite <- app_assoc in H. simpl in H.
    replace (rev r ++ [e; d]) with ((rev r ++ [e]) ++ [d]) in H
      by (rewrite <- app_assoc; reflexivity).
    change (rev (e :: r)) with (rev r ++ [e]).
    destruct (rev r ++ [e]) eqn:R; [destruct (rev r); discriminate|].
    exact H.
Qed.

Lemma trim_ends l :
  (forall c, hd_error (trim l) = Some c -> is_ws c = false)
  /\ (forall c, hd_error (rev (trim l)) = Some c -> is_ws c = false).
Proof.
  split.
  - intros c. unfold trim.
    destruct (ltrim_head l) as [->|(d & r & -> & W)]; [discriminate|].
    rewrite rtrim_nonws by exact W. simpl. intros H; injection H as <-; exact W.
  - intros c; apply rtrim_last.
Qed.

(** ** Properties of [normalizeText] *)

Definition is2 (p : ascii -> ascii -> bool) (l : jstr) : bool :=
  match l with a :: b :: _ => p a b | _ => false end.

(** No two adjacent characters are related by [p]. *)
Fixpoint no_pair (p : ascii -> ascii -> bool) (l : jstr) : bool :=
  match l with
  | [] => true
  | _ :: r => negb (is2 p l) && no_pair p r
  end.

Definition is3nl (l : jstr) : bool :=
  match l with a :: b :: c :: _ => is_nl a && is_nl b && is_nl c | _ => false end.

(** No three consecutive newlines. *)
Fixpoint no_3nl (l : jstr) : bool :=
  match l with
  | [] => true
  | _ :: r => negb (is3nl l) && no_3nl r
  end.

Definition two_spaces (a b : ascii) : bool := is_sp a && is_sp b.

Lemma no_pair_app p a b :
  no_pair p (a ++ b) = true -> no_pair p a = true /\ no_pair p b = true.
Proof.
  induction a as [|x a IH]; simpl; intros H; [auto|].
  apply andb_true_iff in H as [H1 H2].
  destruct (IH H2) as [Ha Hb]. split; [|exact Hb].
  rewrite Ha, andb_true_r.
  destruct a as [|y a]; [reflexivity|exact H1].
Qed.

Lemma no_3nl_app a b : no_3nl (a ++ b) = true -> no_3nl a = true /\ no_3nl b = true.
Proof.
  induction a as [|x a IH]; simpl; intros H; [auto|].
  apply andb_true_iff in H as [H1 H2].
  destruct (IH H2) as [Ha Hb]. split; [|exact Hb].
  rewrite Ha, andb_true_r.
  destruct a as [|y [|z a]]; [reflexivity|reflexivity|exact H1].
Qed.

Lemma forallb_infix (f : ascii -> bool) pre m suf :
  forallb f (pre ++ m ++ suf) = true -> forallb f m = true.
Proof. rewrite !forallb_app. intros H. apply andb_true_iff in H as [_ H].
  apply andb_true_iff in H as [H _]. exact H. Qed.

Lemma no_pair_infix p pre m suf :
  no_pair p (pre ++ m ++ suf) = true -> no_pair p m = true.
Proof. intros H. apply no_pair_app in H as [_ H]. apply no_pair_app in H as [H _]. exact H. Qed.

Lemma no_3nl_infix pre m suf : no_3nl (pre ++ m ++ suf) = true -> no_3nl m = true.
Proof. intros H. apply no_3nl_app in H as [_ H]. apply no_3nl_app in H as [H _]. exact H. Qed.

Lemma replace_cr_no_cr l : forallb (fun c => negb (is_cr c)) (replace_cr l) = true.
Proof.
  induction l as [|c l IH]; simpl; [reflexivity|].
  rewrite IH, andb_true_r.
  destruct (is_cr c) eqn:E; [reflexivity|rewrite E; reflexivity].
Qed.

Lemma collapse_blanks_forall (f : ascii -> bool) :
  f " "%char = true ->
  forall l b, forallb f l = true -> forallb f (collapse_blanks b l) = true.
Proof.
  intros Hsp l; induction l as [|c l IH]; intros b H; simpl.
  - destruct b; simpl; rewrite ?Hsp; reflexivity.
  - simpl in H. apply andb_true_iff in H as [Hc Hl].
    destruct (is_sp c || is_tab c); [apply IH, Hl|].
    rewrite forallb_app. simpl. rewrite Hc, (IH false Hl).
    destruct b; simpl; rewrite ?Hsp; reflexivity.
Qed.

Lemma no_pair_sp_cons c l :
  is_sp c = false -> no_pair two_spaces (c :: l) = no_pair two_spaces l.
Proof.
  intros E. destruct l as [|d l]; simpl; [reflexivity|].
  unfold two_spaces. rewrite E. reflexivity.
Qed.

Lemma no_pair_sp_space c l :
  is_sp c = false ->
  no_pair two_spaces (" "%char :: c :: l) = no_pair two_spaces (c :: l).
Proof.
  intros E. change (negb (two_spaces " "%char c) && no_pair two_spaces (c :: l)
                    = no_pair two_spaces (c :: l)).
  unfold two_spaces at 1. rewrite E, andb_false_r. reflexivity.
Qed.

Lemma collapse_blanks_ok l : forall b,
  no_pair two_spaces (collapse_blanks b l) = true
  /\ forallb (fun c => negb (is_tab c)) (collapse_blanks b l) = true.
Proof.
  induction l as [|c l IH]; intros b; simpl.
  - destruct b; split; reflexivity.
  - destruct (is_sp c || is_tab c) eqn:E; [apply IH|].
    apply orb_false_iff in E as [Es Et].
    destruct (IH false) as [H1 H2].
    destruct b.
    + split.
      * change (no_pair two_spaces (" "%char :: c :: collapse_blanks false l) = true).
        rewrite no_pair_sp_space, no_pair_sp_cons by exact Es. exact H1.
      * simpl. rewrite Et, H2. reflexivity.
    + split.
      * change (no_pair two_spaces (c :: collapse_blanks false l) = true).
        rewrite no_pair_sp_cons by exact Es. exact H1.
      * simpl. rewrite Et, H2. reflexivity.
Qed.

Lemma collapse_newlines_forall (f : ascii -> bool) :
  f nl = true ->
  forall l k, forallb f l = true -> forallb f (collapse_newlines k l) = true.
Proof.
  intros Hnl.
  assert (Hr : forall m, forallb f (repeat nl m) = true)
    by (induction m; simpl; rewrite ?Hnl; auto).
  intros l; induction l as [|c l IH]; intros k H; simpl.
  - apply Hr.
  - simpl in H. apply andb_true_iff in H as [Hc Hl].
    destruct (is_nl c); [apply IH, Hl|].
    rewrite forallb_app, Hr. simpl. rewrite Hc, (IH 0 Hl). reflexivity.
Qed.

Lemma collapse_newlines_hd_S l : forall k, hd_error (collapse_newlines (S k) l) = Some nl.
Proof.
  induction l as [|c l IH]; intros k; simpl.
  - destruct k; reflexivity.
  - destruct (is_nl c); [apply IH|]. destruct k; reflexivity.
Qed.

Lemma collapse_newlines_hd k l x :
  hd_error (collapse_newlines k l) = Some x -> x = nl \/ hd_error l = Some x.
Proof.
  destruct k as [|k].
  - destruct l as [|c l]; simpl; [discriminate|].
    destruct (is_nl c).
    + rewrite collapse_newlines_hd_S. intros H; injection H; auto.
    + simpl. auto.
  - rewrite collapse_newlines_hd_S. intros H; injection H; auto.
Qed.

Lemma no_pair_repeat_nl p :
  (forall b, p nl b = false) ->
  forall m l, no_pair p (repeat nl m ++ l) = no_pair p l.
Proof.
  intros Hp m; induction m as [|m IH]; intros l; simpl; [reflexivity|].
  rewrite IH. destruct (repeat nl m ++ l); simpl; rewrite ?Hp; reflexivity.
Qed.

Lemma collapse_newlines_no_pair p :
  (forall b, p nl b = false) -> (forall a, p a nl = false) ->
  forall l k, no_pair p l = true -> no_pair p (collapse_newlines k l) = true.
Proof.
  intros Hl Hr l; induction l as [|c l IH]; intros k H; simpl.
  - rewrite <- (app_nil_r (repeat nl _)), no_pair_repeat_nl by exact Hl. reflexivity.
  - simpl in H. apply andb_true_iff in H as [Hc Hrest].
    destruct (is_nl c); [apply IH, Hrest|].
    rewrite no_pair_repeat_nl by exact Hl. simpl.
    rewrite (IH 0 Hrest), andb_true_r.
    destruct (collapse_newlines 0 l) as [|x y] eqn:E; [reflexivity|].
    destruct (collapse_newlines_hd 0 l x) as [->|Hx]; [rewrite E; reflexivity| |].
    + simpl. rewrite Hr. reflexivity.
    + destruct l as [|d l]; [discriminate|]. simpl in Hx. injection Hx as ->.
      exact Hc.
Qed.

Lemma no_3nl_cons c l : is_nl c = false -> no_3nl (c :: l) = no_3nl l.
Proof.
  intros E. destruct l as [|d [|e l]]; simpl; rewrite ?E; reflexivity.
Qed.

Lemma collapse_newlines_no_3nl l : forall k, no_3nl (collapse_newlines k l) = true.
Proof.
  induction l as [|c l IH]; intros k; simpl.
  - destruct k as [|[|[|k]]]; reflexivity.
  - destruct (is_nl c) eqn:E; [apply IH|].
    assert (Hc : no_3nl (c :: collapse_newlines 0 l) = true)
      by (rewrite no_3nl_cons by exact E; apply IH).
    destruct k as [|[|k]]; [| |replace (Nat.min (S (S k)) 2) with 2 by lia]; simpl.
    + exact Hc.
    + change (negb (is3nl (nl :: c :: collapse_newlines 0 l))
              && no_3nl (c :: collapse_newlines 0 l) = true).
      rewrite Hc, andb_true_r. destruct (collapse_newlines 0 l); simpl; rewrite ?E; reflexivity.
    + change (negb (is3nl (nl :: nl :: c :: collapse_newlines 0 l))
              && (negb (is3nl (nl :: c :: collapse_newlines 0 l))
              && no_3nl (c :: collapse_newlines 0 l)) = true).
      rewrite Hc, andb_true_r. simpl. rewrite E.
      destruct (collapse_newlines 0 l); simpl; rewrite ?E; reflexivity.
Qed.

Lemma collapse_newlines_no_pair_sp l k :
  no_pair two_spaces l = true -> no_pair two_spaces (collapse_newlines k l) = true.
Proof.
  apply collapse_newlines_no_pair; intros; unfold two_spaces; simpl;
    rewrite ?andb_false_r; reflexivity.
Qed.

Lemma normalizeText_props raw :
  let t := normalizeText raw in
  forallb (fun c => negb (is_cr c)) t = true
  /\ forallb (fun c => negb (is_tab c)) t = true
  /\ no_pair two_spaces t = true
  /\ no_3nl t = true
  /\ (forall c, hd_error t = Some c -> is_ws c = false)
  /\ (forall c, hd_error (rev t) = Some c -> is_ws c = false).
Proof.
  cbv zeta. unfold normalizeText.
  set (b := collapse_blanks false (replace_cr raw)).
  set (n := collapse_newlines 0 b).
  destruct (trim_infix n) as (pre & suf & E).
  destruct (collapse_blanks_ok (replace_cr raw) false) as [Hb1 Hb2]. fold b in Hb1, Hb2.
  destruct (trim_ends n) as [He1 He2].
  assert (Hcr : forallb (fun c => negb (is_cr c)) n = true).
  { apply collapse_newlines_forall; [reflexivity|].
    apply collapse_blanks_forall; [reflexivity|]. apply replace_cr_no_cr. }
  assert (Htab : forallb (fun c => negb (is_tab c)) n = true)
    by (apply collapse_newlines_forall; [reflexivity|exact Hb2]).
  assert (Hsp : no_pair two_spaces n = true)
    by (apply collapse_newlines_no_pair_sp; exact Hb1).
  assert (H3 : no_3nl n = true) by apply collapse_newlines_no_3nl.
  rewrite E in Hcr, Htab, Hsp, H3.
  repeat split.
  - exact (forallb_infix _ _ _ _ Hcr).
  - exact (forallb_infix _ _ _ _ Htab).
  - exact (no_pair_infix _ _ _ _ Hsp).
  - exact (no_3nl_infix _ _ _ H3).
  - exact He1.
  - exact He2.
Qed.

(** ** Properties of the extractor *)

(** The first capture group of the first pattern of [ps] that matches [t]. *)
Fixpoint first_group (t : jstr) (ps : list regex) : option jstr :=
  match ps with
  | [] => None
  | rx :: ps' =>
      match exec rx t with
      | Some m => group 1 t (Some m)
      | None => first_group t ps'
      end
  end.

(** Group 1 is set by every match and is never empty. *)
Definition good1 (rx : regex) : bool :=
  sets 1 (body rx) && group_bodies (icase rx) (fun _ => true) 1 (body rx).

Lemma good1_group rx t m :
  good1 rx = true -> exec rx t = Some m ->
  exists g, group 1 t (exec rx t) = Some g /\ g <> [].
Proof.
  unfold good1. intros H E. apply andb_true_iff in H as [Hs Hb].
  destruct m as [j s].
  destruct (group_defined rx t 1 j s E Hs) as [g Hg].
  exists g. split; [exact Hg|].
  exact (proj1 (group_content rx _ t 1 g Hb Hg)).
Qed.

Lemma match_patterns_first t ps :
  forallb good1 ps = true -> match_patterns t ps = option_map trim (first_group t ps).
Proof.
  induction ps as [|rx ps IH]; [reflexivity|].
  cbn [match_patterns first_group forallb].
  intros H. apply andb_true_iff in H as [H1 H2].
  destruct (exec rx t) as [m|] eqn:E.
  - destruct (good1_group rx t m H1 E) as (g & Hg & Hne).
    rewrite E in Hg. rewrite Hg. destruct g; [congruence|reflexivity].
  - apply IH, H2.
Qed.

Lemma group_nil n m g : group n [] m = Some g -> g = [].
Proof.
  unfold group, slice. destruct m as [[j s]|]; [|discriminate].
  destruct (cap n s) as [[a b]|]; [|discriminate].
  intros H; injection H as <-. rewrite skipn_nil. destruct (b - a); reflexivity.
Qed.

Lemma first_group_nil ps : first_group [] ps = None \/ first_group [] ps = Some [].
Proof.
  induction ps as [|rx ps IH]; [auto|]. cbn [first_group].
  destruct (exec rx []) as [m|]; [|exact IH].
  destruct (group 1 [] (Some m)) as [g|] eqn:E; [|auto].
  apply group_nil in E. subst. auto.
Qed.

Lemma matchOne_first t ps :
  forallb good1 ps = true ->
  or_null (matchOne t ps) = or_null (option_map trim (first_group t ps)).
Proof.
  intros H. unfold matchOne. destruct t as [|c t].
  - destruct (first_group_nil ps) as [-> | ->]; reflexivity.
  - rewrite match_patterns_first by exact H. reflexivity.
Qed.

Lemma or_null_idem o : or_null (or_null o) = or_null o.
Proof. destruct o as [[|c s]|]; reflexivity. Qed.


Lemma keep_trimmed o :
  keep (or_null (option_map trim o))
  = match or_null (option_map trim o) with Some _ => true | None => false end.
Proof.
  destruct o as [g|]; [|reflexivity]. simpl.
  destruct (trim g) as [|c s] eqn:E; [reflexivity|]. simpl.
  rewrite <- E, trim_idem, E. reflexivity.
Qed.

Lemma pickFirst_trimmed o1 o2 :
  pickFirst (or_null (option_map trim o1)) (or_null (option_map trim o2))
  = match or_null (option_map trim o1) with
    | Some s => Some s
    | None => or_null (option_map trim o2)
    end.
Proof.
  unfold pickFirst. rewrite !keep_trimmed.
  destruct (or_null (option_map trim o1)); [reflexivity|].
  destruct (or_null (option_map trim o2)); reflexivity.
Qed.

(** Group 1 is set by every match, and is a non-empty run without
    whitespace. *)
Definition solid1 (rx : regex) : bool :=
  sets 1 (body rx) && group_bodies (icase rx) (fun c => negb (is_ws c)) 1 (body rx).

Lemma solid1_group rx t m :
  solid1 rx = true -> exec rx t = Some m ->
  exists g, group 1 t (exec rx t) = Some g /\ g <> [] /\ trim g = g.
Proof.
  unfold solid1. intros H E. apply andb_true_iff in H as [Hs Hb].
  destruct m as [j s].
  destruct (group_defined rx t 1 j s E Hs) as [g Hg].
  destruct (group_content rx _ t 1 g Hb Hg) as [Hne Hw].
  exists g. split; [exact Hg|]. split; [exact Hne|].
  apply trim_nows. eapply Forall_impl; [|exact Hw].
  intros c Hc. cbv beta in Hc. destruct (is_ws c); [discriminate|reflexivity].
Qed.

Lemma solid1_first t rx ps :
  solid1 rx = true -> exec rx t <> None ->
  or_null (option_map trim (first_group t (rx :: ps))) = group 1 t (exec rx t).
Proof.
  intros H E. destruct (exec rx t) as [m|] eqn:Em; [|congruence].
  destruct (solid1_group rx t m H Em) as (g & Hg & Hne & Ht).
  rewrite Em in Hg. cbn [first_group]. rewrite Em, Hg. simpl. rewrite Ht.
  destruct g; [congruence|reflexivity].
Qed.

(** The pattern lists of [extractFromVisionText] all capture a non-empty
    group 1; the VIN patterns and the corrected invoice-number pattern
    capture a run without whitespace. *)
Lemma vin_patterns_good : forallb good1 vin_patterns = true.
Proof. vm_compute. reflexivity. Qed.
Lemma gross_patterns_good : forallb good1 gross_patterns = true.
Proof. vm_compute. reflexivity. Qed.
Lemma invoice_no_patterns_good : forallb good1 invoice_no_patterns = true.
Proof. vm_compute. reflexivity. Qed.
Lemma invoice_date_patterns_good : forallb good1 invoice_date_patterns = true.
Proof. vm_compute. reflexivity. Qed.
Lemma total_patterns_good : forallb good1 total_patterns = true.
Proof. vm_compute. reflexivity. Qed.
Lemma exporter_patterns_good : forallb good1 exporter_patterns = true.
Proof. vm_compute. reflexivity. Qed.
Lemma importer_patterns_good : forallb good1 importer_patterns = true.
Proof. vm_compute. reflexivity. Qed.
Lemma goods_patterns_good : forallb good1 goods_patterns = true.
Proof. vm_compute. reflexivity. Qed.
Lemma cmr_date_patterns_good : forallb good1 cmr_date_patterns = true.
Proof. vm_compute. reflexivity. Qed.
Lemma loading_patterns_good : forallb good1 loading_patterns = true.
Proof. vm_compute. reflexivity. Qed.
Lemma delivery_patterns_good : forallb good1 delivery_patterns = true.
Proof. vm_compute. reflexivity. Qed.
Lemma vin_label_solid : solid1 re_vin_label = true.
Proof. vm_compute. reflexivity. Qed.
Lemma vin_bare_solid : solid1 re_vin_bare = true.
Proof. vm_compute. reflexivity. Qed.
Lemma invoice_no_fixed_solid : solid1 re_invoice_no_fixed = true.
Proof. vm_compute. reflexivity. Qed.

Lemma candidate_paths f :
  get_path (candidate f) ["cmr"; "exporter"; "name"]%string = opt_j (or_null (f_exporterName f))
  /\ get_path (candidate f) ["cmr"; "importer"; "name"]%string = opt_j (or_null (f_importerName f))
  /\ get_path (candidate f) ["cmr"; "goods_name"]%string = opt_j (or_null (f_goodsName f))
  /\ get_path (candidate f) ["cmr"; "vin"]%string = opt_j (f_vin f)
  /\ get_path (candidate f) ["cmr"; "gross_weight_kg"]%string = opt_j (f_gross f)
  /\ get_path (candidate f) ["cmr"; "loading_place"]%string = opt_j (f_loadingPlace f)
  /\ get_path (candidate f) ["cmr"; "delivery_place"]%string = opt_j (f_deliveryPlace f)
  /\ get_path (candidate f) ["cmr"; "date"]%string = opt_j (f_cmrDate f)
  /\ get_path (candidate f) ["invoice"; "exporter"; "name"]%string = opt_j (or_null (f_exporterName f))
  /\ get_path (candidate f) ["invoice"; "importer"; "name"]%string = opt_j (or_null (f_importerName f))
  /\ get_path (candidate f) ["invoice"; "goods_name"]%string = opt_j (or_null (f_goodsName f))
  /\ get_path (candidate f) ["invoice"; "vin"]%string = opt_j (f_vin f)
  /\ get_path (candidate f) ["invoice"; "invoice_no"]%string
     = opt_j (pickFirst (f_invoiceNoFixed f) (f_invoiceNo f))
  /\ get_path (candidate f) ["invoice"; "invoice_date"]%string = opt_j (f_invoiceDate f)
  /\ get_path (candidate f) ["invoice"; "total_amount"]%string = opt_j (f_total f).
Proof. repeat split. Qed.

Lemma fixed_trimmed t :
  or_null (option_map trim (group 1 t (exec re_invoice_no_fixed t)))
  = group 1 t (exec re_invoice_no_fixed t).
Proof.
  destruct (exec re_invoice_no_fixed t) as [m|] eqn:E; [|reflexivity].
  destruct (solid1_group _ t m invoice_no_fixed_solid E) as (g & Hg & Hne & Ht).
  rewrite E in Hg. rewrite Hg. simpl. rewrite Ht. destruct g; [congruence|reflexivity].
Qed.

Lemma invoice_no_strip t :
  exec re_invoice_no t = None <-> exec re_invoice_no_fixed t = None.
Proof. apply exec_strip; reflexivity. Qed.

Lemma invoice_no_field t :
  pickFirst (f_invoiceNoFixed (extract_fields t)) (f_invoiceNo (extract_fields t))
  = group 1 t (exec re_invoice_no_fixed t).
Proof.
  cbn [extract_fields f_invoiceNoFixed f_invoiceNo].
  rewrite matchOne_first by exact invoice_no_patterns_good.
  rewrite pickFirst_trimmed, fixed_trimmed.
  destruct (exec re_invoice_no_fixed t) as [m|] eqn:E.
  - destruct (solid1_group _ t m invoice_no_fixed_solid E) as (g & Hg & _).
    rewrite E in Hg. rewrite Hg. reflexivity.
  - simpl. apply invoice_no_strip in E. rewrite E. reflexivity.
Qed.

Lemma invoice_no_first t :
  pickFirst (f_invoiceNoFixed (extract_fields t)) (f_invoiceNo (extract_fields t))
  = or_null (option_map trim (first_group t (re_invoice_no_fixed :: invoice_no_patterns))).
Proof.
  rewrite invoice_no_field.
  destruct (exec re_invoice_no_fixed t) as [m|] eqn:E.
  - rewrite solid1_first by (exact invoice_no_fixed_solid || congruence).
    rewrite E. reflexivity.
  - cbn [first_group]. rewrite E. simpl.
    apply invoice_no_strip in E. rewrite E. reflexivity.
Qed.

Lemma vin_field t :
  f_vin (extract_fields t)
  = match exec re_vin_label t with
    | Some _ => group 1 t (exec re_vin_label t)
    | None => group 1 t (exec re_vin_bare t)
    end.
Proof.
  cbn [extract_fields f_vin].
  rewrite matchOne_first by exact vin_patterns_good. unfold vin_patterns.
  destruct (exec re_vin_label t) as [m|] eqn:E.
  - rewrite <- E. apply solid1_first; [exact vin_label_solid|congruence].
  - change (first_group t (re_vin_label :: [re_vin_bare]))
      with (match exec re_vin_label t with
            | Some m => group 1 t (Some m)
            | None => first_group t [re_vin_bare]
            end).
    rewrite E. cbv iota.
    destruct (exec re_vin_bare t) as [m|] eqn:E2; [|cbn [first_group]; rewrite E2; reflexivity].
    rewrite <- E2. apply solid1_first; [exact vin_bare_solid|congruence].
Qed.

(** ** Properties of the Normalizer *)

(** A character of the output of [first_number]: a digit or a period. *)
Definition num_char (c : ascii) : bool := is_digit c || Ascii.eqb c "."%char.

Lemma vin_char_facts :
  forall c, vin_cls c = true -> upper_char c = [c] /\ is_ws c = false.
Proof.
  assert (H : all_ascii (fun c => negb (vin_cls c)
                || jstr_eqb (upper_char c) [c] && negb (is_ws c)) = true)
    by (vm_compute; reflexivity).
  intros c Hc. pose proof (all_ascii_spec _ H c) as Hf. cbv beta in Hf.
  rewrite Hc in Hf. simpl in Hf. apply andb_true_iff in Hf as [H1 H2].
  split; [|destruct (is_ws c); [discriminate|reflexivity]].
  destruct (upper_char c) as [|a [|b l]] eqn:E; simpl in H1;
    [discriminate| |rewrite andb_false_r in H1; discriminate].
  apply andb_true_iff in H1 as [H1 _]. apply Ascii.eqb_eq in H1. subst. reflexivity.
Qed.

Lemma num_char_facts :
  forall c, num_char c = true ->
  upper_char c = [c] /\ is_ws c = false /\ Ascii.eqb c ","%char = false.
Proof.
  assert (H : all_ascii (fun c => negb (num_char c)
                || jstr_eqb (upper_char c) [c] && negb (is_ws c)
                   && negb (Ascii.eqb c ","%char)) = true)
    by (vm_compute; reflexivity).
  intros c Hc. pose proof (all_ascii_spec _ H c) as Hf. cbv beta in Hf.
  rewrite Hc in Hf. simpl in Hf. apply andb_true_iff in Hf as [Hf H3].
  apply andb_true_iff in Hf as [H1 H2].
  split; [|split; [destruct (is_ws c); [discriminate|reflexivity]
                  |destruct (Ascii.eqb c ","%char); [discriminate|reflexivity]]].
  destruct (upper_char c) as [|a [|b l]] eqn:E; simpl in H1;
    [discriminate| |rewrite andb_false_r in H1; discriminate].
  apply andb_true_iff in H1 as [H1 _]. apply Ascii.eqb_eq in H1. subst. reflexivity.
Qed.

Lemma upper_id (P : ascii -> bool) l :
  (forall c, P c = true -> upper_char c = [c]) ->
  forallb P l = true -> upper l = l.
Proof.
  intros HP. induction l as [|c l IH]; simpl; [reflexivity|].
  intros H. apply andb_true_iff in H as [Hc Hl].
  rewrite (HP c Hc). simpl. f_equal. apply IH, Hl.
Qed.

Lemma trim_id (P : ascii -> bool) l :
  (forall c, P c = true -> is_ws c = false) ->
  forallb P l = true -> trim l = l.
Proof.
  intros HP H. apply trim_nows. apply Forall_forall. intros c Hin.
  apply HP. rewrite forallb_forall in H. apply H, Hin.
Qed.

Lemma vin_upper_trim s : vin_ok s = true -> trim (upper s) = s.
Proof.
  unfold vin_ok. intros H. apply andb_true_iff in H as [_ H].
  rewrite (upper_id vin_cls s) by (exact H || (intros c Hc; apply (vin_char_facts c Hc))).
  apply (trim_id vin_cls); [intros c Hc; apply (vin_char_facts c Hc)|exact H].
Qed.

Lemma norm_vin_cases v :
  norm_vin v = [] \/ (norm_vin v = trim (upper (to_text v)) /\ vin_ok (norm_vin v) = true).
Proof.
  unfold norm_vin. destruct (vin_ok (trim (upper (to_text v)))) eqn:E; [right|left]; auto.
Qed.

Lemma norm_vin_valid s : vin_ok s = true -> norm_vin (JStr s) = s.
Proof.
  intros H. unfold norm_vin. simpl. rewrite vin_upper_trim by exact H. rewrite H. reflexivity.
Qed.

Lemma norm_vin_idem v : norm_vin (JStr (norm_vin v)) = norm_vin v.
Proof.
  destruct (norm_vin_cases v) as [-> | [_ H]]; [reflexivity|].
  apply norm_vin_valid, H.
Qed.

Lemma norm_text_idem v : norm_text (JStr (norm_text v)) = norm_text v.
Proof. unfold norm_text. simpl. apply trim_idem. Qed.

(** The shape of a numeric run [w] followed by [post] in the string:
    digits, then optionally a period and digits, and not extendable. *)
Definition no_digit_start (l : jstr) : Prop :=
  forall c r, l = c :: r -> is_digit c = false.

Definition num_shape (w post : jstr) : Prop :=
  exists d1 tl,
    w = d1 ++ tl /\ d1 <> [] /\ forallb is_digit d1 = true /\ no_digit_start post
    /\ ((tl = [] /\ ~ (exists e r, post = "."%char :: e :: r /\ is_digit e = true))
        \/ (exists d2, tl = "."%char :: d2 /\ d2 <> [] /\ forallb is_digit d2 = true)).

Lemma span_digits_spec l :
  l = fst (span_digits l) ++ snd (span_digits l)
  /\ forallb is_digit (fst (span_digits l)) = true
  /\ no_digit_start (snd (span_digits l)).
Proof.
  induction l as [|c l IH]; simpl.
  - split; [reflexivity|split; [reflexivity|]]. intros a r H; discriminate.
  - destruct (is_digit c) eqn:E.
    + destruct (span_digits l) as [d rest]. simpl in *.
      destruct IH as (H1 & H2 & H3). rewrite E, H2. split; [f_equal; exact H1|auto].
    + simpl. split; [reflexivity|split; [reflexivity|]].
      intros a r H; injection H as -> _; exact E.
Qed.

Lemma span_digits_app d rest :
  forallb is_digit d = true -> no_digit_start rest -> span_digits (d ++ rest) = (d, rest).
Proof.
  intros Hd Hr. induction d as [|c d IH]; simpl.
  - destruct rest as [|c r]; [reflexivity|]. simpl. rewrite (Hr c r eq_refl). reflexivity.
  - simpl in Hd. apply andb_true_iff in Hd as [Hc Hd]. rewrite Hc, (IH Hd). reflexivity.
Qed.

Lemma no_digit_start_nil : no_digit_start [].
Proof. intros c r H; discriminate. Qed.

Lemma take_number_spec c r :
  is_digit c = true ->
  exists post, c :: r = take_number (c :: r) ++ post /\ num_shape (take_number (c :: r)) post.
Proof.
  intros Hc. destruct (span_digits_spec (c :: r)) as (H1 & H2 & H3).
  unfold take_number.
  destruct (span_digits (c :: r)) as [ds rest] eqn:E. simpl in H1, H2, H3.
  assert (Hne : ds <> []).
  { intros ->. simpl in H1. rewrite <- H1 in H3. rewrite (H3 c r eq_refl) in Hc. discriminate. }
  destruct rest as [|d [|e r']].
  - exists []. rewrite app_nil_r. split; [exact H1|].
    exists ds, []. rewrite app_nil_r. repeat split; auto using no_digit_start_nil.
    left. split; [reflexivity|]. intros (e & r' & Hx & _); discriminate.
  - exists [d]. rewrite app_nil_r. split; [exact H1|].
    exists ds, []. rewrite app_nil_r. repeat split; auto.
    left. split; [reflexivity|]. intros (e & r' & Hx & _); discriminate.
  - destruct (Ascii.eqb d "."%char && is_digit e) eqn:Ed.
    + apply andb_true_iff in Ed as [Hd He]. apply Ascii.eqb_eq in Hd. subst d.
      destruct (span_digits_spec (e :: r')) as (K1 & K2 & K3).
      exists (snd (span_digits (e :: r'))). split.
      * rewrite H1, <- app_assoc, <- app_comm_cons, <- K1. reflexivity.
      * exists ds, ("."%char :: fst (span_digits (e :: r'))).
        split; [reflexivity|]. split; [exact Hne|]. split; [exact H2|]. split; [exact K3|].
        right. exists (fst (span_digits (e :: r'))). split; [reflexivity|].
        split; [|exact K2].
        simpl. rewrite He. destruct (span_digits r'). discriminate.
    + exists (d :: e :: r'). rewrite app_nil_r. split; [exact H1|].
      exists ds, []. rewrite app_nil_r. repeat split; auto.
      left. split; [reflexivity|]. intros (e' & r'' & Hx & He').
      injection Hx as -> -> ->. rewrite He' in Ed. discriminate.
Qed.

Lemma first_number_spec l :
  (first_number l = [] /\ forallb (fun c => negb (is_digit c)) l = true)
  \/ (exists pre post, l = pre ++ first_number l ++ post
        /\ forallb (fun c => negb (is_digit c)) pre = true
        /\ num_shape (first_number l) post).
Proof.
  induction l as [|c l IH]; simpl; [left; auto|].
  destruct (is_digit c) eqn:E; simpl.
  - right. destruct (take_number_spec c l E) as (post & H1 & H2).
    exists [], post. split; [exact H1|]. split; [reflexivity|exact H2].
  - destruct IH as [[H1 H2]|(pre & post & H1 & H2 & H3)].
    + left. auto.
    + right. exists (c :: pre), post. simpl. rewrite <- H1, E, H2. auto.
Qed.

Lemma span_digits_all l : forallb is_digit l = true -> span_digits l = (l, []).
Proof.
  intros H. rewrite <- (app_nil_r l) at 1.
  apply span_digits_app; [exact H|exact no_digit_start_nil].
Qed.

Lemma num_shape_take w post : num_shape w post -> first_number w = w.
Proof.
  intros (d1 & tl & -> & Hne & Hd & _ & Htl).
  destruct d1 as [|c d1]; [congruence|].
  assert (Hc : is_digit c = true)
    by (simpl in Hd; destruct (is_digit c); [reflexivity|discriminate]).
  change (first_number ((c :: d1) ++ tl))
    with (if is_digit c then take_number ((c :: d1) ++ tl) else first_number (d1 ++ tl)).
  rewrite Hc. unfold take_number.
  destruct Htl as [[-> _]|(d2 & -> & Hne2 & Hd2)].
  - rewrite (span_digits_app (c :: d1) []) by (exact Hd || exact no_digit_start_nil).
    reflexivity.
  - rewrite (span_digits_app (c :: d1) ("."%char :: d2))
      by (exact Hd || (intros a r H; injection H as <- _; reflexivity)).
    destruct d2 as [|e d2]; [congruence|].
    assert (He : is_digit e = true)
      by (simpl in Hd2; destruct (is_digit e); [reflexivity|discriminate]).
    cbv iota beta. rewrite Ascii.eqb_refl, He, (span_digits_all (e :: d2) Hd2).
    reflexivity.
Qed.

Lemma num_shape_chars w post : num_shape w post -> forallb num_char w = true.
Proof.
  intros (d1 & tl & -> & _ & Hd & _ & Htl).
  assert (Hn : forall l, forallb is_digit l = true -> forallb num_char l = true).
  { induction l as [|c l IH]; simpl; [auto|]. unfold num_char at 1.
    intros H. apply andb_true_iff in H as [-> H]. simpl. auto. }
  rewrite forallb_app, Hn by exact Hd.
  destruct Htl as [[-> _]|(d2 & -> & _ & Hd2)]; [reflexivity|].
  simpl. rewrite Hn by exact Hd2. reflexivity.
Qed.

Lemma first_number_idem l : first_number (first_number l) = first_number l.
Proof.
  destruct (first_number_spec l) as [[-> _]|(pre & post & _ & _ & H)]; [reflexivity|].
  exact (num_shape_take _ _ H).
Qed.

Lemma first_number_chars l : forallb num_char (first_number l) = true.
Proof.
  destruct (first_number_spec l) as [[-> _]|(pre & post & _ & _ & H)]; [reflexivity|].
  exact (num_shape_chars _ _ H).
Qed.

Lemma comma_to_dot_id l :
  forallb num_char l = true -> comma_to_dot l = l.
Proof.
  induction l as [|c l IH]; simpl; [reflexivity|].
  intros H. apply andb_true_iff in H as [Hc Hl].
  destruct (num_char_facts c Hc) as (_ & _ & ->). f_equal. apply IH, Hl.
Qed.

Lemma norm_weight_idem v : norm_weight (JStr (norm_weight v)) = norm_weight v.
Proof.
  unfold norm_weight at 1. simpl.
  pose proof (first_number_chars (comma_to_dot (trim (upper (to_text v))))) as H.
  fold (norm_weight v) in H |- *.
  rewrite (upper_id num_char) by (exact H || (intros c Hc; apply (num_char_facts c Hc))).
  rewrite (trim_id num_char) by (exact H || (intros c Hc; apply (num_char_facts c Hc))).
  rewrite comma_to_dot_id by exact H.
  apply first_number_idem.
Qed.

Lemma norm_party_idem v : norm_party (party_json (norm_party v)) = norm_party v.
Proof.
  change (norm_party (party_json (norm_party v)))
    with {| pname := norm_text (JStr (pname (norm_party v)));
            paddress := norm_text (JStr (paddress (norm_party v))) |}.
  unfold norm_party at 1 2. cbn [pname paddress]. rewrite !norm_text_idem. reflexivity.
Qed.

Lemma norm_importer_idem v : norm_importer (importer_json (norm_importer v)) = norm_importer v.
Proof.
  change (norm_importer (importer_json (norm_importer v)))
    with {| iname := norm_text (JStr (iname (norm_importer v)));
            iaddress := norm_text (JStr (iaddress (norm_importer v)));
            iid := norm_text (JStr (iid (norm_importer v))) |}.
  unfold norm_importer at 1 2 3. cbn [iname iaddress iid]. rewrite !norm_text_idem. reflexivity.
Qed.

(** ** Upper bounds on the length of a match *)

(** The most characters an expression can consume; [None]: no bound. *)
Fixpoint maxlen (r : re) : option nat :=
  match r with
  | RChar _ | RClass _ => Some 1
  | RRep _ _ mx => mx
  | RBound => Some 0
  | RSeq r1 r2 =>
      match maxlen r1, maxlen r2 with Some a, Some b => Some (a + b) | _, _ => None end
  | RAlt r1 r2 =>
      match maxlen r1, maxlen r2 with Some a, Some b => Some (Nat.max a b) | _, _ => None end
  | ROpt r1 | RGroup _ r1 => maxlen r1
  end.

(** What a capture of group [n] can be, as far as its end is concerned: a
    span no longer than the group's body can consume. *)
Fixpoint gbound (r : re) (n a b : nat) : Prop :=
  match r with
  | RGroup m r1 =>
      (m = n /\ a <= b /\ forall x, maxlen r1 = Some x -> b <= a + x) \/ gbound r1 n a b
  | RSeq r1 r2 | RAlt r1 r2 => gbound r1 n a b \/ gbound r2 n a b
  | ROpt r1 => gbound r1 n a b
  | _ => False
  end.

Lemma run_len_le ic p l m : run_len ic p l (Some m) <= m.
Proof.
  revert m; induction l as [|c l IH]; intros [|m]; simpl; try lia.
  destruct (cls_match ic p c); [|lia]. specialize (IH m). lia.
Qed.

Lemma mt_max ic t r : forall s k res,
  mt ic t r s k = Some res ->
  exists s', k s' = Some res
    /\ pos s <= pos s'
    /\ (forall x, maxlen r = Some x -> pos s' <= pos s + x)
    /\ (forall n a b, cap n s' = Some (a, b) -> cap n s = Some (a, b) \/ gbound r n a b).
Proof.
  induction r as [a|p|p mn mx| |r1 IH1 r2 IH2|r1 IH1 r2 IH2|r1 IH1|m r1 IH1];
    intros s k res H; simpl in H.
  - destruct (nth_error t (pos s)); [|discriminate].
    destruct (char_match ic a a0); [|discriminate].
    exists (set_pos s (S (pos s))). simpl.
    split; [exact H|]. split; [lia|]. split; [intros x Hx; injection Hx; lia|auto].
  - destruct (nth_error t (pos s)); [|discriminate].
    destruct (cls_match ic p a); [|discriminate].
    exists (set_pos s (S (pos s))). simpl.
    split; [exact H|]. split; [lia|]. split; [intros x Hx; injection Hx; lia|auto].
  - apply try_counts_inv in H as (j & Hj & Hk).
    exists (set_pos s (pos s + j)). simpl.
    split; [exact Hk|]. split; [lia|]. split; [|auto].
    intros x Hx. simpl in Hx. subst mx. pose proof (run_len_le ic p (skipn (pos s) t) x). lia.
  - destruct (at_boundary t (pos s)); [|discriminate].
    exists s. split; [exact H|]. split; [lia|]. split; [intros x Hx; injection Hx; lia|auto].
  - destruct (IH1 _ _ _ H) as (s1 & H1 & P1 & B1 & C1).
    destruct (IH2 _ _ _ H1) as (s2 & H2 & P2 & B2 & C2).
    exists s2. split; [exact H2|]. split; [lia|]. split.
    + intros x Hx. simpl in Hx. destruct (maxlen r1) as [x1|]; [|discriminate].
      destruct (maxlen r2) as [x2|]; [|discriminate].
      injection Hx as <-. specialize (B1 x1 eq_refl). specialize (B2 x2 eq_refl). lia.
    + intros n a b Hc. destruct (C2 _ _ _ Hc) as [Hc1|G]; [|simpl; auto].
      destruct (C1 _ _ _ Hc1) as [Hc0|G]; [auto|right; simpl; auto].
  - assert (Hm : forall x, maxlen (RAlt r1 r2) = Some x ->
                 (forall y, maxlen r1 = Some y -> y <= x) /\ (forall y, maxlen r2 = Some y -> y <= x)).
    { intros x Hx. simpl in Hx. destruct (maxlen r1) as [x1|]; [|discriminate].
      destruct (maxlen r2) as [x2|]; [|discriminate].
      injection Hx as <-. split; intros y Hy; injection Hy as <-; lia. }
    destruct (mt ic t r1 s k) as [x|] eqn:E1.
    + injection H as ->. destruct (IH1 _ _ _ E1) as (s' & H1 & P1 & B1 & C1).
      exists s'. split; [exact H1|]. split; [exact P1|]. split.
      * intros x Hx. destruct (Hm x Hx) as [Hy _].
        destruct (maxlen r1) as [y|] eqn:Ey; [|simpl in Hx; rewrite Ey in Hx; discriminate].
        specialize (B1 y eq_refl). specialize (Hy y eq_refl). lia.
      * intros n a b Hc. destruct (C1 _ _ _ Hc); simpl; auto.
    + destruct (IH2 _ _ _ H) as (s' & H2 & P2 & B2 & C2).
      exists s'. split; [exact H2|]. split; [exact P2|]. split.
      * intros x Hx. destruct (Hm x Hx) as [_ Hy].
        destruct (maxlen r2) as [y|] eqn:Ey;
          [|simpl in Hx; rewrite Ey in Hx; destruct (maxlen r1); discriminate].
        specialize (B2 y eq_refl). specialize (Hy y eq_refl). lia.
      * intros n a b Hc. destruct (C2 _ _ _ Hc); simpl; auto.
  - destruct (mt ic t r1 s k) as [x|] eqn:E1.
    + injection H as ->. destruct (IH1 _ _ _ E1) as (s' & H1 & P1 & B1 & C1).
      exists s'. auto.
    + exists s. split; [exact H|]. split; [lia|]. split; [intros; lia|auto].
  - destruct (IH1 _ _ _ H) as (s1 & H1 & P1 & B1 & C1).
    exists (set_cap m (pos s, pos s1) s1). simpl.
    split; [exact H1|]. split; [exact P1|]. split; [exact B1|].
    intros n a b Hc. unfold cap in Hc. simpl in Hc.
    destruct (Nat.eqb_spec m n) as [<-|Hmn].
    + injection Hc as <- <-. right. left. auto.
    + destruct (C1 _ _ _ Hc); auto.
Qed.

Lemma exec_max rx t j s :
  exec rx t = Some (j, s) ->
  j <= pos s
  /\ (forall x, maxlen (body rx) = Some x -> pos s <= j + x)
  /\ (forall n a b, cap n s = Some (a, b) -> gbound (body rx) n a b).
Proof.
  intros H. apply exec_from_inv in H.
  destruct (mt_max _ _ _ _ _ _ H) as (s' & H1 & P & B & C).
  injection H1 as ->. simpl in P, B. split; [exact P|]. split; [exact B|].
  intros n a b Hc. destruct (C _ _ _ Hc) as [Hn|G]; [discriminate|exact G].
Qed.

Lemma exec_min rx t j s :
  exec rx t = Some (j, s) ->
  j + minlen (body rx) <= pos s
  /\ (forall Q, consumes (icase rx) Q (body rx) -> range_ok t Q j (pos s)).
Proof.
  intros H. apply exec_from_inv in H.
  destruct (mt_inv _ _ _ _ _ _ H) as (s' & H1 & P & R & _).
  injection H1 as ->. simpl in P, R. auto.
Qed.

(** Whether a bound [mx] on a length respects the limit [hi]; [None]:
    no limit, or no bound. *)
Definition bound_ok (hi mx : option nat) : bool :=
  match hi, mx with
  | None, _ => true
  | Some h, Some x => x <=? h
  | Some _, None => false
  end.

(** The bodies of the groups numbered [n] consume at least [lo] and at
    most [hi] characters. *)
Fixpoint group_lens (n lo : nat) (hi : option nat) (r : re) : bool :=
  match r with
  | RGroup m r1 =>
      (negb (Nat.eqb m n) || (lo <=? minlen r1) && bound_ok hi (maxlen r1))
      && group_lens n lo hi r1
  | RSeq r1 r2 | RAlt r1 r2 => group_lens n lo hi r1 && group_lens n lo hi r2
  | ROpt r1 => group_lens n lo hi r1
  | _ => true
  end.

Lemma gfact_lens ic t n lo hi r a b :
  group_lens n lo hi r = true -> gfact ic t r n a b -> a + lo <= b.
Proof.
  induction r as [| | | |r1 IH1 r2 IH2|r1 IH1 r2 IH2|r1 IH1|m r1 IH1];
    simpl; intros Hb Hg; try contradiction.
  - apply andb_true_iff in Hb as [Hb1 Hb2]. destruct Hg; auto.
  - apply andb_true_iff in Hb as [Hb1 Hb2]. destruct Hg; auto.
  - auto.
  - apply andb_true_iff in Hb as [Hb1 Hb2].
    destruct Hg as [(<- & Hm & _)|Hg]; [|auto].
    rewrite Nat.eqb_refl in Hb1. simpl in Hb1.
    apply andb_true_iff in Hb1 as [Hlo _]. apply Nat.leb_le in Hlo. lia.
Qed.

Lemma gbound_lens n lo hi r a b :
  group_lens n lo (Some hi) r = true -> gbound r n a b -> b <= a + hi.
Proof.
  induction r as [| | | |r1 IH1 r2 IH2|r1 IH1 r2 IH2|r1 IH1|m r1 IH1];
    simpl; intros Hb Hg; try contradiction.
  - apply andb_true_iff in Hb as [Hb1 Hb2]. destruct Hg; auto.
  - apply andb_true_iff in Hb as [Hb1 Hb2]. destruct Hg; auto.
  - auto.
  - apply andb_true_iff in Hb as [Hb1 Hb2].
    destruct Hg as [(<- & Hab & HB)|Hg]; [|auto].
    rewrite Nat.eqb_refl in Hb1. simpl in Hb1.
    apply andb_true_iff in Hb1 as [_ Hhi]. unfold bound_ok in Hhi.
    destruct (maxlen r1) as [x|]; [|discriminate].
    apply Nat.leb_le in Hhi. specialize (HB x eq_refl). lia.
Qed.

(** A group whose bodies pass [group_bodies] and [group_lens] captures
    between [lo] and [hi] characters, all accepted by [q]. *)
Lemma group_shape rx q lo hi t n g :
  group_bodies (icase rx) q n (body rx) = true ->
  group_lens n lo hi (body rx) = true ->
  group n t (exec rx t) = Some g ->
  lo <= length g /\ (forall h, hi = Some h -> length g <= h) /\ Forall (fun c => q c = true) g.
Proof.
  intros Hb Hl Hg.
  unfold group in Hg. destruct (exec rx t) as [[j s]|] eqn:E; [|discriminate].
  destruct (cap n s) as [[a b]|] eqn:C; [|discriminate].
  injection Hg as <-.
  assert (Hf : gfact (icase rx) t (body rx) n a b) by (apply (proj1 (exec_inv _ _ _ _ E)); exact C).
  assert (Hgb : gbound (body rx) n a b) by (apply (proj2 (proj2 (exec_max _ _ _ _ E))); exact C).
  destruct (gfact_bodies _ _ _ _ _ _ _ Hb Hf) as [Hab HR].
  destruct (slice_range _ _ _ _ HR) as [Hlen HF].
  pose proof (gfact_lens _ _ _ _ _ _ _ _ Hl Hf).
  split; [rewrite Hlen; lia|]. split; [|exact HF].
  intros h ->. pose proof (gbound_lens _ _ _ _ _ _ Hl Hgb). rewrite Hlen. lia.
Qed.

(** The whole match of an expression whose length is bounded. *)
Lemma group0_shape rx q lo hi t g :
  consumes_b (icase rx) q (body rx) = true ->
  lo <= minlen (body rx) -> maxlen (body rx) = Some hi ->
  group0 t (exec rx t) = Some g ->
  lo <= length g <= hi /\ Forall (fun c => q c = true) g.
Proof.
  intros Hc Hlo Hhi Hg.
  unfold group0 in Hg. destruct (exec rx t) as [[j s]|] eqn:E; [|discriminate].
  injection Hg as <-.
  destruct (exec_min _ _ _ _ E) as [Pm R].
  destruct (exec_max _ _ _ _ E) as (_ & B & _).
  specialize (B hi Hhi).
  destruct (slice_range _ _ _ _ (R _ (consumes_b_sound _ _ _ Hc))) as [Hlen HF].
  split; [rewrite Hlen; lia|exact HF].
Qed.

(** *** The shape of the fields of [extractFromVisionText] *)

(** Group 1 of a pattern captures between [lo] and [hi] characters, all
    accepted by [q]. *)
Definition shape1 (q : ascii -> bool) (lo : nat) (hi : option nat) (rx : regex) : bool :=
  group_bodies (icase rx) q 1 (body rx) && group_lens 1 lo hi (body rx).

Lemma first_group_shape t ps q lo hi g :
  forallb (shape1 q lo hi) ps = true -> first_group t ps = Some g ->
  lo <= length g /\ (forall h, hi = Some h -> length g <= h) /\ Forall (fun c => q c = true) g.
Proof.
  induction ps as [|rx ps IH]; [discriminate|].
  cbn [first_group forallb]. intros H Hg. apply andb_true_iff in H as [H1 H2].
  destruct (exec rx t) as [m|] eqn:E; [|exact (IH H2 Hg)].
  rewrite <- E in Hg. apply andb_true_iff in H1 as [Hb Hl].
  exact (group_shape rx q lo hi t 1 g Hb Hl Hg).
Qed.

Lemma field_shape t ps q lo hi v :
  forallb good1 ps = true -> forallb (shape1 q lo hi) ps = true ->
  or_null (matchOne t ps) = Some v ->
  exists g, v = trim g /\ v <> []
    /\ lo <= length g /\ (forall h, hi = Some h -> length g <= h) /\ Forall (fun c => q c = true) g.
Proof.
  intros Hg Hs Hv. rewrite matchOne_first in Hv by exact Hg.
  destruct (first_group t ps) as [g|] eqn:E; [|discriminate].
  simpl in Hv. destruct (trim g) as [|c r] eqn:Et; [discriminate|].
  injection Hv as <-. exists g. rewrite Et. split; [reflexivity|]. split; [discriminate|].
  exact (first_group_shape t ps q lo hi g Hs E).
Qed.

(** A run of characters that are not whitespace is its own trim. *)
Lemma trim_solid (q : ascii -> bool) g :
  all_ascii (fun c => negb (q c) || negb (is_ws c)) = true ->
  Forall (fun c => q c = true) g -> trim g = g.
Proof.
  intros Ha Hg. apply trim_nows. eapply Forall_impl; [|exact Hg].
  intros c Hc. pose proof (all_ascii_spec _ Ha c) as Hw. cbv beta in Hw.
  rewrite Hc in Hw. destruct (is_ws c); [discriminate|reflexivity].
Qed.

Lemma opt_j_str o v : opt_j o = JStr v -> o = Some v.
Proof. destruct o; simpl; congruence. Qed.

(** [[0-9]] or a date separator [[./-]]. *)
Definition date_char (c : ascii) : bool := is_digit c || date_sep c.

Lemma vin_patterns_shape : forallb (shape1 (cls_match true vin_cls) 17 (Some 17)) vin_patterns = true.
Proof. vm_compute. reflexivity. Qed.
Lemma vin_cls_solid : all_ascii (fun c => negb (cls_match true vin_cls c) || negb (is_ws c)) = true.
Proof. vm_compute. reflexivity. Qed.
Lemma invoice_date_patterns_shape : forallb (shape1 date_char 6 (Some 10)) invoice_date_patterns = true.
Proof. vm_compute. reflexivity. Qed.
Lemma cmr_date_patterns_shape : forallb (shape1 date_char 6 (Some 10)) cmr_date_patterns = true.
Proof. vm_compute. reflexivity. Qed.
Lemma date_char_solid : all_ascii (fun c => negb (date_char c) || negb (is_ws c)) = true.
Proof. vm_compute. reflexivity. Qed.
Lemma gross_patterns_shape : forallb (shape1 num_cls 1 None) gross_patterns = true.
Proof. vm_compute. reflexivity. Qed.
Lemma total_patterns_shape : forallb (shape1 num_cls 1 None) total_patterns = true.
Proof. vm_compute. reflexivity. Qed.
Lemma num_cls_solid : all_ascii (fun c => negb (num_cls c) || negb (is_ws c)) = true.
Proof. vm_compute. reflexivity. Qed.
Lemma exporter_patterns_shape : forallb (shape1 not_nl 3 (Some 80)) exporter_patterns = true.
Proof. vm_compute. reflexivity. Qed.
Lemma importer_patterns_shape : forallb (shape1 not_nl 3 (Some 80)) importer_patterns = true.
Proof. vm_compute. reflexivity. Qed.
Lemma goods_patterns_shape : forallb (shape1 not_nl 3 (Some 120)) goods_patterns = true.
Proof. vm_compute. reflexivity. Qed.
Lemma loading_patterns_shape : forallb (shape1 not_nl 2 (Some 80)) loading_patterns = true.
Proof. vm_compute. reflexivity. Qed.
Lemma delivery_patterns_shape : forallb (shape1 not_nl 2 (Some 80)) delivery_patterns = true.
Proof. vm_compute. reflexivity. Qed.

(** A field captured by a pattern list whose group 1 is a run without
    whitespace: the field is that run. *)
Lemma solid_field t ps q lo hi v :
  forallb good1 ps = true -> forallb (shape1 q lo hi) ps = true ->
  all_ascii (fun c => negb (q c) || negb (is_ws c)) = true ->
  or_null (matchOne t ps) = Some v ->
  lo <= length v /\ (forall h, hi = Some h -> length v <= h) /\ Forall (fun c => q c = true) v.
Proof.
  intros Hg Hs Ha Hv.
  destruct (field_shape t ps q lo hi v Hg Hs Hv) as (g & -> & _ & L & H & F).
  rewrite (trim_solid q g Ha F). auto.
Qed.

(** A field captured by a pattern list whose group 1 is a bounded run of
    one line: the field is a non-empty trimmed piece of that line. *)
Lemma line_field t ps lo hi v :
  forallb good1 ps = true -> forallb (shape1 not_nl lo (Some hi)) ps = true ->
  or_null (matchOne t ps) = Some v ->
  v <> [] /\ length v <= hi /\ Forall (fun c => is_nl c = false) v /\ trim v = v.
Proof.
  intros Hg Hs Hv.
  destruct (field_shape t ps not_nl lo (Some hi) v Hg Hs Hv) as (g & -> & Hne & _ & H & F).
  specialize (H hi eq_refl).
  destruct (trim_infix g) as (pre & suf & E).
  split; [exact Hne|]. split.
  - rewrite E in H. rewrite !length_app in H. lia.
  - split; [|apply trim_idem].
    rewrite E in F. apply Forall_app in F as [_ F]. apply Forall_app in F as [F _].
    eapply Forall_impl; [|exact F]. intros c Hc. unfold not_nl in Hc.
    destruct (is_nl c); [discriminate|reflexivity].
Qed.

(** *** [normalizeText] leaves normalised text alone *)

Lemma replace_cr_id l : forallb (fun c => negb (is_cr c)) l = true -> replace_cr l = l.
Proof.
  induction l as [|c l IH]; simpl; intros H; [reflexivity|].
  apply andb_true_iff in H as [Hc Hl]. rewrite (IH Hl).
  destruct (is_cr c); [discriminate|reflexivity].
Qed.

Lemma collapse_blanks_id l :
  forallb (fun c => negb (is_tab c)) l = true -> no_pair two_spaces l = true ->
  collapse_blanks false l = l
  /\ ((forall c, hd_error l = Some c -> is_sp c = false) -> collapse_blanks true l = " "%char :: l).
Proof.
  induction l as [|c l IH]; intros Ht Hp; [split; reflexivity|].
  simpl in Ht. apply andb_true_iff in Ht as [Htc Htl].
  assert (Hpl : no_pair two_spaces l = true)
    by (simpl in Hp; apply andb_true_iff in Hp as [_ Hp]; exact Hp).
  destruct (IH Htl Hpl) as [IHf IHt].
  assert (Htab : is_tab c = false) by (destruct (is_tab c); [discriminate|reflexivity]).
  split.
  - simpl. rewrite Htab, orb_false_r. destruct (is_sp c) eqn:Es.
    + rewrite IHt.
      * unfold is_sp in Es. apply Ascii.eqb_eq in Es. subst c. reflexivity.
      * intros d Hd. destruct l as [|d' l]; [discriminate|]. injection Hd as ->.
        simpl in Hp. unfold two_spaces in Hp. rewrite Es in Hp. simpl in Hp.
        destruct (is_sp d); [discriminate|reflexivity].
    + simpl. rewrite IHf. reflexivity.
  - intros Hh. specialize (Hh c eq_refl). simpl. rewrite Hh, Htab. simpl.
    rewrite IHf. reflexivity.
Qed.

Lemma collapse_newlines_id l : forall k,
  k <= 2 -> no_3nl (repeat nl k ++ l) = true -> collapse_newlines k l = repeat nl k ++ l.
Proof.
  induction l as [|c l IH]; intros k Hk H; simpl.
  - rewrite app_nil_r. f_equal. lia.
  - destruct (is_nl c) eqn:E.
    + unfold is_nl in E. apply Ascii.eqb_eq in E. subst c.
      destruct k as [|[|[|k]]]; [| | |lia].
      * apply (IH 1); [lia|exact H].
      * apply (IH 2); [lia|exact H].
      * simpl in H. unfold is3nl, is_nl in H. simpl in H. discriminate.
    + rewrite (IH 0); [|lia|].
      * replace (Nat.min k 2) with k by lia. reflexivity.
      * simpl. apply no_3nl_app in H as [_ H]. rewrite no_3nl_cons in H by exact E. exact H.
Qed.

(** *** The fields of [extractSimple] *)

Lemma vin_simple_shape :
  consumes_b (icase re_vin_simple) vin_cls (body re_vin_simple) = true
  /\ minlen (body re_vin_simple) = 17 /\ maxlen (body re_vin_simple) = Some 17.
Proof. vm_compute. auto. Qed.
Lemma total_simple_shape : shape1 num_cls 1 None re_total_simple = true.
Proof. vm_compute. reflexivity. Qed.

(** ** The in-memory cache (server.js, lines 29-49; unnamed/part_001, lines 387-406) *)

Definition CACHE_TTL_MS : Z := 1000 * 60 * 30.

(** A [Map] with string keys, as its entries in insertion order. *)
Definition jmap := list (jstr * jval).

(** [m.get(k)]; [None] is [undefined]. *)
Fixpoint map_get (k : jstr) (m : jmap) : option jval :=
  match m with
  | [] => None
  | (k', v) :: m' => if jstr_eqb k' k then Some v else map_get k m'
  end.

(** [m.set(k, v)]: an existing key keeps its place, a new one goes last.
    The same rule gives the property list of [{...o, k: v}]. *)
Fixpoint map_set (k : jstr) (v : jval) (m : jmap) : jmap :=
  match m with
  | [] => [(k, v)]
  | (k', v') :: m' => if jstr_eqb k' k then (k', v) :: m' else (k', v') :: map_set k v m'
  end.

(** [m.delete(k)]; a [Map] holds each key once. *)
Fixpoint map_delete (k : jstr) (m : jmap) : jmap :=
  match m with
  | [] => []
  | (k', v') :: m' => if jstr_eqb k' k then map_delete k m' else (k', v') :: map_delete k m'
  end.

(** JavaScript truthiness. *)
Definition truthy (v : jval) : bool :=
  match v with
  | JUndefined | JNull => false
  | JBool b => b
  | JNum z => negb (Z.eqb z 0)
  | JStr s => match s with [] => false | _ => true end
  | JArr _ | JObj _ => true
  end.

(** [Date.now() - v.ts > CACHE_TTL_MS]; the entries are written by
    [cacheSet] with a numeric [ts] ([undefined] would give [NaN], and a
    false comparison). *)
Definition expired (now : Z) (v : jval) : bool :=
  match get v (str "ts") with
  | JNum ts => Z.ltb CACHE_TTL_MS (now - ts)
  | _ => false
  end.

(** [cacheGet(key)] at time [now]: the value returned ([null] as [JNull])
    and the cache afterwards. *)
Definition cacheGet (key : jstr) (now : Z) (cache : jmap) : jval * jmap :=
  match map_get key cache with
  | None => (JNull, cache)
  | Some v =>
      if negb (truthy v) then (JNull, cache)
      else if expired now v then (JNull, map_delete key cache)
      else (v, cache)
  end.

(** [cacheSet(key, value)] at time [now], for an object literal [value]
    given by its property list: [{ ...value, ts: Date.now() }]. *)
Definition cacheSet (key : jstr) (value : jmap) (now : Z) (cache : jmap) : jmap :=
  map_set key (JObj (map_set (str "ts") (JNum now) value)) cache.

(** ** The cached upload routes *)

(** A thrown [Error] (the providers' clients, the database driver and
    the engine throw [Error] objects): its [name] and its [message]. *)
Record exn := { exn_name : jstr; exn_message : jstr }.

(** [new Error(m)] *)
Definition new_exn (m : jstr) : exn := {| exn_name := str "Error"; exn_message := m |}.

(** [String(err)], that is [Error.prototype.toString]: the name, the
    message, or both joined by [": "]. *)
Definition exn_string (e : exn) : jstr :=
  match exn_name e, exn_message e with
  | [], m => m
  | n, [] => n
  | n, m => n ++ str ": " ++ m
  end.

(** [String(err?.message || err)] *)
Definition exn_details (e : exn) : jstr :=
  match exn_message e with
  | [] => exn_string e
  | m => m
  end.

(** The outcome of a call to a provider: its result, or the error it
    throws. *)
Inductive outcome (A : Type) :=
| Ok (a : A)
| Err (e : exn).
Arguments Ok {A} a.
Arguments Err {A} e.

(** A reply: its HTTP status and its JSON body. *)
Record response := { status : nat; resp_body : jval }.

(** [res.json(body)] *)
Definition reply (b : jval) : response := {| status := 200; resp_body := b |}.

(** [res.status(400).json({ error: "File yoxdur" })] *)
Definition no_file : response :=
  {| status := 400; resp_body := JObj [prop "error" (JStr (str "File yoxdur"))] |}.

Section Routes.

(** [sha256(buf)], the hex digest of the uploaded bytes. *)
Variable sha256 : jstr -> jstr.
(** The [error] texts of the 500 replies of server.js hold characters
    beyond the 8-bit code units of [jstr]; they are parameters here. *)
Variable openai_error vision_error : jstr.

(** [file] is [req.file?.buffer] ([None]: no file); [t_get] and [t_set]
    are [Date.now()] at [cacheGet] and at [cacheSet]; [res] is the outcome
    of the provider call. *)

(** server.js, lines 254-275: [POST /upload]. *)
Definition upload_openai_route (file : option jstr) (t_get t_set : Z)
  (res : outcome jval) (cache : jmap) : response * jmap :=
  match file with
  | None => (no_file, cache)
  | Some buf =>
      let key := str "openai:" ++ sha256 buf in
      let (cached, cache1) := cacheGet key t_get cache in
      if truthy cached then
        (reply (JObj [prop "analysis" (get cached (str "analysis"));
                      prop "provider" (JStr (str "openai")); prop "cached" (JBool true)]),
         cache1)
      else
        match res with
        | Err e =>
            ({| status := 500;
                resp_body := JObj [prop "error" (JStr openai_error);
                                   prop "details" (JStr (exn_details e))] |},
             cache1)
        | Ok analysis =>
            (reply (upload_openai analysis),
             cacheSet key [prop "analysis" analysis; prop "provider" (JStr (str "openai"))]
               t_set cache1)
        end
  end.

(** server.js, lines 278-305: [POST /upload/google-vision]; [res] carries
    [result?.fullTextAnnotation?.text]. *)
Definition upload_vision_route (file : option jstr) (t_get t_set : Z)
  (res : outcome (option jstr)) (cache : jmap) : response * jmap :=
  match file with
  | None => (no_file, cache)
  | Some buf =>
      let key := str "vision:" ++ sha256 buf in
      let (cached, cache1) := cacheGet key t_get cache in
      if truthy cached then
        (reply (JObj [prop "analysis" (get cached (str "analysis"));
                      prop "provider" (JStr (str "google-vision")); prop "cached" (JBool true)]),
         cache1)
      else
        match res with
        | Err e =>
            ({| status := 500;
                resp_body := JObj [prop "error" (JStr vision_error);
                                   prop "details" (JStr (exn_details e))] |},
             cache1)
        | Ok visionText =>
            let analysis := extractFromVisionText (vision_text visionText) in
            (reply (upload_google_vision visionText),
             cacheSet key [prop "analysis" analysis; prop "provider" (JStr (str "google-vision"))]
               t_set cache1)
        end
  end.

(** unnamed/part_001, lines 528-547: [POST /upload]. *)
Definition upload_openai_route_simple (file : option jstr) (t_get t_set : Z)
  (res : outcome jval) (cache : jmap) : response * jmap :=
  match file with
  | None => (no_file, cache)
  | Some buf =>
      let key := str "openai:" ++ sha256 buf in
      let (cached, cache1) := cacheGet key t_get cache in
      if truthy cached then
        (reply (JObj [prop "analysis" (get cached (str "analysis")); prop "cached" (JBool true)]),
         cache1)
      else
        match res with
        | Err e =>
            ({| status := 500; resp_body := JObj [prop "error" (JStr (exn_message e))] |}, cache1)
        | Ok analysis =>
            (reply (JObj [prop "analysis" analysis; prop "cached" (JBool false)]),
             cacheSet key [prop "analysis" analysis] t_set cache1)
        end
  end.

(** unnamed/part_001, lines 550-575: [POST /upload/google-vision]. *)
Definition upload_vision_route_simple (file : option jstr) (t_get t_set : Z)
  (res : outcome (option jstr)) (cache : jmap) : response * jmap :=
  match file with
  | None => (no_file, cache)
  | Some buf =>
      let key := str "vision:" ++ sha256 buf in
      let (cached, cache1) := cacheGet key t_get cache in
      if truthy cached then
        (reply (JObj [prop "analysis" (get cached (str "analysis")); prop "cached" (JBool true)]),
         cache1)
      else
        match res with
        | Err e =>
            ({| status := 500; resp_body := JObj [prop "error" (JStr (exn_message e))] |}, cache1)
        | Ok text =>
            let analysis := extractSimple (vision_text text) in
            (reply (upload_google_vision_simple text),
             cacheSet key [prop "analysis" analysis] t_set cache1)
        end
  end.

End Routes.

(** *** Properties of the cache *)

Lemma jstr_eqb_eq a b : jstr_eqb a b = true <-> a = b.
Proof.
  revert b; induction a as [|x a IH]; intros [|y b]; simpl; split; intros H;
    try discriminate; try reflexivity.
  - apply andb_true_iff in H as [H1 H2]. apply Ascii.eqb_eq in H1. apply IH in H2. congruence.
  - injection H as <- <-. rewrite Ascii.eqb_refl. simpl. apply IH. reflexivity.
Qed.

Lemma jstr_eqb_neq a b : a <> b -> jstr_eqb a b = false.
Proof.
  intros H. destruct (jstr_eqb a b) eqn:E; [|reflexivity].
  apply jstr_eqb_eq in E. contradiction.
Qed.

Lemma map_get_set_same k v m : map_get k (map_set k v m) = Some v.
Proof.
  induction m as [|[k' v'] m IH]; simpl.
  - rewrite (proj2 (jstr_eqb_eq k k) eq_refl). reflexivity.
  - destruct (jstr_eqb k' k) eqn:E; simpl; rewrite E; [reflexivity|exact IH].
Qed.

Lemma map_get_set_other k k' v m : k' <> k -> map_get k' (map_set k v m) = map_get k' m.
Proof.
  intros Hne. induction m as [|[k0 v0] m IH]; simpl.
  - rewrite jstr_eqb_neq by congruence. reflexivity.
  - destruct (jstr_eqb k0 k) eqn:E; simpl.
    + apply jstr_eqb_eq in E. subst k0. rewrite jstr_eqb_neq by congruence. reflexivity.
    + destruct (jstr_eqb k0 k'); [reflexivity|exact IH].
Qed.

Lemma map_get_delete_same k m : map_get k (map_delete k m) = None.
Proof.
  induction m as [|[k' v'] m IH]; simpl; [reflexivity|].
  destruct (jstr_eqb k' k) eqn:E; [exact IH|]. simpl. rewrite E. exact IH.
Qed.

Lemma map_get_delete_other k k' m : k' <> k -> map_get k' (map_delete k m) = map_get k' m.
Proof.
  intros Hne. induction m as [|[k0 v0] m IH]; simpl; [reflexivity|].
  destruct (jstr_eqb k0 k) eqn:E.
  - apply jstr_eqb_eq in E. subst k0. rewrite jstr_eqb_neq by congruence. exact IH.
  - simpl. destruct (jstr_eqb k0 k'); [reflexivity|exact IH].
Qed.

Lemma get_obj l k : get (JObj l) k = match map_get k l with Some v => v | None => JUndefined end.
Proof.
  induction l as [|[k' v'] l IH]; [reflexivity|].
  simpl. destruct (jstr_eqb k' k); [reflexivity|exact IH].
Qed.

(** A lookup within [CACHE_TTL_MS] of the write finds the entry written,
    and leaves the cache as it is. *)
Lemma cacheGet_cacheSet key value (ts t : Z) m :
  (t - ts <= CACHE_TTL_MS)%Z ->
  cacheGet key t (cacheSet key value ts m)
  = (JObj (map_set (str "ts") (JNum ts) value), cacheSet key value ts m).
Proof.
  intros Ht. unfold cacheGet, cacheSet at 1. rewrite map_get_set_same. cbn [truthy negb].
  unfold expired. rewrite get_obj, map_get_set_same.
  replace (Z.ltb CACHE_TTL_MS (t - ts)) with false by (symmetry; apply Z.ltb_ge; lia).
  reflexivity.
Qed.

(** [cacheGet] and [cacheSet] on one key leave the entries of the other
    keys alone. *)
Lemma cache_other k k' t v m :
  k' <> k ->
  map_get k' (snd (cacheGet k t m)) = map_get k' m
  /\ map_get k' (cacheSet k v t m) = map_get k' m.
Proof.
  intros Hne. split; [|apply map_get_set_other, Hne].
  unfold cacheGet. destruct (map_get k m) as [x|]; [|reflexivity].
  destruct (negb (truthy x)); [reflexivity|].
  destruct (expired t x); [apply map_get_delete_other, Hne|reflexivity].
Qed.

(** After a lookup that returns [null], no later lookup of the key finds
    anything. *)
Lemma cacheGet_null k t m :
  fst (cacheGet k t m) = JNull -> forall t', fst (cacheGet k t' (snd (cacheGet k t m))) = JNull.
Proof.
  unfold cacheGet. intros H t'. destruct (map_get k m) as [x|] eqn:E.
  - destruct (negb (truthy x)) eqn:T.
    + simpl. rewrite E, T. reflexivity.
    + destruct (expired t x).
      * simpl. rewrite map_get_delete_same. reflexivity.
      * simpl in H. subst x. discriminate.
  - simpl. rewrite E. reflexivity.
Qed.

Lemma prefix_keys_differ x y : str "openai:" ++ x <> str "vision:" ++ y.
Proof. discriminate. Qed.

Lemma cacheGet_hit k t m : truthy (fst (cacheGet k t m)) = true -> snd (cacheGet k t m) = m.
Proof.
  unfold cacheGet. destruct (map_get k m) as [x|]; [|discriminate].
  destruct (negb (truthy x)); [discriminate|].
  destruct (expired t x); [discriminate|reflexivity].
Qed.

Lemma cacheGet_falsy k t m : truthy (fst (cacheGet k t m)) = false -> fst (cacheGet k t m) = JNull.
Proof.
  unfold cacheGet. destruct (map_get k m) as [x|]; [|reflexivity].
  destruct (negb (truthy x)) eqn:T; [reflexivity|].
  destruct (expired t x); [reflexivity|].
  simpl. intros H. rewrite H in T. discriminate.
Qed.

(** ** [safeJsonParse] (unnamed/part_001, lines 409-429) *)

(** [l.indexOf(c)] and [l.lastIndexOf(c)] for a one-character [c];
    [None] is [-1]. *)
Fixpoint index_of (c : ascii) (l : jstr) : option nat :=
  match l with
  | [] => None
  | x :: r => if Ascii.eqb x c then Some 0 else option_map S (index_of c r)
  end.

Fixpoint last_index_of (c : ascii) (l : jstr) : option nat :=
  match l with
  | [] => None
  | x :: r =>
      match last_index_of c r with
      | Some i => Some (S i)
      | None => if Ascii.eqb x c then Some 0 else None
      end
  end.

(** [l] begins with [p], letters compared without case. *)
Fixpoint prefix_ci (p l : jstr) : bool :=
  match p, l with
  | [], _ => true
  | a :: p', c :: l' => char_match true a c && prefix_ci p' l'
  | _ :: _, [] => false
  end.

(** [.replace(/^```(?:json)?/i, "")] *)
Definition strip_open_fence (s : jstr) : jstr :=
  if prefix_ci (str "```") s then
    let r := skipn 3 s in
    if prefix_ci (str "json") r then skipn 4 r else r
  else s.

(** [.replace(/```$/i, "")] *)
Definition strip_close_fence (s : jstr) : jstr :=
  if (3 <=? length s) && jstr_eqb (skipn (length s - 3) s) (str "```")
  then firstn (length s - 3) s else s.

(** The text [safeJsonParse(raw)] hands to [JSON.parse]; [None]: it throws
    ("JSON tapilmadi") before parsing. *)
Definition brace_slice (noFences : jstr) : option jstr :=
  match index_of "{"%char noFences, last_index_of "}"%char noFences with
  | Some start, Some end_ =>
      if end_ <=? start then None else Some (slice noFences start (end_ + 1))
  | _, _ => None
  end.

Definition json_text (raw : jstr) : option jstr :=
  let s := trim raw in
  let noFences := trim (strip_close_fence (strip_open_fence s)) in
  brace_slice noFences.

(** [safeJsonParse(raw)], with [JSON.parse] as [parse]; [None]: it throws. *)
Definition safeJsonParse (parse : jstr -> option jval) (raw : jstr) : option jval :=
  match json_text raw with
  | Some s => parse s
  | None => None
  end.

(** *** Properties of [safeJsonParse] *)

Lemma index_of_spec c l i : index_of c l = Some i -> nth_error l i = Some c.
Proof.
  revert i; induction l as [|x l IH]; intros i; simpl; [discriminate|].
  destruct (Ascii.eqb x c) eqn:E.
  - intros H; injection H as <-. apply Ascii.eqb_eq in E. subst. reflexivity.
  - destruct (index_of c l) as [j|]; [|discriminate]. intros H; injection H as <-.
    simpl. apply IH. reflexivity.
Qed.

Lemma index_of_none c l : ~ In c l -> index_of c l = None.
Proof.
  induction l as [|x l IH]; simpl; intros H; [reflexivity|].
  destruct (Ascii.eqb x c) eqn:E.
  - apply Ascii.eqb_eq in E. subst. tauto.
  - rewrite IH by tauto. reflexivity.
Qed.

Lemma last_index_of_spec c l i : last_index_of c l = Some i -> nth_error l i = Some c.
Proof.
  revert i; induction l as [|x l IH]; intros i; simpl; [discriminate|].
  destruct (last_index_of c l) as [j|] eqn:L.
  - intros H; injection H as <-. simpl. apply IH. reflexivity.
  - destruct (Ascii.eqb x c) eqn:E; [|discriminate].
    intros H; injection H as <-. apply Ascii.eqb_eq in E. subst. reflexivity.
Qed.

Lemma last_index_of_none c l : ~ In c l -> last_index_of c l = None.
Proof.
  induction l as [|x l IH]; simpl; intros H; [reflexivity|].
  rewrite IH by tauto. destruct (Ascii.eqb x c) eqn:E; [|reflexivity].
  apply Ascii.eqb_eq in E. subst. tauto.
Qed.

Lemma infix_trans (a b c : jstr) :
  (exists p s, b = p ++ a ++ s) -> (exists p s, c = p ++ b ++ s) -> exists p s, c = p ++ a ++ s.
Proof.
  intros (p1 & s1 & E1) (p2 & s2 & E2). exists (p2 ++ p1), (s1 ++ s2).
  rewrite E2, E1. rewrite <- !app_assoc. reflexivity.
Qed.

Lemma strip_open_fence_infix s : exists p q, s = p ++ strip_open_fence s ++ q.
Proof.
  unfold strip_open_fence. destruct (prefix_ci (str "```") s).
  - destruct (prefix_ci (str "json") (skipn 3 s)).
    + exists (firstn 3 s ++ firstn 4 (skipn 3 s)), [].
      rewrite app_nil_r, <- app_assoc, !firstn_skipn. reflexivity.
    + exists (firstn 3 s), []. rewrite app_nil_r, firstn_skipn. reflexivity.
  - exists [], []. rewrite app_nil_r. reflexivity.
Qed.

Lemma strip_close_fence_infix s : exists p q, s = p ++ strip_close_fence s ++ q.
Proof.
  unfold strip_close_fence. exists [].
  destruct ((3 <=? length s) && jstr_eqb (skipn (length s - 3) s) (str "```")).
  - exists (skipn (length s - 3) s). simpl. symmetry. apply firstn_skipn.
  - exists []. rewrite app_nil_r. reflexivity.
Qed.

Lemma noFences_infix raw :
  exists p q, raw = p ++ trim (strip_close_fence (strip_open_fence (trim raw))) ++ q.
Proof.
  eapply infix_trans; [apply trim_infix|].
  eapply infix_trans; [apply strip_close_fence_infix|].
  eapply infix_trans; [apply strip_open_fence_infix|].
  apply trim_infix.
Qed.

Lemma slice_infix t a b : exists p q, t = p ++ slice t a b ++ q.
Proof.
  exists (firstn a t), (skipn (b - a) (skipn a t)). unfold slice.
  rewrite firstn_skipn, firstn_skipn. reflexivity.
Qed.

Lemma json_text_infix raw j : json_text raw = Some j -> exists p q, raw = p ++ j ++ q.
Proof.
  unfold json_text, brace_slice. cbv zeta.
  set (n := trim (strip_close_fence (strip_open_fence (trim raw)))).
  destruct (index_of "{"%char n) as [st|]; [|discriminate].
  destruct (last_index_of "}"%char n) as [en|]; [|discriminate].
  destruct (en <=? st); [discriminate|]. intros H; injection H as <-.
  eapply infix_trans; [apply slice_infix|]. apply noFences_infix.
Qed.

Lemma json_text_braces raw j :
  json_text raw = Some j ->
  2 <= length j /\ nth_error j 0 = Some "{"%char /\ nth_error j (length j - 1) = Some "}"%char.
Proof.
  unfold json_text, brace_slice. cbv zeta.
  set (n := trim (strip_close_fence (strip_open_fence (trim raw)))).
  destruct (index_of "{"%char n) as [st|] eqn:I; [|discriminate].
  destruct (last_index_of "}"%char n) as [en|] eqn:L; [|discriminate].
  destruct (en <=? st) eqn:C; [discriminate|]. intros H; injection H as <-.
  apply Nat.leb_gt in C.
  apply index_of_spec in I. apply last_index_of_spec in L.
  assert (Hen : en < length n) by (apply nth_error_Some; rewrite L; discriminate).
  assert (Hlen : length (slice n st (en + 1)) = en + 1 - st)
    by (unfold slice; rewrite length_firstn, length_skipn; lia).
  rewrite Hlen. split; [lia|]. split.
  - rewrite slice_nth by lia. rewrite Nat.add_0_r. exact I.
  - rewrite slice_nth by lia. replace (st + (en + 1 - st - 1)) with en by lia. exact L.
Qed.

Lemma json_text_no_brace raw :
  ~ In "{"%char raw \/ ~ In "}"%char raw -> json_text raw = None.
Proof.
  intros H. unfold json_text, brace_slice. cbv zeta.
  destruct (noFences_infix raw) as (p & q & E).
  set (n := trim (strip_close_fence (strip_open_fence (trim raw)))) in *.
  assert (Hin : forall c, ~ In c raw -> ~ In c n)
    by (intros c Hc Hn; apply Hc; rewrite E; apply in_or_app; right; apply in_or_app; left; exact Hn).
  destruct H as [H|H].
  - rewrite (index_of_none _ _ (Hin _ H)). reflexivity.
  - rewrite (last_index_of_none _ _ (Hin _ H)). destruct (index_of "{"%char n); reflexivity.
Qed.

Lemma ltrim_ws_app w l : Forall (fun c => is_ws c = true) w -> ltrim (w ++ l) = ltrim l.
Proof. induction 1 as [|c w Hc _ IH]; simpl; [reflexivity|]. rewrite Hc. exact IH. Qed.

Lemma rtrim_app_ws l w : Forall (fun c => is_ws c = true) w -> rtrim (l ++ w) = rtrim l.
Proof.
  intros Hw. induction l as [|c l IH]; simpl.
  - induction Hw as [|d w Hd _ IHw]; simpl; [reflexivity|]. rewrite IHw, Hd. reflexivity.
  - rewrite IH. reflexivity.
Qed.

Lemma rtrim_snoc l b : is_ws b = false -> rtrim (l ++ [b]) = l ++ [b].
Proof.
  intros Hb. induction l as [|c l IH]; simpl; [rewrite Hb; reflexivity|].
  rewrite IH. destruct (l ++ [b]) eqn:E; [destruct l; discriminate|reflexivity].
Qed.

(** Text between white space, opening and closing with non-blank
    characters, is its own trim. *)
Lemma trim_padded w1 a m b w2 :
  Forall (fun c => is_ws c = true) w1 -> Forall (fun c => is_ws c = true) w2 ->
  is_ws a = false -> is_ws b = false ->
  trim (w1 ++ (a :: m ++ [b]) ++ w2) = a :: m ++ [b].
Proof.
  intros H1 H2 Ha Hb. unfold trim.
  rewrite ltrim_ws_app by exact H1. rewrite <- app_comm_cons, ltrim_nonws by exact Ha.
  rewrite app_comm_cons, rtrim_app_ws by exact H2.
  change (a :: m ++ [b]) with ((a :: m) ++ [b]). apply rtrim_snoc, Hb.
Qed.

Lemma last_index_of_snoc c l : last_index_of c (l ++ [c]) = Some (length l).
Proof.
  induction l as [|x l IH]; simpl.
  - rewrite Ascii.eqb_refl. reflexivity.
  - rewrite IH. reflexivity.
Qed.

(** A text that opens with [{] and closes with [}] is cut out whole. *)
Lemma brace_slice_braces m :
  brace_slice ("{"%char :: m ++ ["}"%char]) = Some ("{"%char :: m ++ ["}"%char]).
Proof.
  unfold brace_slice. cbn [index_of]. rewrite Ascii.eqb_refl.
  change (last_index_of "}"%char ("{"%char :: m ++ ["}"%char]))
    with (match last_index_of "}"%char (m ++ ["}"%char]) with
          | Some i => Some (S i)
          | None => if Ascii.eqb "{"%char "}"%char then Some 0 else None
          end).
  rewrite last_index_of_snoc. cbn [Nat.leb].
  unfold slice. rewrite Nat.sub_0_r. simpl skipn.
  rewrite firstn_all2; [reflexivity|]. simpl. rewrite length_app. simpl. lia.
Qed.

Lemma strip_close_fence_snoc l b :
  b <> "`"%char -> strip_close_fence (l ++ [b]) = l ++ [b].
Proof.
  intros Hb. unfold strip_close_fence.
  destruct (3 <=? length (l ++ [b])) eqn:L; cbn [andb]; [|reflexivity].
  destruct (jstr_eqb (skipn (length (l ++ [b]) - 3) (l ++ [b])) (str "```")) eqn:E; [|reflexivity].
  apply jstr_eqb_eq in E. exfalso.
  apply Nat.leb_le in L.
  rewrite skipn_app in E. rewrite length_app in L, E. simpl length in L, E.
  replace (length l + 1 - 3 - length l) with 0 in E by lia. simpl in E.
  destruct (skipn (length l + 1 - 3) l) as [|x [|y [|z [|w r]]]]; simpl in E; try discriminate;
    injection E; intros; subst; try discriminate; congruence.
Qed.

Lemma strip_close_fence_fence l : strip_close_fence (l ++ str "```") = l.
Proof.
  unfold strip_close_fence. rewrite length_app. change (length (str "```")) with 3.
  replace (length l + 3 - 3) with (length l) by lia.
  replace (3 <=? length l + 3) with true by (symmetry; apply Nat.leb_le; lia).
  rewrite skipn_app, skipn_all, Nat.sub_diag.
  change (true && jstr_eqb ([] ++ skipn 0 (str "```")) (str "```")) with true. cbv iota.
  rewrite firstn_app, firstn_all, Nat.sub_diag, app_nil_r. reflexivity.
Qed.

Lemma ws_not_j : all_ascii (fun c => negb (is_ws c) || negb (char_match true "j"%char c)) = true.
Proof. vm_compute. reflexivity. Qed.

Lemma prefix_json_ws w1 l :
  Forall (fun c => is_ws c = true) w1 -> hd_error l = Some "{"%char ->
  prefix_ci (str "json") (w1 ++ l) = false.
Proof.
  intros Hw Hl. destruct w1 as [|c w1].
  - destruct l as [|d l]; [discriminate|]. injection Hl as ->. reflexivity.
  - inversion Hw as [|? ? Hc _]; subst. simpl.
    pose proof (all_ascii_spec _ ws_not_j c) as H. cbv beta in H. rewrite Hc in H.
    simpl in H. apply negb_true_iff in H. rewrite H. reflexivity.
Qed.

Lemma strip_open_fence_brace l : strip_open_fence ("{"%char :: l) = "{"%char :: l.
Proof. reflexivity. Qed.

Lemma strip_open_fence_tag lang w1 l :
  In lang [[]; str "json"; str "JSON"] ->
  Forall (fun c => is_ws c = true) w1 -> hd_error l = Some "{"%char ->
  strip_open_fence (str "```" ++ lang ++ w1 ++ l) = w1 ++ l.
Proof.
  intros Hl Hw Hh. unfold strip_open_fence.
  change (prefix_ci (str "```") (str "```" ++ lang ++ w1 ++ l)) with true. cbv iota.
  change (skipn 3 (str "```" ++ lang ++ w1 ++ l)) with (lang ++ w1 ++ l).
  destruct Hl as [<-|[<-|[<-|[]]]].
  - simpl app. rewrite prefix_json_ws by assumption. reflexivity.
  - reflexivity.
  - reflexivity.
Qed.

Lemma trim_braces m : trim ("{"%char :: m ++ ["}"%char]) = "{"%char :: m ++ ["}"%char].
Proof.
  pose proof (trim_padded [] "{"%char m "}"%char [] (Forall_nil _) (Forall_nil _)
                eq_refl eq_refl) as H.
  rewrite app_nil_r in H. exact H.
Qed.

Lemma trim_fenced x : trim (str "```" ++ x ++ str "```") = str "```" ++ x ++ str "```".
Proof.
  assert (E : str "```" ++ x ++ str "```"
              = "`"%char :: (["`"%char; "`"%char] ++ x ++ ["`"%char; "`"%char]) ++ ["`"%char])
    by (simpl; rewrite <- !app_assoc; reflexivity).
  pose proof (trim_padded [] "`"%char (["`"%char; "`"%char] ++ x ++ ["`"%char; "`"%char])
                "`"%char [] (Forall_nil _) (Forall_nil _) eq_refl eq_refl) as H.
  rewrite app_nil_r in H. simpl app in H at 1. rewrite E. exact H.
Qed.

(** ** [normalizeText] on the runs of its input *)

(** A text cut into maximal runs: of spaces and tabs ([[ \t]]), of line
    breaks ([\r] or [\n]), and single other characters. *)
Inductive run :=
| Blanks (l : jstr)
| Breaks (l : jstr)
| Other (c : ascii).

Definition is_blank (c : ascii) : bool := is_sp c || is_tab c.
Definition nonempty (l : jstr) : bool := match l with [] => false | _ => true end.
Definition is_break (c : ascii) : bool := is_nl c || is_cr c.

Definition run_text (r : run) : jstr :=
  match r with
  | Blanks l | Breaks l => l
  | Other c => [c]
  end.

Definition runs_text (rs : list run) : jstr := flat_map run_text rs.

Definition run_ok (r : run) : bool :=
  match r with
  | Blanks l => nonempty l && forallb is_blank l
  | Breaks l => nonempty l && forallb is_break l
  | Other c => negb (is_blank c || is_break c)
  end.

Definition same_kind (r r' : run) : bool :=
  match r, r' with
  | Blanks _, Blanks _ | Breaks _, Breaks _ => true
  | _, _ => false
  end.

(** Each run is well formed and no two neighbours are of one kind, so the
    runs of blanks and of line breaks are maximal. *)
Fixpoint runs_ok (rs : list run) : bool :=
  match rs with
  | [] => true
  | r :: rs' =>
      run_ok r
      && match rs' with [] => true | r' :: _ => negb (same_kind r r') end
      && runs_ok rs'
  end.

(** Preprocessing as the specification words it, run by run: a run of
    blanks becomes one space, a run of [n] line breaks (each [\r] counted
    as a line break) becomes [min n 2] newlines, any other character
    stays. *)
Definition run_spec (r : run) : jstr :=
  match r with
  | Blanks _ => [" "%char]
  | Breaks l => repeat nl (Nat.min (length l) 2)
  | Other c => [c]
  end.

Definition runs_spec (rs : list run) : jstr := flat_map run_spec rs.

(** The cut of a text into its maximal runs. *)
Definition push_char (c : ascii) (rs : list run) : list run :=
  if is_blank c then
    match rs with
    | Blanks l :: rs' => Blanks (c :: l) :: rs'
    | _ => Blanks [c] :: rs
    end
  else if is_break c then
    match rs with
    | Breaks l :: rs' => Breaks (c :: l) :: rs'
    | _ => Breaks [c] :: rs
    end
  else Other c :: rs.

Fixpoint runs_of (l : jstr) : list run :=
  match l with
  | [] => []
  | c :: r => push_char c (runs_of r)
  end.

(** The runs after [.replace(/\r/g, "\n")] and [.replace(/[ \t]+/g, " ")]. *)
Definition run_mid (r : run) : jstr :=
  match r with
  | Blanks _ => [" "%char]
  | Breaks l => repeat nl (length l)
  | Other c => [c]
  end.

Lemma runs_of_text l : runs_text (runs_of l) = l.
Proof.
  induction l as [|c l IH]; [reflexivity|]. simpl. unfold push_char.
  destruct (is_blank c); [|destruct (is_break c)];
    [destruct (runs_of l) as [|[m|m|d] rs]; simpl in *; rewrite <- ?IH; reflexivity
    |destruct (runs_of l) as [|[m|m|d] rs]; simpl in *; rewrite <- ?IH; reflexivity
    |simpl; rewrite IH; reflexivity].
Qed.

Lemma runs_of_ok l : runs_ok (runs_of l) = true.
Proof.
  induction l as [|c l IH]; [reflexivity|]. simpl. unfold push_char.
  destruct (is_blank c) eqn:B; [|destruct (is_break c) eqn:K].
  - destruct (runs_of l) as [|[m|m|d] rs]; simpl in *; rewrite ?B; simpl; auto.
    apply andb_true_iff in IH as [IH R]. apply andb_true_iff in IH as [IH N].
    apply andb_true_iff in IH as [_ F]. rewrite F, N, R. reflexivity.
  - destruct (runs_of l) as [|[m|m|d] rs]; simpl in *; rewrite ?B, ?K; simpl; auto.
    apply andb_true_iff in IH as [IH R]. apply andb_true_iff in IH as [IH N].
    apply andb_true_iff in IH as [_ F]. rewrite F, N, R. reflexivity.
  - destruct (runs_of l) as [|[m|m|d] rs]; simpl in *; rewrite ?B, ?K; simpl; auto.
Qed.

Lemma collapse_blanks_skip l p x :
  l <> [] -> forallb is_blank l = true -> collapse_blanks p (l ++ x) = collapse_blanks true x.
Proof.
  revert p. induction l as [|c l IH]; intros p N F; [congruence|].
  simpl in F. apply andb_true_iff in F as [B F]. unfold is_blank in B.
  simpl. rewrite B. destruct l; [reflexivity|]. apply IH; [discriminate|exact F].
Qed.

Lemma collapse_blanks_flush x :
  (forall c r, x = c :: r -> is_blank c = false) ->
  collapse_blanks true x = " "%char :: collapse_blanks false x.
Proof.
  destruct x as [|c r]; intros H; [reflexivity|].
  specialize (H c r eq_refl). unfold is_blank in H. simpl. rewrite H. reflexivity.
Qed.

Lemma collapse_blanks_nl n x :
  collapse_blanks false (repeat nl n ++ x) = repeat nl n ++ collapse_blanks false x.
Proof. induction n as [|n IH]; [reflexivity|]. simpl. rewrite IH. reflexivity. Qed.

Lemma collapse_newlines_skip n k x :
  collapse_newlines k (repeat nl n ++ x) = collapse_newlines (k + n) x.
Proof.
  revert k. induction n as [|n IH]; intros k; simpl; [rewrite Nat.add_0_r; reflexivity|].
  rewrite IH, Nat.add_succ_r. reflexivity.
Qed.

Lemma collapse_newlines_flush k x :
  (forall c r, x = c :: r -> is_nl c = false) ->
  collapse_newlines k x = repeat nl (Nat.min k 2) ++ collapse_newlines 0 x.
Proof.
  destruct x as [|c r]; intros H; [rewrite app_nil_r; reflexivity|].
  specialize (H c r eq_refl). simpl. rewrite H. reflexivity.
Qed.

Lemma replace_cr_blanks l : forallb is_blank l = true -> replace_cr l = l.
Proof.
  induction l as [|c l IH]; simpl; intros H; [reflexivity|].
  apply andb_true_iff in H as [B H]. rewrite IH by exact H.
  unfold is_blank, is_sp, is_tab in B. unfold is_cr.
  destruct (Ascii.eqb c "013"%char) eqn:E; [|reflexivity].
  apply Ascii.eqb_eq in E. subst. discriminate.
Qed.

Lemma replace_cr_breaks l : forallb is_break l = true -> replace_cr l = repeat nl (length l).
Proof.
  induction l as [|c l IH]; simpl; intros H; [reflexivity|].
  apply andb_true_iff in H as [B H]. rewrite IH by exact H.
  unfold is_break, is_nl, is_cr in B. unfold is_cr.
  destruct (Ascii.eqb c "013"%char) eqn:E; [reflexivity|].
  rewrite orb_false_r in B. apply Ascii.eqb_eq in B. subst. reflexivity.
Qed.

Lemma replace_cr_app a b : replace_cr (a ++ b) = replace_cr a ++ replace_cr b.
Proof. apply map_app. Qed.

Lemma runs_ok_cons r rs : runs_ok (r :: rs) = true -> run_ok r = true /\ runs_ok rs = true.
Proof. simpl. intros H. apply andb_true_iff in H as [H R]. apply andb_true_iff in H. tauto. Qed.

(** After the first two replacements, the runs are [run_mid]. *)
Lemma runs_mid rs :
  runs_ok rs = true ->
  collapse_blanks false (replace_cr (runs_text rs)) = flat_map run_mid rs.
Proof.
  induction rs as [|r rs IH]; intros H; [reflexivity|].
  pose proof H as H'. apply runs_ok_cons in H' as [Hr Hrs].
  specialize (IH Hrs).
  unfold runs_text in *. simpl flat_map. rewrite replace_cr_app.
  destruct r as [l|l|c]; simpl in Hr.
  - apply andb_true_iff in Hr as [N F]. rewrite replace_cr_blanks by exact F.
    rewrite collapse_blanks_skip; [|simpl; destruct l; discriminate|exact F].
    rewrite collapse_blanks_flush, IH; [reflexivity|].
    destruct rs as [|[m|m|d] rs']; simpl; intros c x E; [discriminate| | |].
    + simpl in H. rewrite andb_false_r, andb_false_l in H. discriminate.
    + apply runs_ok_cons in Hrs as [Hm _]. simpl in Hm.
      apply andb_true_iff in Hm as [Nm Fm]. destruct m as [|e m]; [discriminate|].
      simpl in Fm. apply andb_true_iff in Fm as [Fe _].
      unfold replace_cr in E. simpl in E. injection E as <- _.
      unfold is_break, is_nl, is_cr in Fe. unfold is_blank, is_sp, is_tab, is_cr.
      destruct (Ascii.eqb e "013"%char) eqn:Ec; [reflexivity|].
      rewrite orb_false_r in Fe. apply Ascii.eqb_eq in Fe. subst. reflexivity.
    + apply runs_ok_cons in Hrs as [Hd _]. simpl in Hd.
      apply negb_true_iff, orb_false_iff in Hd as [Bd Kd].
      unfold replace_cr in E. simpl in E. injection E as <- _.
      unfold is_break in Kd. apply orb_false_iff in Kd as [_ Kd]. rewrite Kd. exact Bd.
  - apply andb_true_iff in Hr as [_ F]. rewrite replace_cr_breaks by exact F.
    rewrite collapse_blanks_nl, IH. reflexivity.
  - apply negb_true_iff, orb_false_iff in Hr as [B K].
    unfold is_break in K. apply orb_false_iff in K as [_ K].
    simpl. rewrite K. unfold is_blank in B. rewrite B. simpl. rewrite IH. reflexivity.
Qed.

(** Then [.replace(/\n{3,}/g, "\n\n")] gives [runs_spec]. *)
Lemma runs_final rs :
  runs_ok rs = true -> collapse_newlines 0 (flat_map run_mid rs) = runs_spec rs.
Proof.
  induction rs as [|r rs IH]; intros H; [reflexivity|].
  pose proof H as H'. apply runs_ok_cons in H' as [Hr Hrs].
  specialize (IH Hrs). unfold runs_spec in *. simpl flat_map.
  destruct r as [l|l|c]; simpl in Hr.
  - simpl. rewrite IH. reflexivity.
  - cbn [run_mid run_spec]. rewrite collapse_newlines_skip, collapse_newlines_flush, IH; [reflexivity|].
    destruct rs as [|[m|m|d] rs']; simpl; intros c x E; [discriminate| | |].
    + injection E as <- _. reflexivity.
    + simpl in H. rewrite andb_false_r, andb_false_l in H. discriminate.
    + injection E as <- _. apply runs_ok_cons in Hrs as [Hd _]. simpl in Hd.
      apply negb_true_iff, orb_false_iff in Hd as [_ Kd].
      unfold is_break in Kd. apply orb_false_iff in Kd as [Kd _]. exact Kd.
  - apply negb_true_iff, orb_false_iff in Hr as [_ K].
    unfold is_break in K. apply orb_false_iff in K as [K _].
    simpl. rewrite K. simpl. rewrite IH. reflexivity.
Qed.

Lemma normalizeText_runs rs :
  runs_ok rs = true -> normalizeText (runs_text rs) = trim (runs_spec rs).
Proof.
  intros H. unfold normalizeText. rewrite runs_mid, runs_final by exact H. reflexivity.
Qed.

(** ** The PDF upload program (unnamed/part_001, lines 1-355) *)

(** The characters [/[^a-zA-Z0-9._-]/] does not match. *)
Definition safe_char (c : ascii) : bool :=
  in_range 97 122 c || in_range 65 90 c || in_range 48 57 c
  || Ascii.eqb c "."%char || Ascii.eqb c "_"%char || Ascii.eqb c "-"%char.

(** Lines 40-43, the [filename] callback of [multer.diskStorage]:
    [file.originalname.replace(/[^a-zA-Z0-9._-]/g, "_")]. *)
Definition safe_name (originalname : jstr) : jstr :=
  map (fun c => if safe_char c then c else "_"%char) originalname.

(** A number printed in decimal, as [+] on a string does for an integer. *)
Definition number_text (z : Z) : jstr := str (NilEmpty.string_of_int (Z.to_int z)).

(** [Date.now() + "_" + safe], the name the file is stored under. *)
Definition stored_filename (now : Z) (originalname : jstr) : jstr :=
  number_text now ++ "_"%char :: safe_name originalname.

(** An [Error] as this program meets it: its [message] and [code]
    properties. *)
Record error := { err_message : jval; err_code : jval }.

(** [new Error(m)]: [code] is [undefined]. *)
Definition new_error (m : jstr) : error := {| err_message := JStr m; err_code := JUndefined |}.

(** [v === s] for a string literal [s]. *)
Definition str_is (v : jval) (s : jstr) : bool :=
  match v with
  | JStr t => jstr_eqb t s
  | _ => false
  end.

(** Lines 49-52, [fileFilter]: [cb(null, true)] ([None]) or
    [cb(new Error("Only PDF allowed"))]; multer hands the error to the
    error middleware. *)
Definition fileFilter (mimetype : jstr) : option error :=
  if jstr_eqb mimetype (str "application/pdf") then None
  else Some (new_error (str "Only PDF allowed")).

(** [res.status(n).json({ error: v })] *)
Definition error_reply (n : nat) (v : jval) : response :=
  {| status := n; resp_body := JObj [prop "error" v] |}.

(** Lines 72-84, the error middleware; [None] is [next()]. *)
Definition error_middleware (err : option error) : option response :=
  match err with
  | None => None
  | Some e =>
      if str_is (err_message e) (str "Only PDF allowed") then
        Some (error_reply 400 (JStr (str "only_pdf_allowed")))
      else if str_is (err_code e) (str "LIMIT_FILE_SIZE") then
        Some (error_reply 413 (JStr (str "file_too_large")))
      else
        Some (error_reply 500 (if truthy (err_message e) then err_message e
                               else JStr (str "server_error")))
  end.

Section NvSearch.

(** The message of the [TypeError] thrown when [.trim] is called on a
    value that is not a string. *)
Variable trim_type_error : jstr.

(** [(req.query.reg_code || "").trim()]; [q] is [req.query.reg_code]
    (a string, an array or object of the query parser, or [undefined]). *)
Definition reg_code_of (q : jval) : outcome jstr :=
  match (if truthy q then q else JStr []) with
  | JStr s => Ok (trim s)
  | _ => Err {| exn_name := str "TypeError"; exn_message := trim_type_error |}
  end.

(** Lines 303-321, [GET /nv/search]; [rows reg] is the outcome of the
    [SELECT ... WHERE nv_reg_code = ? LIMIT 1] query for [reg]. Beside the
    reply, the list of the codes the database was queried with. *)
Definition nv_search (q : jval) (rows : jstr -> outcome (list jval)) : response * list jstr :=
  let fail e := error_reply 500 (if truthy (JStr (exn_message e)) then JStr (exn_message e)
                                 else JStr (str "server_error")) in
  match reg_code_of q with
  | Err e => (fail e, [])
  | Ok reg =>
      if negb (truthy (JStr reg)) then
        (error_reply 400 (JStr (str "reg_code is required")), [])
      else
        match rows reg with
        | Err e => (fail e, [reg])
        | Ok [] => (error_reply 404 (JStr (str "not found")), [reg])
        | Ok (r :: _) => (reply r, [reg])
        end
  end.

End NvSearch.

(** ** Properties of the PDF upload program *)

Lemma number_text_safe z : Forall (fun c => safe_char c = true) (number_text z).
Proof.
  unfold number_text.
  assert (U : forall d, Forall (fun c => safe_char c = true)
                          (str (NilEmpty.string_of_uint d))).
  { induction d; simpl; constructor; auto. }
  destruct (Z.to_int z) as [d|d]; simpl; [apply U|constructor; [reflexivity|apply U]].
Qed.

Lemma safe_name_safe l : Forall (fun c => safe_char c = true) (safe_name l).
Proof.
  induction l as [|c l IH]; simpl; constructor; auto.
  destruct (safe_char c) eqn:E; [exact E|reflexivity].
Qed.

Lemma safe_name_id l : Forall (fun c => safe_char c = true) l -> safe_name l = l.
Proof.
  induction 1 as [|c l Hc _ IH]; simpl; [reflexivity|]. rewrite Hc, IH. reflexivity.
Qed.

(** ** Inputs used by the examples below *)

Definition ff : ascii := ascii_of_nat 12.
Definition tab : ascii := ascii_of_nat 9.
Definition cr : ascii := ascii_of_nat 13.

(** [" \f\f"] after the label [Exporter], then a line [ab], then a
    [Sender] line. *)
Definition exporter_blank_text : jstr :=
  str "Exporter" ++ [" "%char; ff; ff; nl] ++ str "ab" ++ [nl] ++ str "Sender: ACME".

(** A bare VIN-alphabet run before a labelled VIN. *)
Definition two_vins_text : jstr :=
  str "Ref 2M8GDM9AXKP042788 chassis VIN: 1M8GDM9AXKP042788 end".

(** Blanks, tabs, CRLF line ends and a run of three line breaks. *)
Definition messy_text : jstr :=
  [" "%char; " "%char; "a"%char; " "%char; tab; " "%char; "b"%char; cr; nl; cr; nl; cr; nl;
   "c"%char; " "%char; " "%char].

Definition nbsp : ascii := ascii_of_nat 160.

(** A CRLF line end and two no-break spaces. *)
Definition crlf_nbsp_text : jstr := ["a"%char; cr; nl; "b"%char; nbsp; nbsp; "c"%char].

Definition vin_doc (part : string) (s : jstr) : jval :=
  JObj [prop part (JObj [prop "vin" (JStr s)])].

Definition weight_doc (s : jstr) : jval :=
  JObj [prop "cmr" (JObj [prop "gross_weight_kg" (JStr s)])].

(** ** Main theorems *)

(** C1: [normalize] is total (a Rocq function) and for every input value
    its result, as a JSON value, has the objects [cmr], [invoice] and
    their [exporter] and [importer] objects, and every declared leaf is a
    string; on [{}] the CMR exporter is [{name: "", address: ""}] and the
    invoice importer is [{name: "", address: "", id: ""}]. *)
Theorem normalize_conforms :
  (forall x, conforms (document_json (normalize x)) = true)
  /\ get_path (document_json (normalize (JObj []))) ["cmr"; "exporter"]%string
     = JObj [prop "name" (JStr []); prop "address" (JStr [])]
  /\ get_path (document_json (normalize (JObj []))) ["invoice"; "importer"]%string
     = JObj [prop "name" (JStr []); prop "address" (JStr []); prop "id" (JStr [])].
Proof. split; [intros x; reflexivity|split; reflexivity]. Qed.

(** C2 (counterexample): on Vision text without a VIN the Vision route
    answers with [analysis.cmr.vin = null]; the Normalizer would have
    made it the empty string, so the candidate reaches the client
    without passing through it. *)
Lemma upload_vin_null :
  get_path (upload_google_vision (Some (str "no relevant content")))
    ["analysis"; "cmr"; "vin"]%string = JNull
  /\ get_path (document_json (normalize (extractFromVisionText (str "no relevant content"))))
       ["cmr"; "vin"]%string = JStr [].
Proof. split; vm_compute; reflexivity. Qed.

(** C2 (amended): on a cache miss each route answers with the candidate
    itself, not normalised: the Vision route of server.js with
    [extractFromVisionText] of the Vision text, the OpenAI route with the
    parsed provider JSON, and the Vision route of unnamed/part_001 with
    [extractSimple] of the text. *)
Theorem upload_analysis_candidate vt parsed :
  get (upload_google_vision vt) (str "analysis") = extractFromVisionText (vision_text vt)
  /\ get (upload_openai parsed) (str "analysis") = parsed
  /\ get (upload_google_vision_simple vt) (str "analysis") = extractSimple (vision_text vt).
Proof. repeat split. Qed.

(** C3: the normalised VIN is either the empty string or the upper-cased,
    trimmed input, and then it satisfies the VIN pattern; an input whose
    upper-cased, trimmed form fails the pattern gives the empty string;
    both [cmr.vin] and [invoice.vin] are normalised this way; a valid VIN
    is returned unchanged; the examples of the specification hold. *)
Theorem normalize_vin :
  (forall v, norm_vin v = []
             \/ (norm_vin v = trim (upper (to_text v)) /\ vin_ok (norm_vin v) = true))
  /\ (forall v, vin_ok (trim (upper (to_text v))) = false -> norm_vin v = [])
  /\ (forall x, c_vin (d_cmr (normalize x))
                = norm_vin (field (as_obj (field (as_obj x) "cmr")) "vin")
             /\ v_vin (d_invoice (normalize x))
                = norm_vin (field (as_obj (field (as_obj x) "invoice")) "vin"))
  /\ (forall s, vin_ok s = true ->
       c_vin (d_cmr (normalize (vin_doc "cmr" s))) = s
       /\ v_vin (d_invoice (normalize (vin_doc "invoice" s))) = s)
  /\ c_vin (d_cmr (normalize (vin_doc "cmr" (str "1M8GDM9AXKP042788"))))
     = str "1M8GDM9AXKP042788"
  /\ c_vin (d_cmr (normalize (vin_doc "cmr" (str "1M8GDM9AXKP04278")))) = []
  /\ c_vin (d_cmr (normalize (vin_doc "cmr" (str "1M8GDM9AXKPO42788")))) = [].
Proof.
  split; [exact norm_vin_cases|].
  split; [intros v H; unfold norm_vin; rewrite H; reflexivity|].
  split; [intros x; split; reflexivity|].
  split; [intros s H; split; apply norm_vin_valid, H|].
  vm_compute. repeat split.
Qed.

(** C3 (witness). *)
Lemma normalize_vin_witness :
  (vin_ok (str "1M8GDM9AXKP042788") = true
   /\ c_vin (d_cmr (normalize (vin_doc "cmr" (str "1M8GDM9AXKP042788"))))
      = str "1M8GDM9AXKP042788")
  /\ (vin_ok (trim (upper (to_text (JStr (str "1M8GDM9AXKPO42788"))))) = false
      /\ norm_vin (JStr (str "1M8GDM9AXKPO42788")) = []).
Proof.
  destruct normalize_vin as (_ & H2 & _ & H4 & _).
  split.
  - split; [vm_compute; reflexivity|]. apply (H4 (str "1M8GDM9AXKP042788")).
    vm_compute; reflexivity.
  - split; [vm_compute; reflexivity|]. apply H2. vm_compute; reflexivity.
Defined.

(** C4 (counterexample): in the normalised text the first exporter
    pattern matches, but its group 1 trims to the empty string, so the
    exporter name is [null], although the [Sender] pattern, later in the
    list, matches with [ACME]. *)
Lemma exporter_blank_capture :
  let t := normalizeText exporter_blank_text in
  exec re_exporter t <> None
  /\ option_map trim (group 1 t (exec re_exporter t)) = Some []
  /\ match_patterns t [re_sender] = Some (str "ACME")
  /\ get_path (extractFromVisionText exporter_blank_text) ["cmr"; "exporter"; "name"]%string
     = JNull.
Proof. vm_compute. split; [discriminate|repeat split]. Qed.

(** C4 (amended): every field of the candidate is the first capture group,
    trimmed, of the first pattern of its list that matches the normalised
    text, and [null] when no pattern matches or when that capture trims to
    the empty string; later patterns are then not tried. For the invoice
    number the list is the corrected pattern, then the flawed one. *)
Theorem extract_first_pattern raw :
  let t := normalizeText raw in
  let v := extractFromVisionText raw in
  let first ps := opt_j (or_null (option_map trim (first_group t ps))) in
  get_path v ["cmr"; "vin"]%string = first vin_patterns
  /\ get_path v ["cmr"; "gross_weight_kg"]%string = first gross_patterns
  /\ get_path v ["cmr"; "exporter"; "name"]%string = first exporter_patterns
  /\ get_path v ["cmr"; "importer"; "name"]%string = first importer_patterns
  /\ get_path v ["cmr"; "goods_name"]%string = first goods_patterns
  /\ get_path v ["cmr"; "date"]%string = first cmr_date_patterns
  /\ get_path v ["cmr"; "loading_place"]%string = first loading_patterns
  /\ get_path v ["cmr"; "delivery_place"]%string = first delivery_patterns
  /\ get_path v ["invoice"; "invoice_no"]%string
     = first (re_invoice_no_fixed :: invoice_no_patterns)
  /\ get_path v ["invoice"; "invoice_date"]%string = first invoice_date_patterns
  /\ get_path v ["invoice"; "total_amount"]%string = first total_patterns.
Proof.
  cbv zeta. unfold extractFromVisionText.
  set (t := normalizeText raw).
  destruct (candidate_paths (extract_fields t))
    as (Pe & Pi & Pg & Pv & Pw & Pl & Pd & Pc & _ & _ & _ & _ & Pn & Pid & Pt).
  rewrite Pe, Pi, Pg, Pv, Pw, Pl, Pd, Pc, Pn, Pid, Pt, invoice_no_first.
  cbn [extract_fields f_vin f_gross f_exporterName f_importerName f_goodsName
       f_cmrDate f_loadingPlace f_deliveryPlace f_invoiceDate f_total].
  rewrite !or_null_idem.
  rewrite (matchOne_first t vin_patterns vin_patterns_good),
    (matchOne_first t gross_patterns gross_patterns_good),
    (matchOne_first t exporter_patterns exporter_patterns_good),
    (matchOne_first t importer_patterns importer_patterns_good),
    (matchOne_first t goods_patterns goods_patterns_good),
    (matchOne_first t cmr_date_patterns cmr_date_patterns_good),
    (matchOne_first t loading_patterns loading_patterns_good),
    (matchOne_first t delivery_patterns delivery_patterns_good),
    (matchOne_first t invoice_date_patterns invoice_date_patterns_good),
    (matchOne_first t total_patterns total_patterns_good).
  repeat split.
Qed.

(** C5: when the labelled VIN pattern matches the normalised text, both
    VIN fields are its group 1, whatever bare run precedes it; the bare
    pattern decides only when the labelled one matches nowhere. The
    example has a bare run before the label. *)
Theorem vin_label_first raw :
  let t := normalizeText raw in
  let v := extractFromVisionText raw in
  (exec re_vin_label t <> None ->
     get_path v ["cmr"; "vin"]%string = opt_j (group 1 t (exec re_vin_label t))
     /\ get_path v ["invoice"; "vin"]%string = opt_j (group 1 t (exec re_vin_label t)))
  /\ (exec re_vin_label t = None ->
     get_path v ["cmr"; "vin"]%string = opt_j (group 1 t (exec re_vin_bare t))
     /\ get_path v ["invoice"; "vin"]%string = opt_j (group 1 t (exec re_vin_bare t))).
Proof.
  cbv zeta. unfold extractFromVisionText.
  set (t := normalizeText raw).
  destruct (candidate_paths (extract_fields t))
    as (_ & _ & _ & Pv & _ & _ & _ & _ & _ & _ & _ & Pv' & _).
  rewrite Pv, Pv', vin_field.
  split; intros H; destruct (exec re_vin_label t); (split; [reflexivity|reflexivity]) || congruence.
Qed.

(** C5 (witness): a bare run precedes the label; the labelled VIN wins. *)
Lemma vin_label_first_witness :
  exec re_vin_label (normalizeText two_vins_text) <> None
  /\ group 1 (normalizeText two_vins_text) (exec re_vin_label (normalizeText two_vins_text))
     = Some (str "1M8GDM9AXKP042788")
  /\ get_path (extractFromVisionText two_vins_text) ["cmr"; "vin"]%string
     = JStr (str "1M8GDM9AXKP042788").
Proof.
  assert (H : exec re_vin_label (normalizeText two_vins_text) <> None)
    by (vm_compute; discriminate).
  assert (G : group 1 (normalizeText two_vins_text)
                (exec re_vin_label (normalizeText two_vins_text))
              = Some (str "1M8GDM9AXKP042788")) by (vm_compute; reflexivity).
  split; [exact H|]. split; [exact G|].
  rewrite (proj1 (proj1 (vin_label_first two_vins_text) H)), G. reflexivity.
Defined.

(** C6: the normalised weight is [norm_weight] of [cmr.gross_weight_kg];
    writing [s] for the input upper-cased, trimmed, with commas turned
    into periods, it is either empty, and [s] has no digit, or the first
    numeric run of [s]: [s = pre ++ w ++ post] where [pre] has no digit
    and [w] is digits, optionally a period and digits, not extendable by
    [post]. The examples of the specification hold. *)
Theorem normalize_weight :
  (forall x, c_gross_weight_kg (d_cmr (normalize x))
             = norm_weight (field (as_obj (field (as_obj x) "cmr")) "gross_weight_kg"))
  /\ (forall v,
        let s := comma_to_dot (trim (upper (to_text v))) in
        (norm_weight v = [] /\ forallb (fun c => negb (is_digit c)) s = true)
        \/ (exists pre post, s = pre ++ norm_weight v ++ post
              /\ forallb (fun c => negb (is_digit c)) pre = true
              /\ num_shape (norm_weight v) post))
  /\ c_gross_weight_kg (d_cmr (normalize (weight_doc (str "  1234.5 KG "))))
     = str "1234.5"
  /\ c_gross_weight_kg (d_cmr (normalize (weight_doc (str "1,234")))) = str "1.234".
Proof.
  split; [intros x; reflexivity|].
  split; [intros v; apply first_number_spec|].
  vm_compute. split; reflexivity.
Qed.

(** C7 (counterexample): a CRLF line end becomes two newlines, a blank
    line, and a run of two no-break spaces (horizontal white space, which
    [\s] and [trim] treat as white space) is kept as it is. *)
Lemma normalize_text_crlf_nbsp :
  normalizeText crlf_nbsp_text = ["a"%char; nl; nl; "b"%char; nbsp; nbsp; "c"%char].
Proof. vm_compute. reflexivity. Qed.

(** C7 (amended): [extractFromVisionText] normalises its input once, with
    [normalizeText], and matches every field on the result. Cut into its
    maximal runs (of spaces and tabs, of [\r] and [\n] characters, and
    single other characters), a text is normalised run by run: a run of
    spaces and tabs becomes one space, a run of [n] line breaks becomes
    [min n 2] newlines (a CRLF counts as two), any other character, such
    as a no-break space, stays; the result is then trimmed. Every text has
    such a cut. *)
Theorem normalize_text_once :
  (forall raw, extractFromVisionText raw = candidate (extract_fields (normalizeText raw)))
  /\ (forall rs, runs_ok rs = true -> normalizeText (runs_text rs) = trim (runs_spec rs))
  /\ (forall raw, runs_ok (runs_of raw) = true /\ runs_text (runs_of raw) = raw
                  /\ normalizeText raw = trim (runs_spec (runs_of raw)))
  /\ normalizeText messy_text = str "a b" ++ [nl; nl] ++ str "c".
Proof.
  split; [reflexivity|]. split; [exact normalizeText_runs|].
  split; [|vm_compute; reflexivity].
  intros raw. split; [apply runs_of_ok|]. split; [apply runs_of_text|].
  rewrite <- (runs_of_text raw) at 1. apply normalizeText_runs, runs_of_ok.
Qed.

(** C8: [normalize] is idempotent: normalising the JSON form of a
    normalised record gives the same record. *)
Theorem normalize_idem x : normalize (document_json (normalize x)) = normalize x.
Proof.
  unfold normalize. cbn -[norm_text norm_vin norm_weight norm_party norm_importer].
  rewrite !norm_party_idem, !norm_importer_idem, !norm_text_idem, !norm_vin_idem,
    norm_weight_idem.
  reflexivity.
Qed.

(** C9: in the candidate of [extractFromVisionText], [cmr] and [invoice]
    agree on the VIN, the goods name and the exporter and importer names;
    in the candidate of [extractSimple] they agree on the VIN. *)
Theorem shared_fields raw text :
  let v := extractFromVisionText raw in
  get_path v ["cmr"; "vin"]%string = get_path v ["invoice"; "vin"]%string
  /\ get_path v ["cmr"; "goods_name"]%string = get_path v ["invoice"; "goods_name"]%string
  /\ get_path v ["cmr"; "exporter"; "name"]%string
     = get_path v ["invoice"; "exporter"; "name"]%string
  /\ get_path v ["cmr"; "importer"; "name"]%string
     = get_path v ["invoice"; "importer"; "name"]%string
  /\ get_path (extractSimple text) ["cmr"; "vin"]%string
     = get_path (extractSimple text) ["invoice"; "vin"]%string.
Proof.
  cbv zeta. unfold extractFromVisionText.
  destruct (candidate_paths (extract_fields (normalizeText raw)))
    as (Pe & Pi & Pg & Pv & _ & _ & _ & _ & Pe' & Pi' & Pg' & Pv' & _).
  rewrite Pe, Pi, Pg, Pv, Pe', Pi', Pg', Pv'.
  repeat split.
Qed.

(** C10: the invoice number is group 1 of the corrected pattern (the run
    after the label), the corrected and the flawed pattern match the same
    texts, and that group is a non-empty run of [A-Z0-9-/] (either case)
    with nothing to trim; on [Invoice Number: 12345] the flawed pattern's
    group 1 is [Number] and the invoice number is [12345]. *)
Theorem invoice_no_run raw :
  let t := normalizeText raw in
  get_path (extractFromVisionText raw) ["invoice"; "invoice_no"]%string
    = opt_j (group 1 t (exec re_invoice_no_fixed t))
  /\ (exec re_invoice_no t = None <-> exec re_invoice_no_fixed t = None)
  /\ (forall g, group 1 t (exec re_invoice_no_fixed t) = Some g ->
        g <> [] /\ trim g = g /\ Forall (fun c => cls_match true inv_cls c = true) g)
  /\ group 1 (str "Invoice Number: 12345") (exec re_invoice_no (str "Invoice Number: 12345"))
     = Some (str "Number")
  /\ get_path (extractFromVisionText (str "Invoice Number: 12345"))
       ["invoice"; "invoice_no"]%string = JStr (str "12345").
Proof.
  cbv zeta. set (t := normalizeText raw).
  split; [unfold extractFromVisionText; fold t;
          destruct (candidate_paths (extract_fields t)) as (_ & _ & _ & _ & _ & _ & _ & _ & _ & _ & _ & _ & Pn & _);
          rewrite Pn, invoice_no_field; reflexivity|].
  split; [apply invoice_no_strip|].
  split; [|vm_compute; split; reflexivity].
  intros g Hg.
  assert (Hb : group_bodies (icase re_invoice_no_fixed) (cls_match true inv_cls) 1
                 (body re_invoice_no_fixed) = true) by (vm_compute; reflexivity).
  destruct (group_content _ _ t 1 g Hb Hg) as [Hne Hc].
  destruct (exec re_invoice_no_fixed t) as [m|] eqn:E; [|discriminate].
  destruct (solid1_group _ t m invoice_no_fixed_solid E) as (g' & Hg' & _ & Ht).
  rewrite E, Hg in Hg'. injection Hg' as <-. auto.
Qed.

(** C10 (witness). *)
Lemma invoice_no_run_witness :
  group 1 (normalizeText (str "Invoice No: A-17/5"))
    (exec re_invoice_no_fixed (normalizeText (str "Invoice No: A-17/5")))
  = Some (str "A-17/5")
  /\ str "A-17/5" <> [].
Proof.
  assert (G : group 1 (normalizeText (str "Invoice No: A-17/5"))
                (exec re_invoice_no_fixed (normalizeText (str "Invoice No: A-17/5")))
              = Some (str "A-17/5")) by (vm_compute; reflexivity).
  split; [exact G|].
  destruct (invoice_no_run (str "Invoice No: A-17/5")) as (_ & _ & H & _).
  exact (proj1 (H _ G)).
Defined.

(** ** Further properties of the extractors *)

(** The VIN that [extractFromVisionText] reports is exactly 17 characters
    long, each a digit or a letter other than I, O and Q, in either case
    (the labelled pattern carries the [i] flag). *)
Theorem vision_vin_shape raw v :
  get_path (extractFromVisionText raw) ["cmr"; "vin"]%string = JStr v ->
  length v = 17 /\ Forall (fun c => cls_match true vin_cls c = true) v.
Proof.
  intros H. unfold extractFromVisionText in H.
  destruct (candidate_paths (extract_fields (normalizeText raw))) as (_ & _ & _ & Pv & _).
  rewrite Pv in H. apply opt_j_str in H. cbn [extract_fields f_vin] in H.
  destruct (solid_field _ _ _ _ _ _ vin_patterns_good vin_patterns_shape vin_cls_solid H)
    as (L & Hh & F).
  specialize (Hh 17 eq_refl). split; [lia|exact F].
Qed.

Lemma vision_vin_shape_witness :
  get_path (extractFromVisionText (str "vin: wvwzzz1jzxw000001")) ["cmr"; "vin"]%string
    = JStr (str "wvwzzz1jzxw000001")
  /\ length (str "wvwzzz1jzxw000001") = 17
  /\ Forall (fun c => cls_match true vin_cls c = true) (str "wvwzzz1jzxw000001").
Proof.
  split; [vm_compute; reflexivity|].
  apply (vision_vin_shape (str "vin: wvwzzz1jzxw000001")). vm_compute. reflexivity.
Defined.

(** The dates that [extractFromVisionText] reports (CMR date and invoice
    date) are 6 to 10 characters long, made of digits and the separators
    [.], [/] and [-]. *)
Theorem vision_date_shape raw p v :
  In p [["cmr"; "date"]; ["invoice"; "invoice_date"]]%string ->
  get_path (extractFromVisionText raw) p = JStr v ->
  6 <= length v <= 10 /\ Forall (fun c => date_char c = true) v.
Proof.
  intros Hp H. unfold extractFromVisionText in H.
  destruct (candidate_paths (extract_fields (normalizeText raw)))
    as (_ & _ & _ & _ & _ & _ & _ & Pc & _ & _ & _ & _ & _ & Pid & _).
  destruct Hp as [<-|[<-|[]]].
  - rewrite Pc in H. apply opt_j_str in H. cbn [extract_fields f_cmrDate] in H.
    destruct (solid_field _ _ _ _ _ _ cmr_date_patterns_good cmr_date_patterns_shape
                date_char_solid H) as (L & Hh & F).
    specialize (Hh 10 eq_refl). split; [lia|exact F].
  - rewrite Pid in H. apply opt_j_str in H. cbn [extract_fields f_invoiceDate] in H.
    destruct (solid_field _ _ _ _ _ _ invoice_date_patterns_good invoice_date_patterns_shape
                date_char_solid H) as (L & Hh & F).
    specialize (Hh 10 eq_refl). split; [lia|exact F].
Qed.

Lemma vision_date_shape_witness :
  get_path (extractFromVisionText (str "CMR Date: 1.2.24")) ["cmr"; "date"]%string
    = JStr (str "1.2.24")
  /\ 6 <= length (str "1.2.24") <= 10
  /\ Forall (fun c => date_char c = true) (str "1.2.24").
Proof.
  split; [vm_compute; reflexivity|].
  apply (vision_date_shape (str "CMR Date: 1.2.24") ["cmr"; "date"]%string).
  - left. reflexivity.
  - vm_compute. reflexivity.
Defined.

(** The gross weight and the total amount that [extractFromVisionText]
    reports are non-empty and made of digits, [.] and [,] only. *)
Theorem vision_number_shape raw p v :
  In p [["cmr"; "gross_weight_kg"]; ["invoice"; "total_amount"]]%string ->
  get_path (extractFromVisionText raw) p = JStr v ->
  v <> [] /\ Forall (fun c => num_cls c = true) v.
Proof.
  intros Hp H. unfold extractFromVisionText in H.
  destruct (candidate_paths (extract_fields (normalizeText raw)))
    as (_ & _ & _ & _ & Pw & _ & _ & _ & _ & _ & _ & _ & _ & _ & Pt).
  destruct Hp as [<-|[<-|[]]].
  - rewrite Pw in H. apply opt_j_str in H. cbn [extract_fields f_gross] in H.
    destruct (solid_field _ _ _ _ _ _ gross_patterns_good gross_patterns_shape
                num_cls_solid H) as (L & _ & F).
    split; [intros ->; simpl in L; lia|exact F].
  - rewrite Pt in H. apply opt_j_str in H. cbn [extract_fields f_total] in H.
    destruct (solid_field _ _ _ _ _ _ total_patterns_good total_patterns_shape
                num_cls_solid H) as (L & _ & F).
    split; [intros ->; simpl in L; lia|exact F].
Qed.

Lemma vision_number_shape_witness :
  get_path (extractFromVisionText (str "Gross weight: 1250,5 kg")) ["cmr"; "gross_weight_kg"]%string
    = JStr (str "1250,5")
  /\ str "1250,5" <> [] /\ Forall (fun c => num_cls c = true) (str "1250,5").
Proof.
  split; [vm_compute; reflexivity|].
  apply (vision_number_shape (str "Gross weight: 1250,5 kg") ["cmr"; "gross_weight_kg"]%string).
  - left. reflexivity.
  - vm_compute. reflexivity.
Defined.

(** The free-text fields that [extractFromVisionText] reports (party
    names, goods, places) are non-empty, trimmed, hold no line feed
    ([\n], the one character their [[^\n]] classes exclude) and are at
    most 80 characters long (120 for the goods). *)
Theorem vision_line_shape raw p hi v :
  In (p, hi) [(["cmr"; "exporter"; "name"]%string, 80); (["cmr"; "importer"; "name"]%string, 80);
              (["invoice"; "exporter"; "name"]%string, 80);
              (["invoice"; "importer"; "name"]%string, 80);
              (["cmr"; "goods_name"]%string, 120); (["invoice"; "goods_name"]%string, 120);
              (["cmr"; "loading_place"]%string, 80); (["cmr"; "delivery_place"]%string, 80)] ->
  get_path (extractFromVisionText raw) p = JStr v ->
  v <> [] /\ length v <= hi /\ Forall (fun c => is_nl c = false) v /\ trim v = v.
Proof.
  intros Hp H. unfold extractFromVisionText in H.
  set (t := normalizeText raw) in H.
  destruct (candidate_paths (extract_fields t))
    as (Pe & Pi & Pg & _ & _ & Pl & Pd & _ & Pe' & Pi' & Pg' & _).
  destruct Hp as [E|[E|[E|[E|[E|[E|[E|[E|[]]]]]]]]]; injection E as <- <-.
  - rewrite Pe in H. apply opt_j_str in H. cbn [extract_fields f_exporterName] in H.
    rewrite or_null_idem in H. exact (line_field _ _ _ _ _ exporter_patterns_good exporter_patterns_shape H).
  - rewrite Pi in H. apply opt_j_str in H. cbn [extract_fields f_importerName] in H.
    rewrite or_null_idem in H. exact (line_field _ _ _ _ _ importer_patterns_good importer_patterns_shape H).
  - rewrite Pe' in H. apply opt_j_str in H. cbn [extract_fields f_exporterName] in H.
    rewrite or_null_idem in H. exact (line_field _ _ _ _ _ exporter_patterns_good exporter_patterns_shape H).
  - rewrite Pi' in H. apply opt_j_str in H. cbn [extract_fields f_importerName] in H.
    rewrite or_null_idem in H. exact (line_field _ _ _ _ _ importer_patterns_good importer_patterns_shape H).
  - rewrite Pg in H. apply opt_j_str in H. cbn [extract_fields f_goodsName] in H.
    rewrite or_null_idem in H. exact (line_field _ _ _ _ _ goods_patterns_good goods_patterns_shape H).
  - rewrite Pg' in H. apply opt_j_str in H. cbn [extract_fields f_goodsName] in H.
    rewrite or_null_idem in H. exact (line_field _ _ _ _ _ goods_patterns_good goods_patterns_shape H).
  - rewrite Pl in H. apply opt_j_str in H. cbn [extract_fields f_loadingPlace] in H.
    exact (line_field _ _ _ _ _ loading_patterns_good loading_patterns_shape H).
  - rewrite Pd in H. apply opt_j_str in H. cbn [extract_fields f_deliveryPlace] in H.
    exact (line_field _ _ _ _ _ delivery_patterns_good delivery_patterns_shape H).
Qed.

Lemma vision_line_shape_witness :
  get_path (extractFromVisionText (str "Loading place: Baku port ")) ["cmr"; "loading_place"]%string
    = JStr (str "Baku port")
  /\ str "Baku port" <> [] /\ length (str "Baku port") <= 80
  /\ Forall (fun c => is_nl c = false) (str "Baku port") /\ trim (str "Baku port") = str "Baku port".
Proof.
  split; [vm_compute; reflexivity|].
  apply (vision_line_shape (str "Loading place: Baku port ") ["cmr"; "loading_place"]%string 80).
  - simpl. tauto.
  - vm_compute. reflexivity.
Defined.

(** [extractSimple] reports as VIN exactly 17 characters, each a digit or
    an upper-case letter other than I, O and Q. *)
Theorem extract_simple_vin_shape text v :
  get_path (extractSimple text) ["cmr"; "vin"]%string = JStr v ->
  length v = 17 /\ Forall (fun c => vin_cls c = true) v.
Proof.
  intros H. change (opt_j (or_null (group0 text (exec re_vin_simple text))) = JStr v) in H.
  apply opt_j_str in H.
  destruct (group0 text (exec re_vin_simple text)) as [g|] eqn:E; [|discriminate].
  destruct vin_simple_shape as (Hc & Hmin & Hmax).
  destruct (group0_shape re_vin_simple vin_cls 17 17 text g Hc (Nat.eq_le_incl _ _ (eq_sym Hmin)) Hmax E)
    as [L F].
  destruct g as [|c g]; [discriminate|]. injection H as <-.
  split; [lia|exact F].
Qed.

Lemma extract_simple_vin_shape_witness :
  get_path (extractSimple (str "VIN WVWZZZ1JZXW000001")) ["cmr"; "vin"]%string
    = JStr (str "WVWZZZ1JZXW000001")
  /\ length (str "WVWZZZ1JZXW000001") = 17
  /\ Forall (fun c => vin_cls c = true) (str "WVWZZZ1JZXW000001").
Proof.
  split; [vm_compute; reflexivity|].
  apply (extract_simple_vin_shape (str "VIN WVWZZZ1JZXW000001")). vm_compute. reflexivity.
Defined.

(** [extractSimple] reports as total amount a non-empty run of digits,
    [.] and [,]. *)
Theorem extract_simple_total_shape text v :
  get_path (extractSimple text) ["invoice"; "total_amount"]%string = JStr v ->
  v <> [] /\ Forall (fun c => num_cls c = true) v.
Proof.
  intros H.
  change (opt_j (or_null (group 1 text (exec re_total_simple text))) = JStr v) in H.
  apply opt_j_str in H.
  destruct (group 1 text (exec re_total_simple text)) as [g|] eqn:E; [|discriminate].
  pose proof total_simple_shape as Hs. apply andb_true_iff in Hs as [Hb Hl].
  destruct (group_shape _ _ _ _ _ _ _ Hb Hl E) as (_ & _ & F).
  destruct g as [|c g]; [discriminate|]. injection H as <-.
  split; [discriminate|exact F].
Qed.

Lemma extract_simple_total_shape_witness :
  get_path (extractSimple (str "Total: 1,200.50 USD")) ["invoice"; "total_amount"]%string
    = JStr (str "1,200.50")
  /\ str "1,200.50" <> [] /\ Forall (fun c => num_cls c = true) (str "1,200.50").
Proof.
  split; [vm_compute; reflexivity|].
  apply (extract_simple_total_shape (str "Total: 1,200.50 USD")). vm_compute. reflexivity.
Defined.

(** [normalizeText] is idempotent: normalising already normalised text
    changes nothing. *)
Theorem normalizeText_idem raw : normalizeText (normalizeText raw) = normalizeText raw.
Proof.
  destruct (normalizeText_props raw) as (Hcr & Htab & Hsp & H3 & _).
  set (t := normalizeText raw) in *.
  unfold normalizeText at 1.
  rewrite (replace_cr_id t Hcr), (proj1 (collapse_blanks_id t Htab Hsp)).
  rewrite (collapse_newlines_id t 0) by (lia || exact H3).
  unfold t, normalizeText. apply trim_idem.
Qed.

(** ** Further properties of the cache and of the upload routes *)

(** A cache entry is found by every lookup made within [CACHE_TTL_MS]
    milliseconds of its write, the bound included: the lookup returns the
    value written, with its [ts], and changes nothing. *)
Theorem cache_roundtrip key value (ts t : Z) m :
  (t - ts <= CACHE_TTL_MS)%Z ->
  cacheGet key t (cacheSet key value ts m)
  = (JObj (map_set (str "ts") (JNum ts) value), cacheSet key value ts m).
Proof. apply cacheGet_cacheSet. Qed.

Lemma cache_roundtrip_witness :
  (1800000 - 0 <= CACHE_TTL_MS)%Z
  /\ cacheGet (str "k") 1800000 (cacheSet (str "k") [prop "analysis" JNull] 0 [])
     = (JObj (map_set (str "ts") (JNum 0) [prop "analysis" JNull]),
        cacheSet (str "k") [prop "analysis" JNull] 0 []).
Proof.
  split; [vm_compute; discriminate|].
  apply cache_roundtrip. vm_compute. discriminate.
Defined.

(** A lookup made more than [CACHE_TTL_MS] milliseconds after an entry's
    [ts] returns [null] and deletes that entry; the entries of the other
    keys stay as they were. *)
Theorem cache_expiry key l (ts t : Z) m :
  map_get key m = Some (JObj l) -> get (JObj l) (str "ts") = JNum ts ->
  (CACHE_TTL_MS < t - ts)%Z ->
  fst (cacheGet key t m) = JNull
  /\ map_get key (snd (cacheGet key t m)) = None
  /\ (forall k', k' <> key -> map_get k' (snd (cacheGet key t m)) = map_get k' m).
Proof.
  intros Hm Hts Ht. unfold cacheGet. rewrite Hm. cbn [truthy negb].
  unfold expired. rewrite Hts.
  replace (Z.ltb CACHE_TTL_MS (t - ts)) with true by (symmetry; apply Z.ltb_lt; exact Ht).
  split; [reflexivity|]. split; [apply map_get_delete_same|].
  intros k' Hne. apply map_get_delete_other, Hne.
Qed.

Lemma cache_expiry_witness :
  let m := cacheSet (str "k") [prop "analysis" JNull] 0 [] in
  (map_get (str "k") m = Some (JObj [prop "analysis" JNull; (str "ts", JNum 0)])
   /\ get (JObj [prop "analysis" JNull; (str "ts", JNum 0)]) (str "ts") = JNum 0
   /\ (CACHE_TTL_MS < 1800001 - 0)%Z)
  /\ fst (cacheGet (str "k") 1800001 m) = JNull
  /\ map_get (str "k") (snd (cacheGet (str "k") 1800001 m)) = None
  /\ (forall k', k' <> str "k" -> map_get k' (snd (cacheGet (str "k") 1800001 m)) = map_get k' m).
Proof.
  cbv zeta. split; [split; [reflexivity|split; [reflexivity|vm_compute; reflexivity]]|].
  apply (cache_expiry (str "k") [prop "analysis" JNull; (str "ts", JNum 0)] 0 1800001);
    [reflexivity|reflexivity|vm_compute; reflexivity].
Defined.

(** server.js [POST /upload]: once a file has been analysed afresh, a
    request with the same file within [CACHE_TTL_MS] of the write gets the
    same analysis from the cache, with [cached: true], whatever the OpenAI
    call would now give, and leaves the cache as it is. *)
Theorem upload_openai_cached sha oe buf (t1 t2 t3 t4 : Z) a res c r1 c1 :
  upload_openai_route sha oe (Some buf) t1 t2 (Ok a) c = (r1, c1) ->
  get (resp_body r1) (str "cached") = JBool false ->
  (t3 - t2 <= CACHE_TTL_MS)%Z ->
  upload_openai_route sha oe (Some buf) t3 t4 res c1
  = (reply (JObj [prop "analysis" a; prop "provider" (JStr (str "openai"));
                  prop "cached" (JBool true)]), c1).
Proof.
  intros E Hc Ht. unfold upload_openai_route in E |- *. cbv zeta in E |- *.
  destruct (cacheGet (str "openai:" ++ sha buf) t1 c) as [x c0] eqn:G.
  destruct (truthy x).
  - injection E as <- <-. discriminate Hc.
  - injection E as <- <-. rewrite cacheGet_cacheSet by exact Ht. reflexivity.
Qed.

Lemma upload_openai_cached_witness :
  let sha := fun b : jstr => b in
  let oe := str "OpenAI error" in
  let first := upload_openai_route sha oe (Some (str "pdf")) 0 5 (Ok (JBool true)) [] in
  (first = (fst first, snd first) /\ get (resp_body (fst first)) (str "cached") = JBool false
   /\ (1800005 - 5 <= CACHE_TTL_MS)%Z)
  /\ upload_openai_route sha oe (Some (str "pdf")) 1800005 1800006 (Err (new_exn (str "down"))) (snd first)
     = (reply (JObj [prop "analysis" (JBool true); prop "provider" (JStr (str "openai"));
                     prop "cached" (JBool true)]), snd first).
Proof.
  cbv zeta. split; [split; [reflexivity|split; [reflexivity|vm_compute; discriminate]]|].
  eapply (upload_openai_cached (fun b : jstr => b) (str "OpenAI error") (str "pdf") 0 5 1800005 1800006
            (JBool true) (Err (new_exn (str "down"))) []).
  - reflexivity.
  - reflexivity.
  - vm_compute. discriminate.
Defined.

(** server.js [POST /upload/google-vision]: once a file has been analysed
    afresh from the OCR text, a request with the same file within
    [CACHE_TTL_MS] of the write gets the same analysis from the cache, with
    [cached: true], whatever the Vision call would now give, and leaves the
    cache as it is. *)
Theorem upload_vision_cached sha ve buf (t1 t2 t3 t4 : Z) vt res c r1 c1 :
  upload_vision_route sha ve (Some buf) t1 t2 (Ok vt) c = (r1, c1) ->
  get (resp_body r1) (str "cached") = JBool false ->
  (t3 - t2 <= CACHE_TTL_MS)%Z ->
  upload_vision_route sha ve (Some buf) t3 t4 res c1
  = (reply (JObj [prop "analysis" (extractFromVisionText (vision_text vt));
                  prop "provider" (JStr (str "google-vision")); prop "cached" (JBool true)]), c1).
Proof.
  intros E Hc Ht. unfold upload_vision_route in E |- *. cbv zeta in E |- *.
  destruct (cacheGet (str "vision:" ++ sha buf) t1 c) as [x c0] eqn:G.
  destruct (truthy x).
  - injection E as <- <-. discriminate Hc.
  - injection E as <- <-. rewrite cacheGet_cacheSet by exact Ht. reflexivity.
Qed.

Lemma upload_vision_cached_witness :
  let sha := fun b : jstr => b in
  let ve := str "Vision error" in
  let first := upload_vision_route sha ve (Some (str "pdf")) 0 5 (Ok (Some (str "Total: 9"))) [] in
  (first = (fst first, snd first) /\ get (resp_body (fst first)) (str "cached") = JBool false
   /\ (7 - 5 <= CACHE_TTL_MS)%Z)
  /\ upload_vision_route sha ve (Some (str "pdf")) 7 8 (Ok None) (snd first)
     = (reply (JObj [prop "analysis" (extractFromVisionText (vision_text (Some (str "Total: 9"))));
                     prop "provider" (JStr (str "google-vision")); prop "cached" (JBool true)]),
        snd first).
Proof.
  cbv zeta. split; [split; [reflexivity|split; [vm_compute; reflexivity|vm_compute; discriminate]]|].
  eapply (upload_vision_cached (fun b : jstr => b) (str "Vision error") (str "pdf") 0 5 7 8
            (Some (str "Total: 9")) (Ok None) []).
  - reflexivity.
  - vm_compute. reflexivity.
  - vm_compute. discriminate.
Defined.

(** unnamed/part_001 [POST /upload]: once a file has been analysed afresh,
    a request with the same file within [CACHE_TTL_MS] of the write gets
    the same analysis from the cache, with [cached: true], whatever the
    OpenAI call would now give, and leaves the cache as it is. *)
Theorem upload_openai_simple_cached sha buf (t1 t2 t3 t4 : Z) a res c r1 c1 :
  upload_openai_route_simple sha (Some buf) t1 t2 (Ok a) c = (r1, c1) ->
  get (resp_body r1) (str "cached") = JBool false ->
  (t3 - t2 <= CACHE_TTL_MS)%Z ->
  upload_openai_route_simple sha (Some buf) t3 t4 res c1
  = (reply (JObj [prop "analysis" a; prop "cached" (JBool true)]), c1).
Proof.
  intros E Hc Ht. unfold upload_openai_route_simple in E |- *. cbv zeta in E |- *.
  destruct (cacheGet (str "openai:" ++ sha buf) t1 c) as [x c0] eqn:G.
  destruct (truthy x).
  - injection E as <- <-. discriminate Hc.
  - injection E as <- <-. rewrite cacheGet_cacheSet by exact Ht. reflexivity.
Qed.

Lemma upload_openai_simple_cached_witness :
  let sha := fun b : jstr => b in
  let first := upload_openai_route_simple sha (Some (str "pdf")) 0 5 (Ok (JNum 1)) [] in
  (first = (fst first, snd first) /\ get (resp_body (fst first)) (str "cached") = JBool false
   /\ (6 - 5 <= CACHE_TTL_MS)%Z)
  /\ upload_openai_route_simple sha (Some (str "pdf")) 6 7 (Ok (JNum 2)) (snd first)
     = (reply (JObj [prop "analysis" (JNum 1); prop "cached" (JBool true)]), snd first).
Proof.
  cbv zeta. split; [split; [reflexivity|split; [reflexivity|vm_compute; discriminate]]|].
  eapply (upload_openai_simple_cached (fun b : jstr => b) (str "pdf") 0 5 6 7 (JNum 1) (Ok (JNum 2)) []).
  - reflexivity.
  - reflexivity.
  - vm_compute. discriminate.
Defined.

(** unnamed/part_001 [POST /upload/google-vision]: once a file has been
    analysed afresh, a request with the same file within [CACHE_TTL_MS] of
    the write gets the same analysis from the cache, with [cached: true],
    whatever the Vision call would now give, and leaves the cache as it
    is. *)
Theorem upload_vision_simple_cached sha buf (t1 t2 t3 t4 : Z) vt res c r1 c1 :
  upload_vision_route_simple sha (Some buf) t1 t2 (Ok vt) c = (r1, c1) ->
  get (resp_body r1) (str "cached") = JBool false ->
  (t3 - t2 <= CACHE_TTL_MS)%Z ->
  upload_vision_route_simple sha (Some buf) t3 t4 res c1
  = (reply (JObj [prop "analysis" (extractSimple (vision_text vt)); prop "cached" (JBool true)]), c1).
Proof.
  intros E Hc Ht. unfold upload_vision_route_simple in E |- *. cbv zeta in E |- *.
  destruct (cacheGet (str "vision:" ++ sha buf) t1 c) as [x c0] eqn:G.
  destruct (truthy x).
  - injection E as <- <-. discriminate Hc.
  - injection E as <- <-. rewrite cacheGet_cacheSet by exact Ht. reflexivity.
Qed.

Lemma upload_vision_simple_cached_witness :
  let sha := fun b : jstr => b in
  let first := upload_vision_route_simple sha (Some (str "pdf")) 0 5 (Ok (Some (str "Total: 9"))) [] in
  (first = (fst first, snd first) /\ get (resp_body (fst first)) (str "cached") = JBool false
   /\ (7 - 5 <= CACHE_TTL_MS)%Z)
  /\ upload_vision_route_simple sha (Some (str "pdf")) 7 8 (Err (new_exn (str "down"))) (snd first)
     = (reply (JObj [prop "analysis" (extractSimple (vision_text (Some (str "Total: 9"))));
                     prop "cached" (JBool true)]), snd first).
Proof.
  cbv zeta. split; [split; [reflexivity|split; [vm_compute; reflexivity|vm_compute; discriminate]]|].
  eapply (upload_vision_simple_cached (fun b : jstr => b) (str "pdf") 0 5 7 8
            (Some (str "Total: 9")) (Err (new_exn (str "down"))) []).
  - reflexivity.
  - vm_compute. reflexivity.
  - vm_compute. discriminate.
Defined.

(** The OpenAI routes and the Vision routes never touch each other's cache
    entries: whatever request one route serves, the entry kept under the
    other route's key for any file is unchanged (in server.js and in
    unnamed/part_001). *)
Theorem upload_routes_isolated sha oe ve file (t1 t2 : Z) c buf' :
  (forall res, map_get (str "vision:" ++ sha buf')
                 (snd (upload_openai_route sha oe file t1 t2 res c))
               = map_get (str "vision:" ++ sha buf') c)
  /\ (forall res, map_get (str "openai:" ++ sha buf')
                    (snd (upload_vision_route sha ve file t1 t2 res c))
                  = map_get (str "openai:" ++ sha buf') c)
  /\ (forall res, map_get (str "vision:" ++ sha buf')
                    (snd (upload_openai_route_simple sha file t1 t2 res c))
                  = map_get (str "vision:" ++ sha buf') c)
  /\ (forall res, map_get (str "openai:" ++ sha buf')
                    (snd (upload_vision_route_simple sha file t1 t2 res c))
                  = map_get (str "openai:" ++ sha buf') c).
Proof.
  destruct file as [buf|]; [|repeat split].
  repeat split; intros res;
    unfold upload_openai_route, upload_vision_route, upload_openai_route_simple,
      upload_vision_route_simple; cbv zeta;
    match goal with
    | |- context [cacheGet ?key t1 c] =>
        match goal with |- map_get ?k' _ = _ =>
          assert (Hne : k' <> key)
            by (apply prefix_keys_differ || (apply not_eq_sym; apply prefix_keys_differ));
          pose proof (proj1 (cache_other key k' t1 [] c Hne)) as H1;
          destruct (cacheGet key t1 c) as [x c1]; simpl in H1;
          destruct (truthy x); [exact H1|];
          destruct res; [|exact H1];
          simpl snd; rewrite (proj2 (cache_other key k' t2 _ c1 Hne)); exact H1
        end
    end.
Qed.

(** When the provider call fails, each upload route either answers from
    the cache (with [cached: true], the cache unchanged) or answers 500,
    and then stores nothing: no later lookup of the file's key finds an
    entry. The 500 reply of server.js carries [String(err?.message || err)]
    as [details] (the error's name, such as [Error], when its message is
    empty); that of unnamed/part_001 carries [err.message] as [error]. *)
Theorem upload_routes_failure sha oe ve buf (t1 t2 : Z) e c :
  (let (r, c') := upload_openai_route sha oe (Some buf) t1 t2 (Err e) c in
   (get (resp_body r) (str "cached") = JBool true /\ c' = c)
   \/ (status r = 500 /\ get (resp_body r) (str "details") = JStr (exn_details e)
       /\ forall t, fst (cacheGet (str "openai:" ++ sha buf) t c') = JNull))
  /\ (let (r, c') := upload_vision_route sha ve (Some buf) t1 t2 (Err e) c in
   (get (resp_body r) (str "cached") = JBool true /\ c' = c)
   \/ (status r = 500 /\ get (resp_body r) (str "details") = JStr (exn_details e)
       /\ forall t, fst (cacheGet (str "vision:" ++ sha buf) t c') = JNull))
  /\ (let (r, c') := upload_openai_route_simple sha (Some buf) t1 t2 (Err e) c in
   (get (resp_body r) (str "cached") = JBool true /\ c' = c)
   \/ (status r = 500 /\ get (resp_body r) (str "error") = JStr (exn_message e)
       /\ forall t, fst (cacheGet (str "openai:" ++ sha buf) t c') = JNull))
  /\ (let (r, c') := upload_vision_route_simple sha (Some buf) t1 t2 (Err e) c in
   (get (resp_body r) (str "cached") = JBool true /\ c' = c)
   \/ (status r = 500 /\ get (resp_body r) (str "error") = JStr (exn_message e)
       /\ forall t, fst (cacheGet (str "vision:" ++ sha buf) t c') = JNull)).
Proof.
  repeat split;
    unfold upload_openai_route, upload_vision_route, upload_openai_route_simple,
      upload_vision_route_simple; cbv zeta;
    match goal with
    | |- context [cacheGet ?key t1 c] =>
        pose proof (cacheGet_hit key t1 c) as Hh;
        pose proof (cacheGet_null key t1 c) as Hn;
        pose proof (cacheGet_falsy key t1 c) as Hf;
        destruct (cacheGet key t1 c) as [x c1]; simpl in Hh, Hn, Hf;
        destruct (truthy x) eqn:T;
        [left; split; [reflexivity|exact (Hh eq_refl)]
        |right; split; [reflexivity|split; [reflexivity|]];
         apply Hn, Hf; reflexivity]
    end.
Qed.

(** ** Further properties of [safeJsonParse] *)

(** [safeJsonParse] hands [JSON.parse] only a piece of its input that
    opens with [{] and closes with [}]. *)
Theorem safeJsonParse_slice raw j :
  json_text raw = Some j ->
  2 <= length j /\ nth_error j 0 = Some "{"%char /\ nth_error j (length j - 1) = Some "}"%char
  /\ exists p q, raw = p ++ j ++ q.
Proof.
  intros H. destruct (json_text_braces raw j H) as (L & A & B).
  split; [exact L|]. split; [exact A|]. split; [exact B|].
  exact (json_text_infix raw j H).
Qed.

Lemma safeJsonParse_slice_witness :
  json_text (str "Here: {a: 1} done") = Some (str "{a: 1}")
  /\ 2 <= length (str "{a: 1}") /\ nth_error (str "{a: 1}") 0 = Some "{"%char
  /\ nth_error (str "{a: 1}") (length (str "{a: 1}") - 1) = Some "}"%char
  /\ exists p q, str "Here: {a: 1} done" = p ++ str "{a: 1}" ++ q.
Proof.
  split; [vm_compute; reflexivity|].
  apply safeJsonParse_slice. vm_compute. reflexivity.
Defined.

(** A text without [{], or without [}], makes [safeJsonParse] throw
    without calling [JSON.parse]. *)
Theorem safeJsonParse_no_brace parse raw :
  ~ In "{"%char raw \/ ~ In "}"%char raw -> safeJsonParse parse raw = None.
Proof. intros H. unfold safeJsonParse. rewrite json_text_no_brace by exact H. reflexivity. Qed.

Lemma safeJsonParse_no_brace_witness :
  (~ In "{"%char (str "```json no object```") \/ ~ In "}"%char (str "```json no object```"))
  /\ safeJsonParse (fun _ => Some JNull) (str "```json no object```") = None.
Proof.
  assert (H : ~ In "{"%char (str "```json no object```") \/ ~ In "}"%char (str "```json no object```"))
    by (left; simpl; intuition discriminate).
  split; [exact H|]. apply safeJsonParse_no_brace, H.
Defined.

(** A JSON object text, surrounded by white space or fenced as
    [```json ... ```] (tag [json], [JSON] or none), reaches [JSON.parse]
    unchanged. *)
Theorem safeJsonParse_roundtrip parse w1 m w2 lang :
  Forall (fun c => is_ws c = true) w1 -> Forall (fun c => is_ws c = true) w2 ->
  In lang [[]; str "json"; str "JSON"] ->
  safeJsonParse parse (w1 ++ ("{"%char :: m ++ ["}"%char]) ++ w2) = parse ("{"%char :: m ++ ["}"%char])
  /\ safeJsonParse parse (str "```" ++ lang ++ w1 ++ ("{"%char :: m ++ ["}"%char]) ++ w2 ++ str "```")
     = parse ("{"%char :: m ++ ["}"%char]).
Proof.
  intros H1 H2 Hl. unfold safeJsonParse, json_text. cbv zeta. split.
  - rewrite (trim_padded w1 "{"%char m "}"%char w2 H1 H2 eq_refl eq_refl).
    rewrite strip_open_fence_brace, app_comm_cons, strip_close_fence_snoc by discriminate.
    rewrite <- app_comm_cons, trim_braces, brace_slice_braces. reflexivity.
  - replace (lang ++ w1 ++ ("{"%char :: m ++ ["}"%char]) ++ w2 ++ str "```")
      with ((lang ++ w1 ++ ("{"%char :: m ++ ["}"%char]) ++ w2) ++ str "```")
      by (rewrite <- !app_assoc; reflexivity).
    rewrite trim_fenced, <- !app_assoc.
    rewrite (strip_open_fence_tag lang w1 (("{"%char :: m ++ ["}"%char]) ++ w2 ++ str "```")
               Hl H1 eq_refl).
    replace (w1 ++ ("{"%char :: m ++ ["}"%char]) ++ w2 ++ str "```")
      with ((w1 ++ ("{"%char :: m ++ ["}"%char]) ++ w2) ++ str "```")
      by (rewrite <- !app_assoc; reflexivity).
    rewrite strip_close_fence_fence, (trim_padded w1 "{"%char m "}"%char w2 H1 H2 eq_refl eq_refl).
    rewrite brace_slice_braces. reflexivity.
Qed.

Lemma safeJsonParse_roundtrip_witness :
  (Forall (fun c => is_ws c = true) [nl] /\ Forall (fun c => is_ws c = true) [nl]
   /\ In (str "json") [[]; str "json"; str "JSON"])
  /\ safeJsonParse (fun s => Some (JStr s)) ([nl] ++ ("{"%char :: str "a:1" ++ ["}"%char]) ++ [nl])
     = Some (JStr ("{"%char :: str "a:1" ++ ["}"%char]))
  /\ safeJsonParse (fun s => Some (JStr s))
       (str "```" ++ str "json" ++ [nl] ++ ("{"%char :: str "a:1" ++ ["}"%char]) ++ [nl] ++ str "```")
     = Some (JStr ("{"%char :: str "a:1" ++ ["}"%char])).
Proof.
  split; [split; [repeat constructor|split; [repeat constructor|simpl; auto]]|].
  apply safeJsonParse_roundtrip; [repeat constructor|repeat constructor|simpl; auto].
Defined.

(** ** Further properties of the PDF upload program *)

(** The sanitized file name has the length of the original name, holds
    only characters of [a-zA-Z0-9._-], leaves a name made of those
    characters unchanged, and is idempotent. *)
Theorem safe_name_spec l :
  length (safe_name l) = length l
  /\ Forall (fun c => safe_char c = true) (safe_name l)
  /\ (Forall (fun c => safe_char c = true) l -> safe_name l = l)
  /\ safe_name (safe_name l) = safe_name l.
Proof.
  split; [apply length_map|]. split; [apply safe_name_safe|].
  split; [apply safe_name_id|]. apply safe_name_id, safe_name_safe.
Qed.

(** The name a file is stored under holds only characters of
    [a-zA-Z0-9._-] and an underscore, so it has no slash or backslash and
    is neither [.] nor [..]: it names a file directly inside [uploads]. *)
Theorem stored_filename_safe now name :
  Forall (fun c => safe_char c = true) (stored_filename now name)
  /\ In "_"%char (stored_filename now name)
  /\ ~ In "/"%char (stored_filename now name)
  /\ ~ In (ascii_of_nat 92) (stored_filename now name)
  /\ stored_filename now name <> str "."
  /\ stored_filename now name <> str "..".
Proof.
  assert (F : Forall (fun c => safe_char c = true) (stored_filename now name)).
  { unfold stored_filename. apply Forall_app. split; [apply number_text_safe|].
    constructor; [reflexivity|apply safe_name_safe]. }
  assert (U : In "_"%char (stored_filename now name)).
  { unfold stored_filename. apply in_or_app. right. left. reflexivity. }
  rewrite Forall_forall in F.
  split; [rewrite Forall_forall; exact F|]. split; [exact U|].
  split; [intros H; apply F in H; discriminate|].
  split; [intros H; apply F in H; discriminate|].
  split; intros E; rewrite E in U; simpl in U; intuition discriminate.
Qed.

(** A file whose MIME type is [application/pdf] passes the filter and
    the error middleware; any other type is answered with status 400 and
    [{ error: "only_pdf_allowed" }]. *)
Theorem fileFilter_middleware mimetype :
  (mimetype = str "application/pdf" -> error_middleware (fileFilter mimetype) = None)
  /\ (mimetype <> str "application/pdf" ->
      error_middleware (fileFilter mimetype)
      = Some (error_reply 400 (JStr (str "only_pdf_allowed")))).
Proof.
  split; intros H.
  - subst. reflexivity.
  - unfold fileFilter. rewrite (jstr_eqb_neq _ _ H). reflexivity.
Qed.

(** The error middleware answers every error: with status 400, 413 or 500,
    and a body [{ error: v }] whose [v] is truthy (never empty); the status
    is 413 exactly for a [LIMIT_FILE_SIZE] error that is not the filter's
    rejection. *)
Theorem error_middleware_total e :
  exists r, error_middleware (Some e) = Some r
  /\ (status r = 400 \/ status r = 413 \/ status r = 500)
  /\ (exists v, resp_body r = JObj [prop "error" v] /\ truthy v = true)
  /\ (status r = 413 <->
      str_is (err_message e) (str "Only PDF allowed") = false
      /\ str_is (err_code e) (str "LIMIT_FILE_SIZE") = true).
Proof.
  unfold error_middleware.
  destruct (str_is (err_message e) (str "Only PDF allowed")) eqn:M.
  - eexists; split; [reflexivity|]. simpl.
    split; [auto|]. split; [eexists; split; reflexivity|]. split; [discriminate|intros [H _]; discriminate].
  - destruct (str_is (err_code e) (str "LIMIT_FILE_SIZE")) eqn:C.
    + eexists; split; [reflexivity|]. simpl.
      split; [auto|]. split; [eexists; split; reflexivity|]. tauto.
    + eexists; split; [reflexivity|]. simpl.
      split; [auto|]. split.
      * destruct (truthy (err_message e)) eqn:T; eexists; split; try reflexivity; exact T.
      * split; [discriminate|intros [_ H]; discriminate].
Qed.

(** [GET /nv/search] queries the database at most once, and only when
    [reg_code] is a string whose trimmed form is not empty: with that
    trimmed form. *)
Theorem nv_search_queries te q rows :
  snd (nv_search te q rows) = []
  \/ exists s, q = JStr s /\ trim s <> [] /\ snd (nv_search te q rows) = [trim s].
Proof.
  unfold nv_search, reg_code_of.
  destruct q as [| |b|z|s|l|l]; simpl; try (left; reflexivity);
    try (destruct b; left; reflexivity); try (destruct (negb (z =? 0)%Z); left; reflexivity).
  destruct s as [|c s']; [left; reflexivity|]. simpl.
  destruct (trim (c :: s')) as [|d r] eqn:T; [left; reflexivity|]. simpl.
  right. exists (c :: s'). split; [reflexivity|]. rewrite T. split; [discriminate|].
  destruct (rows (d :: r)) as [[|x xs]|m]; reflexivity.
Qed.

(** A missing, empty or blank [reg_code] is answered with status 400 and
    [{ error: "reg_code is required" }], without a database query. *)
Theorem nv_search_blank te q rows :
  truthy q = false \/ (exists s, q = JStr s /\ trim s = []) ->
  nv_search te q rows = (error_reply 400 (JStr (str "reg_code is required")), []).
Proof.
  intros [T|(s & -> & T)]; unfold nv_search, reg_code_of.
  - rewrite T. reflexivity.
  - destruct (truthy (JStr s)); rewrite ?T; reflexivity.
Qed.

Lemma nv_search_blank_witness :
  (truthy (JStr (str "   ")) = false \/ (exists s, JStr (str "   ") = JStr s /\ trim s = []))
  /\ nv_search [] (JStr (str "   ")) (fun _ => Ok [])
     = (error_reply 400 (JStr (str "reg_code is required")), []).
Proof.
  assert (H : truthy (JStr (str "   ")) = false \/ (exists s, JStr (str "   ") = JStr s /\ trim s = []))
    by (right; exists (str "   "); split; reflexivity).
  split; [exact H|]. apply (nv_search_blank [] (JStr (str "   ")) (fun _ => Ok []) H).
Defined.

(** White space around [reg_code] is ignored: the route behaves on [s] as
    on its trimmed form. *)
Theorem nv_search_trim te s rows :
  nv_search te (JStr s) rows = nv_search te (JStr (trim s)) rows.
Proof.
  unfold nv_search, reg_code_of.
  destruct s as [|c s']; [reflexivity|].
  cbn [truthy]. destruct (trim (c :: s')) as [|d r] eqn:T; [reflexivity|].
  cbn [truthy]. rewrite <- T, trim_idem, T. reflexivity.
Qed.

(** A [reg_code] given as an array or an object (a repeated or nested
    query parameter) makes [.trim] throw: the reply has status 500 and no
    query is made. *)
Theorem nv_search_non_string te l m rows :
  fst (nv_search te (JArr l) rows) = fst (nv_search te (JObj m) rows)
  /\ status (fst (nv_search te (JArr l) rows)) = 500
  /\ snd (nv_search te (JArr l) rows) = []
  /\ snd (nv_search te (JObj m) rows) = [].
Proof. repeat split. Qed.
